(** * A shallow embedding of the pack reader, the index reader and the
      history walker of the [git] package, with the properties of its
      specification.

    Bytes are integers in [Z]; Go's [int], [int64] and [uint64] are [Z]
    with the wrap-around written out.  A Go call can end in four ways: it
    returns with a nil error, it returns a non-nil error, it panics (an
    index out of range, a nil dereference), or it ends the process through
    [log.Fatal].  Loops whose number of iterations the code does not bound
    are given fuel. *)

From stdpp Require Import base numbers option list gmap sets strings.
From Stdlib Require Import ZArith Lia Sorted.

Local Open Scope Z_scope.

#[local] Set Warnings "-clear-no-such-hyp".

(** ** Machine integers *)

Definition toUint64 (z : Z) : Z := z mod 2 ^ 64.
Definition toInt64 (z : Z) : Z := (z + 2 ^ 63) mod 2 ^ 64 - 2 ^ 63.
Definition toUint32 (z : Z) : Z := z mod 2 ^ 32.

(** ** Errors and outcomes *)

Inductive error : Type :=
| ErrNotExist
| io_EOF
| io_ErrUnexpectedEOF
| os_PathError (path : string)
| errors_New (msg : string).

Global Instance error_eq_dec : EqDecision error.
Proof. solve_decision. Defined.

Inductive outcome (A : Type) : Type :=
| Ret (a : A)
| Err (e : error)
| Panic (msg : string)
| Fatal (msg : string)
| OutOfFuel.

Arguments Ret {A} a.
Arguments Err {A} e.
Arguments Panic {A} msg.
Arguments Fatal {A} msg.
Arguments OutOfFuel {A}.

Global Instance outcome_ret : MRet outcome := fun A a => Ret a.
Global Instance outcome_bind : MBind outcome := fun A B k m =>
  match m with
  | Ret a => k a
  | Err e => Err e
  | Panic msg => Panic msg
  | Fatal msg => Fatal msg
  | OutOfFuel => OutOfFuel
  end.

(** Go's [buf[i]]: a run-time panic when [i] is out of range. *)
Definition index {A : Type} (buf : list A) (i : nat) : outcome A :=
  match buf !! i with
  | Some x => Ret x
  | None => Panic "index out of range"
  end.

(** ** Object identifiers and object types *)

(** [type sha1 [20]byte]: the bytes of an object id. *)
Abbreviation sha1 := (list Z) (only parsing).

(** Modelled from the spec: the [ObjectType] constants, declared outside
    the files at hand, are the bit pattern [type << 4] of the pack header
    byte (1 = Commit, 2 = Tree, 3 = Blob, 4 = Tag). *)
Definition ObjectCommit : Z := 0x10.
Definition ObjectTree : Z := 0x20.
Definition ObjectBlob : Z := 0x30.
Definition ObjectTag : Z := 0x40.

(** ** The pack reader (repo_utils.go) *)

Definition shift : list Z := [0; 4; 11; 18; 25; 32; 39; 46; 53; 60].

(** The loop of [readLenInPackFile].  Every iteration reads [shift[advance]]
    after an increment, so the table's length bounds the iterations: the
    fuel given by [readLenInPackFile] is never used up. *)
Fixpoint readLenLoop (fuel : nat) (buf : list Z) (length : Z) (advance : nat)
  : outcome (Z * nat) :=
  b ← index buf advance;
  if Z.land b 0x80 >? 0 then
    match fuel with
    | O => OutOfFuel
    | S fuel' =>
        let advance := S advance in
        b' ← index buf advance;
        s ← index shift advance;
        readLenLoop fuel' buf (toInt64 (length + Z.shiftl (Z.land b' 0x7F) s)) advance
    end
  else Ret (length, S advance).

Definition readLenInPackFile (buf : list Z) : outcome (Z * nat) :=
  b0 ← index buf 0;
  readLenLoop (List.length shift) buf (Z.land b0 0x0F) 0.

(** [idxFile]: the fields the code at hand reads and writes. *)
Record idxFile : Type := {
  indexpath : string;
  packpath : string;
  packversion : Z;
  offsetValues : gmap sha1 Z
}.

(** The file system: the bytes of every file that exists, by path. *)
Definition filesystem : Type := gmap string (list Z).

Definition os_Open (fs : filesystem) (path : string) : outcome (list Z) :=
  match fs !! path with
  | Some content => Ret content
  | None => Err (os_PathError path)
  end.

(** [file.Seek(offset, io.SeekStart)]: a negative offset is refused, and the
    new position is the one asked for. *)
Definition file_Seek (offset : Z) : outcome Z :=
  if offset <? 0 then Err (os_PathError "seek") else Ret offset.

(** [file.Read(buf)] into a zeroed buffer of [size] bytes at position [pos]:
    the buffer after the call and the number of bytes read; end of file when
    nothing is left. *)
Definition file_Read (content : list Z) (pos : Z) (size : nat) : outcome (list Z * nat) :=
  let data := take size (drop (Z.to_nat pos) content) in
  match data with
  | [] => Err io_EOF
  | _ => Ret (data ++ replicate (size - List.length data) 0, List.length data)
  end.

(** [s[0:len(s)-k] + suffix]: slicing panics when [s] is shorter than [k]. *)
Definition replaceSuffix (s : string) (k : nat) (suffix : string) : outcome string :=
  if (String.length s <? k)%nat then Panic "slice bounds out of range"
  else Ret (String.substring 0 (String.length s - k) s +:+ suffix).

(** [buf[lo:hi]]. *)
Definition slice {A : Type} (buf : list A) (lo hi : nat) : outcome (list A) :=
  if (List.length buf <? hi)%nat then Panic "slice bounds out of range"
  else Ret (take (hi - lo) (drop lo buf)).

(** Modelled from the spec: [NewId], declared outside the files at hand,
    makes the 20-byte object identifier out of a slice of 20 bytes. *)
Definition NewId (b : list Z) : outcome sha1 :=
  if (List.length b =? 20)%nat then Ret b else Err (errors_New "Length must be 20").

(** The loop that decodes the offset of an OffsetDelta base.  The buffer's
    length bounds the iterations. *)
Fixpoint offsetDeltaLoop (fuel : nat) (buf : list Z) (num : Z) (pos : nat)
  : outcome (Z * nat) :=
  b ← index buf pos;
  if Z.land b 0x80 >? 0 then
    match fuel with
    | O => OutOfFuel
    | S fuel' =>
        let pos := S pos in
        b' ← index buf pos;
        offsetDeltaLoop fuel' buf
          (toInt64 (Z.lor (Z.shiftl (num + 1) 7) (Z.land b' 0x7f))) pos
    end
  else Ret (num, pos).

(** The two delta cases of the [switch] in [readObjectBytes], and the
    fall-through of every other type tag: the offset of the base object and
    the position after the delta header. *)
Definition deltaBase (indexfiles : gmap string idxFile) (path : string)
    (buf : list Z) (ot : Z) (offsetInt : Z) (pos : nat) : outcome (Z * nat) :=
  if ot =? 0x60 then
    b ← index buf pos;
    '(num, pos) ← offsetDeltaLoop (List.length buf) buf (Z.land b 0x7f) pos;
    Ret (toUint64 (offsetInt - num), S pos)
  else if ot =? 0x70 then
    raw ← slice buf pos (pos + 20);
    id ← NewId raw;
    let pos := (pos + 20)%nat in
    idxpath ← replaceSuffix path 4 "idx";
    match indexfiles !! idxpath with
    | None => Panic "nil pointer dereference"
    | Some f =>
        match offsetValues f !! id with
        | Some baseObjectOffset => Ret (baseObjectOffset, pos)
        | None => Fatal "not implemented yet"
        end
    end
  else Ret (0, pos).

Definition isPlainObject (ot : Z) : bool :=
  (ot =? ObjectCommit) || (ot =? ObjectTree) || (ot =? ObjectBlob) || (ot =? ObjectTag).

Section PackReader.

(** Functions of the package that are declared outside the files at hand:
    the inflater over the bytes that follow the file position, the
    base-128 number reader (value and bytes consumed) and the delta
    interpreter. *)
Variable readerDecompressed : list Z -> outcome (list Z).
Variable readerLittleEndianBase128Number : list Z -> Z * nat.
Variable readerApplyDelta : list Z -> list Z -> Z -> outcome (list Z).

Variable fs : filesystem.

(** What [readObjectBytes] does after it has read the base object: inflate
    the delta that starts at [offsetInt + pos], read its two sizes and,
    unless only the size is asked for, apply it. *)
Definition applyDeltaAt (file : list Z) (offsetInt : Z) (pos : nat) (length : Z)
    (sizeonly : bool) (baseRead : outcome (Z * Z * option (list Z)))
  : outcome (Z * Z * option (list Z)) :=
  '(ot, _, baseRc) ← baseRead;
  match baseRc with
  | None => Panic "nil pointer dereference"
  | Some base =>
      at_ ← file_Seek (offsetInt + Z.of_nat pos);
      rc ← readerDecompressed (drop (Z.to_nat at_) file);
      let '(_, bytesRead) := readerLittleEndianBase128Number rc in
      let rc := drop bytesRead rc in
      let '(resultObjectLength, bytesRead) := readerLittleEndianBase128Number rc in
      let rc := drop bytesRead rc in
      if sizeonly then Ret (ot, resultObjectLength, None)
      else
        data ← readerApplyDelta base rc resultObjectLength;
        Ret (ot, length, Some data)
  end.

Fixpoint readObjectBytes (fuel : nat) (path : string)
    (indexfiles : gmap string idxFile) (offset : Z) (sizeonly : bool)
  : outcome (Z * Z * option (list Z)) :=
  match fuel with
  | O => OutOfFuel
  | S fuel' =>
      let offsetInt := toInt64 offset in
      file ← os_Open fs path;
      pos ← file_Seek offsetInt;
      '(buf, n) ← file_Read file pos 1024;
      if (n =? 0)%nat then Err (errors_New "Nothing read from pack file")
      else
        b0 ← index buf 0;
        let ot := Z.land b0 0x70 in
        '(l, p) ← readLenInPackFile buf;
        let pos := p in
        let length := l in
        if isPlainObject ot then
          if sizeonly then Ret (ot, length, None)
          else
            at_ ← file_Seek (offsetInt + Z.of_nat pos);
            dataRc ← readerDecompressed (drop (Z.to_nat at_) file);
            Ret (ot, length, Some (take (Z.to_nat length) dataRc))
        else
          '(baseObjectOffset, pos) ← deltaBase indexfiles path buf ot offsetInt pos;
          applyDeltaAt file offsetInt pos length sizeonly
            (readObjectBytes fuel' path indexfiles baseObjectOffset false)
  end.

End PackReader.

(** ** The index reader (repo_utils.go) *)

(** A reader is the list of the bytes still to come. *)

(** [io.ReadFull] of [k] bytes: the bytes and the rest of the reader. *)
Definition io_ReadFull (r : list Z) (k : nat) : outcome (list Z * list Z) :=
  if (List.length r <? k)%nat then
    Err (match r with [] => io_EOF | _ => io_ErrUnexpectedEOF end)
  else Ret (take k r, drop k r).

(** [io.CopyN(ioutil.Discard, r, k)]. *)
Definition io_CopyN_Discard (r : list Z) (k : nat) : outcome (list Z) :=
  if (List.length r <? k)%nat then Err io_EOF else Ret (drop k r).

(** [binary.BigEndian]: one unsigned integer, and [n] of them of [w] bytes. *)
Definition bigEndian (bs : list Z) : Z :=
  fold_left (fun acc b => acc * 256 + b) bs 0.

Fixpoint bigEndians (w n : nat) (bs : list Z) : list Z :=
  match n with
  | O => []
  | S n' => bigEndian (take w bs) :: bigEndians w n' (drop w bs)
  end.

(** [binary.Read(r, binary.BigEndian, data)] for [n] integers of [w] bytes:
    the error of the underlying [io.ReadFull] when the reader is short. *)
Definition binary_Read (r : list Z) (w n : nat) : outcome (list Z * list Z) :=
  '(bs, r') ← io_ReadFull r (w * n);
  Ret (bigEndians w n bs, r').

Definition checkIdxVersion (r : list Z) (magic : list Z) (version : Z)
  : outcome (list Z) :=
  '(buf, r') ← io_ReadFull r 8;
  if bool_decide (magic = take 4 buf) then
    if bigEndian (drop 4 buf) =? version then Ret r'
    else Err (errors_New "Not a version idx file")
  else Err (errors_New "Unknown magic byte").

Definition isIdxOffsetValue64 (v : Z) : bool * Z :=
  (Z.land v (Z.shiftl 1 31) >? 0, Z.ldiff v (Z.shiftl 1 31)).

(** The loop that reads the object ids. *)
Fixpoint readIds (n : nat) (r : list Z) : outcome (list sha1 * list Z) :=
  match n with
  | O => Ret ([], r)
  | S n' =>
      if (List.length r <? 20)%nat then Err (errors_New "Too short for sha1")
      else
        '(ids, r') ← readIds n' (drop 20 r);
        Ret (take 20 r :: ids, r')
  end.

(** The loop over the 32-bit offsets, one for each id.  [None] is the exit
    through [if err != binary.Read(...) { return nil, err }]. *)
Fixpoint readOffsets (ids : list sha1) (r : list Z) (offsetValues : gmap sha1 Z)
    (idxOffsetValues64 : list (sha1 * Z))
  : option (gmap sha1 Z * list (sha1 * Z) * list Z) :=
  match ids with
  | [] => Some (offsetValues, idxOffsetValues64, r)
  | id :: ids' =>
      match binary_Read r 4 1 with
      | Ret ([ov], r') =>
          let '(ok, ov) := isIdxOffsetValue64 ov in
          if ok then readOffsets ids' r' offsetValues (idxOffsetValues64 ++ [(id, ov)])
          else readOffsets ids' r' (<[id := ov]> offsetValues) idxOffsetValues64
      | _ => None
      end
  end.

(** The loop that resolves the large offsets. *)
Fixpoint lookupLargeOffsets (idxOffsetValues64 : list (sha1 * Z))
    (offsetValues64 : list Z) (offsetValues : gmap sha1 Z) : outcome (gmap sha1 Z) :=
  match idxOffsetValues64 with
  | [] => Ret offsetValues
  | (id, offset) :: rest =>
      match offsetValues64 !! Z.to_nat offset with
      | None => Err (errors_New "Unexpected large index to 64bit index table")
      | Some v => lookupLargeOffsets rest offsetValues64 (<[id := v]> offsetValues)
      end
  end.

Section IndexReader.

(** [crypto/sha1]: the digest of the bytes written to the hash. *)
Variable sha1sum : list Z -> list Z.

Variable fs : filesystem.

(** [readIdxFile] returns a pointer and an error: [Ret (Some ifile)] is
    [(ifile, nil)], [Ret None] is [(nil, nil)] and [Err e] is [(nil, e)]. *)
Definition readIdxFile (path : string) : outcome (option idxFile) :=
  packpath ← replaceSuffix path 3 "pack";
  idxf ← os_Open fs path;
  idx ← checkIdxVersion idxf [255; 116; 79; 99] 2;
  '(fanout, idx) ← binary_Read idx 4 256;
  n ← index fanout 255;
  let numObjects := Z.to_nat n in
  '(ids, idx) ← readIds numObjects idx;
  idx ← io_CopyN_Discard idx (4 * numObjects);
  match readOffsets ids idx ∅ [] with
  | None => Ret None
  | Some (offsetValues, idxOffsetValues64, idx) =>
      match binary_Read idx 8 (List.length idxOffsetValues64) with
      | Ret (offsetValues64, idx) =>
          offsetValues ← lookupLargeOffsets idxOffsetValues64 offsetValues64 offsetValues;
          idx ← io_CopyN_Discard idx 20;
          let hashCalculated := sha1sum (take (List.length idxf - List.length idx) idxf) in
          '(hashFile, _) ← io_ReadFull idx 20;
          if bool_decide (hashFile = hashCalculated) then
            fi ← os_Open fs packpath;
            _ ← checkIdxVersion fi [80; 65; 67; 75] 2;
            Ret (Some {| indexpath := path; packpath := packpath;
                         packversion := 2; offsetValues := offsetValues |})
          else Err (errors_New "Chacksum missmatch")
      | _ => Ret None
      end
  end.

End IndexReader.

(** ** The history walker *)

(** [HistoryWalkerAction]: [iota] counts the constant specifications of the
    block, [HWDrop] included, so [HWTakeCommit] is [1 << 1]. *)
Definition HWDrop : Z := 0.
Definition HWTakeCommit : Z := Z.shiftl 1 1.
Definition HWFollowParents : Z := Z.shiftl 1 2.
Definition HWStop : Z := Z.shiftl 1 3.
Definition HWTakeAndFollow : Z := Z.lor HWTakeCommit HWFollowParents.

(** Modelled from the spec: the [Commit] of the collaborator, declared
    outside the files at hand, with its id, the id of its tree, the instant
    [Committer.When] in seconds, the ids of its parents and its message. *)
Record Commit : Type := {
  Id : sha1;
  TreeId : sha1;
  When : Z;
  parents : list sha1;
  CommitMessage : string
}.

Global Instance Commit_eq_dec : EqDecision Commit.
Proof. solve_decision. Defined.

(** Modelled from the spec: a tree entry, of which the code reads the id. *)
Record TreeEntry : Type := { entryId : sha1 }.

(** [CommitWalkCallback]: a callback may be a closure over variables it
    updates, so it takes and returns their state [St]. *)
Definition CommitWalkCallback (St : Type) : Type :=
  St -> Commit -> St * (Z * option error).

Definition CommitComparator : Type := Commit -> Commit -> bool.

(** The state of [walkHistoryLoop] between two iterations. *)
Record walker (St : Type) : Type := {
  roots : list Commit;
  seen : gset sha1;
  results : list Commit;
  closure : St
}.
Arguments roots {St} w.
Arguments seen {St} w.
Arguments results {St} w.
Arguments closure {St} w.

(** The inner loop of [mergeRoots]: is [needle] equal to an item of [base]? *)
Definition foundIn (eq : CommitComparator) (needle : Commit) (base : list Commit) : bool :=
  existsb (fun item => eq needle item) base.

Fixpoint mergeLoop (base merging : list Commit) (eq : CommitComparator)
    (seen : gset sha1) (newRoots : list Commit) : list Commit * gset sha1 :=
  match merging with
  | [] => (newRoots, seen)
  | needle :: merging' =>
      if foundIn eq needle base
      then mergeLoop base merging' eq ({[Id needle]} ∪ seen) newRoots
      else mergeLoop base merging' eq seen (newRoots ++ [needle])
  end.

(** [mergeRoots] returns the new roots; the set [seen] it updates in place
    is returned with them. *)
Definition mergeRoots (base merging : list Commit) (eq : CommitComparator)
    (seen : gset sha1) : list Commit * gset sha1 :=
  mergeLoop base merging eq seen base.

(** The loop of [extractNewestCommit] over [roots[1:]]: [idx] counts from 0
    in that slice. *)
Fixpoint newestLoop (rest : list Commit) (idx : nat) (target : Commit)
    (targetIdx : nat) : Commit * nat :=
  match rest with
  | [] => (target, targetIdx)
  | current :: rest' =>
      if When current >? When target
      then newestLoop rest' (S idx) current idx
      else newestLoop rest' (S idx) target targetIdx
  end.

Definition extractNewestCommit (roots : list Commit) : outcome (Commit * list Commit) :=
  match roots with
  | [c] => Ret (c, [])
  | [] => Panic "index out of range"
  | c :: tl =>
      let '(target, targetIdx) := newestLoop tl 0 c 0 in
      Ret (target, take targetIdx roots ++ drop (S targetIdx) roots)
  end.

Section Walker.

(** The repository behind [commit.Parent]: the commit of an id, or the
    error of the lookup. *)
Variable getCommit : sha1 -> outcome Commit.

Definition ParentCount (commit : Commit) : nat := List.length (parents commit).

Definition Parent (commit : Commit) (idx : nat) : outcome Commit :=
  id ← index (parents commit) idx;
  getCommit id.

(** [parents]: every parent in turn, up to the first error. *)
Fixpoint parentsLoop (commit : Commit) (idx n : nat) : outcome (list Commit) :=
  match n with
  | O => Ret []
  | S n' =>
      p ← Parent commit idx;
      ps ← parentsLoop commit (S idx) n';
      Ret (p :: ps)
  end.

Definition parentsOf (commit : Commit) : outcome (list Commit) :=
  parentsLoop commit 0 (ParentCount commit).

(** The inner loop of [skipEqualCommits]: the first parent equal to
    [commit], if there is one. *)
Fixpoint equalParent (commit : Commit) (eq : CommitComparator) (idx n : nat)
  : outcome (option Commit) :=
  match n with
  | O => Ret None
  | S n' =>
      parent ← Parent commit idx;
      if eq commit parent then Ret (Some parent)
      else equalParent commit eq (S idx) n'
  end.

(** [skipEqualCommits] returns a commit or nil, and updates [seen]. *)
Fixpoint skipEqualCommits (fuel : nat) (commit : Commit) (eq : CommitComparator)
    (seen : gset sha1) : outcome (option Commit * gset sha1) :=
  match fuel with
  | O => OutOfFuel
  | S fuel' =>
      if decide (Id commit ∈ seen) then Ret (None, seen)
      else if (List.length (parents commit) =? 0)%nat then Ret (Some commit, seen)
      else
        found ← equalParent commit eq 0 (ParentCount commit);
        match found with
        | Some parent => skipEqualCommits fuel' parent eq ({[Id commit]} ∪ seen)
        | None => Ret (Some commit, seen)
        end
  end.

Fixpoint simplifyLoop (fuel : nat) (roots : list Commit) (eq : CommitComparator)
    (seen : gset sha1) (newRoots : list Commit) : outcome (list Commit * gset sha1) :=
  match roots with
  | [] => Ret (newRoots, seen)
  | commit :: roots' =>
      '(commit, seen) ← skipEqualCommits fuel commit eq seen;
      match commit with
      | Some commit => simplifyLoop fuel roots' eq seen (newRoots ++ [commit])
      | None => simplifyLoop fuel roots' eq seen newRoots
      end
  end.

Definition simplifyRoots (fuel : nat) (roots : list Commit) (eq : CommitComparator)
    (seen : gset sha1) : outcome (list Commit * gset sha1) :=
  simplifyLoop fuel roots eq seen [].

Section Loop.

Context {St : Type}.
Variable callback : CommitWalkCallback St.
Variable eq : CommitComparator.

(** What an iteration does with the action of the callback: take the
    commit, follow its parents, stop. *)
Definition applyAction (results : list Commit) (seen : gset sha1)
    (roots : list Commit) (next : Commit) (st : St) (action : Z)
  : outcome (walker St + list Commit * St) :=
  let '(results, seen) :=
    if Z.land action HWTakeCommit >? 0
    then (results ++ [next], {[Id next]} ∪ seen)
    else (results, seen) in
  merged ←
    (if Z.land action HWFollowParents >? 0
     then pars ← parentsOf next; Ret (mergeRoots pars roots eq seen)
     else Ret (roots, seen));
  let '(roots, seen) := merged in
  if Z.land action HWStop >? 0 then Ret (inr (results, st))
  else Ret (inl {| roots := roots; seen := seen;
                   results := results; closure := st |}).

(** One iteration of the loop of [walkHistoryLoop]: the state for the
    next iteration, or the results and the closure state when the loop
    returns. *)
Definition walkIteration (fuel : nat) (w : walker St)
  : outcome (walker St + list Commit * St) :=
  match roots w with
  | [] => Ret (inr (results w, closure w))
  | _ =>
      '(roots, seen) ← simplifyRoots fuel (roots w) eq (seen w);
      '(next, roots) ← extractNewestCommit roots;
      let '(st, (action, err)) := callback (closure w) next in
      match err with
      | Some e => Err e
      | None => applyAction (results w) seen roots next st action
      end
  end.

(** The loop: [fuel] bounds its iterations and, in each of them, those
    of [skipEqualCommits]. *)
Fixpoint walkLoop (fuel : nat) (w : walker St) : outcome (list Commit * St) :=
  match fuel with
  | O => OutOfFuel
  | S fuel' =>
      next ← walkIteration fuel w;
      match next with
      | inl w' => walkLoop fuel' w'
      | inr r => Ret r
      end
  end.

Definition walkHistoryLoop (fuel : nat) (roots : list Commit) (st : St)
  : outcome (list Commit * St) :=
  walkLoop fuel {| roots := roots; seen := ∅; results := []; closure := st |}.

End Loop.

Definition walkFilteredHistory {St : Type} (fuel : nat) (start : Commit)
    (callback : CommitWalkCallback St) (eq : CommitComparator) (st : St)
  : outcome (list Commit * St) :=
  walkHistoryLoop callback eq fuel [start] st.

End Walker.

(** ** Comparators and callbacks *)

Definition commitRootComparator : CommitComparator :=
  fun current parent => bool_decide (TreeId current = TreeId parent).

Definition nopComparator : CommitComparator := fun current parent => false.

(** [nopCallback] closes over nothing: the state goes through unchanged. *)
Definition nopCallback {St : Type} : CommitWalkCallback St :=
  fun st commit => (st, (HWTakeAndFollow, None)).

(** The error of a Go pair [(value, err)]: [None] is nil. *)
Definition errOf {A : Type} (r : A + error) : option error :=
  match r with
  | inl _ => None
  | inr e => Some e
  end.

Section PathPredicates.

(** Modelled from the spec: the tree entry lookup by path of the
    collaborator, which returns the entry or an error; [ErrNotExist] says
    that the path is absent. *)
Variable GetTreeEntryByPath : Commit -> string -> TreeEntry + error.

Definition makePathComparator (path : string) : CommitComparator :=
  fun current parent =>
    let c := GetTreeEntryByPath current path in
    let p := GetTreeEntryByPath parent path in
    match c, p with
    | inl centry, inl pentry => bool_decide (entryId centry = entryId pentry)
    | _, _ =>
        bool_decide (errOf c = Some ErrNotExist)
        && bool_decide (errOf p = Some ErrNotExist)
    end.

Definition makePathChecker {St : Type} (path : string) : CommitWalkCallback St :=
  fun st commit =>
    match GetTreeEntryByPath commit path with
    | inr err =>
        if bool_decide (err = ErrNotExist) then (st, (HWFollowParents, None))
        else (st, (HWStop, Some err))
    | inl _ => (st, (HWTakeAndFollow, None))
    end.

End PathPredicates.

(** The variables a pager closes over: those of the callback it wraps, and
    its own [skip] and [count], which are Go [int]s. *)
Record pager (St : Type) : Type := {
  inner : St;
  skip : Z;
  count : Z
}.
Arguments inner {St} p.
Arguments skip {St} p.
Arguments count {St} p.

Section Pager.

Context {St : Type}.

Definition pagerCallback (cb : CommitWalkCallback St) : CommitWalkCallback (pager St) :=
  fun p commit =>
    let '(st, (pagerAction, err)) := cb (inner p) commit in
    match err with
    | Some e => ({| inner := st; skip := skip p; count := count p |}, (pagerAction, Some e))
    | None =>
        if Z.land pagerAction HWTakeCommit =? 0 then
          ({| inner := st; skip := skip p; count := count p |}, (pagerAction, None))
        else if negb (skip p =? 0) then
          let skip' := toInt64 (skip p - 1) in
          let action := Z.ldiff pagerAction HWTakeCommit in
          ({| inner := st; skip := skip'; count := count p |}, (action, None))
        else if negb (count p =? 0) then
          let count' := toInt64 (count p - 1) in
          let pagerAction :=
            if count' =? 0 then Z.lor pagerAction HWStop else pagerAction in
          ({| inner := st; skip := skip p; count := count' |}, (pagerAction, None))
        else ({| inner := st; skip := skip p; count := count p |}, (HWStop, None))
    end.

(** [makePager]: the callback, and the variables it closes over as they
    are when it is made; [None] is a nil [cb], and [st] is the state of
    the closure [cb]. *)
Definition makePager (cb : option (CommitWalkCallback St)) (st : St)
    (skip count : Z) : CommitWalkCallback (pager St) * pager St :=
  let cb := match cb with Some cb => cb | None => nopCallback end in
  (pagerCallback cb, {| inner := st; skip := skip; count := count |}).

End Pager.

(** ** The offset of a delta base, as the specification words it *)

(** One continuation step: [num] becomes [((num + 1) << 7) | (b & 0x7f)],
    in 64-bit signed arithmetic. *)
Definition offsetDeltaStep (num b : Z) : Z :=
  toInt64 (Z.lor (Z.shiftl (num + 1) 7) (Z.land b 0x7f)).

(** The integer that the bytes [first :: rest] encode: the low 7 bits of the
    first byte, then one step for each byte that follows. *)
Definition offsetDeltaNum (first : Z) (rest : list Z) : Z :=
  fold_left offsetDeltaStep rest (Z.land first 0x7f).

(** The bytes [first :: rest] are one encoded integer: every byte but the
    last has bit 7 set, and the last has it clear. *)
Fixpoint continued (first : Z) (rest : list Z) : bool :=
  match rest with
  | [] => negb (Z.testbit first 7)
  | b :: rest' => Z.testbit first 7 && continued b rest'
  end.

(** ** The invariant of the walker's loop *)

(** The results have distinct ids, all of them seen. *)
Definition resultsSeen (results : list Commit) (seen : gset sha1) : Prop :=
  NoDup (Id <$> results) /\ forall c, c ∈ results -> Id c ∈ seen.

(** ** Sample repositories and packs *)

Module Samples.

(** A pack of one RefDelta object at offset 12, after the 12 bytes of the
    pack header: type 7 and size 5 in the first byte, then the 20 bytes of
    the id of the base. *)
Definition packHeader : list Z := [80; 65; 67; 75; 0; 0; 0; 2; 0; 0; 0; 1].
Definition missingBase : sha1 := replicate 20 0xAB.
Definition refDeltaPack : list Z := packHeader ++ [0x75] ++ missingBase ++ [120; 156].
Definition refDeltaFs : filesystem := {[ "objects/pack/p.pack" := refDeltaPack ]}.

(** The index of that pack knows one object, which is not the base. *)
Definition refDeltaIndex : gmap string idxFile :=
  {[ "objects/pack/p.idx" :=
       {| indexpath := "objects/pack/p.idx"; packpath := "objects/pack/p.pack";
          packversion := 2; offsetValues := {[ replicate 20 0x01 := 12 ]} |} ]}.

End Samples.

Module IdxSamples.

(** The head of an index of one object: magic, version 2, a fanout table
    whose last entry is 1, the id of the object and its CRC-32. *)
Definition fanout : list Z := [0; 0; 0; 0] ++ mjoin (replicate 255 [0; 0; 0; 1]).
Definition idxHead : list Z :=
  [255; 116; 79; 99] ++ [0; 0; 0; 2] ++ fanout ++ replicate 20 0x01 ++ [0; 0; 0; 0].

(** The file ends inside the table of 32-bit offsets. *)
Definition cutInOffsets : filesystem :=
  {[ "objects/pack/p.idx" := idxHead ++ [0; 0] ]}.

(** The only offset refers to the table of 64-bit offsets, and the file
    ends inside that table. *)
Definition cutInLargeOffsets : filesystem :=
  {[ "objects/pack/p.idx" := idxHead ++ [0x80; 0; 0; 0] ++ [0; 0; 0; 1] ]}.

End IdxSamples.

(** The frontier is pairwise non-equivalent: no two of its elements, at
    different places, are equal for the comparator. *)
Definition pairwiseNonEquivalent (eq : CommitComparator) (frontier : list Commit) : Prop :=
  forall (i j : nat) (a b : Commit),
    i <> j -> frontier !! i = Some a -> frontier !! j = Some b -> eq a b = false.

Module WalkSamples.

(** A commit whose id and tree id repeat one byte. *)
Definition commit (id tree when : Z) (parentIds : list Z) : Commit :=
  {| Id := replicate 20 id; TreeId := replicate 20 tree; When := when;
     parents := replicate 20 <$> parentIds; CommitMessage := "" |}.

(** The repository that holds the commits of a list. *)
Definition repository (commits : list Commit) : sha1 -> outcome Commit :=
  fun id =>
    match List.find (fun c => bool_decide (Id c = id)) commits with
    | Some c => Ret c
    | None => Err (errors_New "object not found")
    end.

(** Two roots, the second one newer, and a third one older than both. *)
Definition older : Commit := commit 1 1 100 [].
Definition newer : Commit := commit 2 2 200 [].
Definition oldest : Commit := commit 7 7 50 [].

(** A merge of [older] and [newer]. *)
Definition merge : Commit := commit 3 3 300 [1; 2].
Definition mergeRepository : sha1 -> outcome Commit := repository [older; newer; merge].

(** A merge of two commits that have the same tree. *)
Definition left : Commit := commit 5 50 300 [].
Definition right : Commit := commit 6 50 200 [].
Definition twins : Commit := commit 4 40 400 [5; 6].
Definition twinsRepository : sha1 -> outcome Commit := repository [left; right; twins].

(** A chain of two commits, the parent committed after its child. *)
Definition lateParent : Commit := commit 9 9 500 [].
Definition earlyChild : Commit := commit 8 8 100 [9].
Definition skewedRepository : sha1 -> outcome Commit := repository [lateParent; earlyChild].

End WalkSamples.

(** ** Reachable commits and the order of the results *)

(** The commits that are reached from [start] along parent links that the
    repository resolves. *)
Inductive reachable (getCommit : sha1 -> outcome Commit) (start : Commit)
  : Commit -> Prop :=
| reachable_start : reachable getCommit start start
| reachable_parent (c p : Commit) (pid : sha1) :
    reachable getCommit start c -> pid ∈ parents c -> getCommit pid = Ret p ->
    reachable getCommit start p.



(** ** The pager, as the specification words it *)

(** The answers of a callback to a sequence of visits, the state of its
    closure going from one visit to the next. *)
Fixpoint answers {St : Type} (cb : CommitWalkCallback St) (st : St)
    (cs : list Commit) : list (Z * option error) :=
  match cs with
  | [] => []
  | c :: cs' => let '(st', r) := cb st c in r :: answers cb st' cs'
  end.

(** An answer takes the commit: no error, and [HWTakeCommit] is set. *)
Definition takes (r : Z * option error) : bool :=
  match r.2 with
  | None => negb (Z.land r.1 HWTakeCommit =? 0)
  | Some _ => false
  end.

(** How many answers of a list take their commit. *)
Definition taken (rs : list (Z * option error)) : nat :=
  List.length (List.filter takes rs).

(** What a pager made with [skip] and [count] answers where the callback it
    wraps answers [r], after the callback has taken [t] commits: an answer
    that does not take the commit is passed on; [TakeCommit] is stripped
    from the first [skip] commits taken; the next [count] are let through,
    with [Stop] set on the last of them; after that the answer is [Stop]. *)
Definition pagerAnswer (skip count : Z) (t : nat) (r : Z * option error)
  : Z * option error :=
  if takes r then
    if Z.of_nat t <? skip then (Z.ldiff r.1 HWTakeCommit, None)
    else if Z.of_nat t <? skip + count then
      (if Z.of_nat t =? skip + count - 1 then Z.lor r.1 HWStop else r.1, None)
    else (HWStop, None)
  else r.

(** The [skip] and [count] that are left after an answer [r] of the
    wrapped callback. *)
Definition pagerLeft (skip count : Z) (r : Z * option error) : Z * Z :=
  if takes r then
    if 0 <? skip then (skip - 1, count)
    else if 0 <? count then (skip, count - 1)
    else (skip, count)
  else (skip, count).

(** The state of a walk with the pager of [cb], next to the state [w] of the
    same walk with [cb]: nothing left to skip, and [count] commits to let
    through. *)
Definition pagerWalker {St : Type} (w : walker St) (count : Z) : walker (pager St) :=
  {| roots := roots w; seen := seen w; results := results w;
     closure := {| inner := closure w; skip := 0; count := count |} |}.

(** The results at the end of an iteration. *)
Definition yielded {St : Type} (r : walker St + list Commit * St) : list Commit :=
  match r with
  | inl w => results w
  | inr (R, _) => R
  end.

(** The end of an iteration with another closure state. *)
Definition withClosure {St St' : Type} (p : St')
    (r : walker St + list Commit * St) : walker St' + list Commit * St' :=
  match r with
  | inl w => inl {| roots := roots w; seen := seen w; results := results w; closure := p |}
  | inr (R, _) => inr (R, p)
  end.

Module PagerSamples.

(** A tree lookup that finds the path in the commit [lateParent] alone. *)
Definition onlyInLateParent (c : Commit) (path : string) : TreeEntry + error :=
  if bool_decide (Id c = Id WalkSamples.lateParent) then inl {| entryId := replicate 20 0 |}
  else inr ErrNotExist.

(** The callback that checks the path: it does not take [earlyChild]. *)
Definition checker : CommitWalkCallback unit := makePathChecker onlyInLateParent "src/x.txt".

End PagerSamples.

Module ChainSamples.

(** A history of three commits in a line, each older than its child. *)
Definition root : Commit := WalkSamples.commit 10 10 100 [].
Definition mid : Commit := WalkSamples.commit 11 11 200 [10].
Definition tip : Commit := WalkSamples.commit 12 12 300 [11].
Definition chainRepository : sha1 -> outcome Commit :=
  WalkSamples.repository [root; mid; tip].


End ChainSamples.

Module DeltaSamples.

(** A pack with a commit of 3 bytes at offset 12 and an OffsetDelta object
    at offset 300: type 6 and size 6 in the first byte, then the two bytes
    that encode the distance 288 to the base at offset 12, then the delta. *)
Definition deltaPack : list Z :=
  Samples.packHeader ++ [0x13; 7; 8; 9] ++ replicate 284 0 ++ [0x66; 0x81; 0x20; 1; 2].
Definition deltaFs : filesystem := {[ "objects/pack/p.pack" := deltaPack ]}.
Definition deltaBuf : list Z := [0x66; 0x81; 0x20; 1; 2] ++ replicate 1019 0.
Definition baseBuf : list Z :=
  [0x13; 7; 8; 9] ++ replicate 284 0 ++ [0x66; 0x81; 0x20; 1; 2] ++ replicate 731 0.

(** A pack whose bytes all have bit 7 set. *)
Definition runawayFs : filesystem := {[ "objects/pack/p.pack" := replicate 12 0xFF ]}.

(** Stand-ins for the inflater, the number reader and the delta
    interpreter. *)
Definition noInflate (bytes : list Z) : outcome (list Z) := Ret bytes.
Definition noNumber (bytes : list Z) : Z * nat := (0, 0%nat).
Definition noDelta (base delta : list Z) (size : Z) : outcome (list Z) := Ret base.

End DeltaSamples.

Module ComparatorSamples.

(** A tree lookup that fails in [earlyChild] with an error other than
    [ErrNotExist], and finds the path in every other commit. *)
Definition brokenInEarlyChild (c : Commit) (path : string) : TreeEntry + error :=
  if bool_decide (Id c = Id WalkSamples.earlyChild) then inr (errors_New "corrupt tree")
  else inl {| entryId := replicate 20 0 |}.

End ComparatorSamples.

(** ** The wrapper of the walker with the default comparator *)

Definition walkHistory {St : Type} (getCommit : sha1 -> outcome Commit) (fuel : nat)
    (start : Commit) (callback : CommitWalkCallback St) (st : St)
  : outcome (list Commit * St) :=
  walkHistoryLoop getCommit callback commitRootComparator fuel [start] st.

(** ** Chains of commits that simplification skips *)

(** [equalChain c d]: [d] is reached from [c] through parents that the
    repository resolves, each one equal to its child for the comparator. *)
Inductive equalChain (getCommit : sha1 -> outcome Commit) (eq : CommitComparator)
  : Commit -> Commit -> Prop :=
| equalChain_refl (c : Commit) : equalChain getCommit eq c c
| equalChain_step (c p d : Commit) (idx : nat) :
    Parent getCommit c idx = Ret p -> eq c p = true ->
    equalChain getCommit eq p d -> equalChain getCommit eq c d.

(** A commit reachable from one of the starts. *)
Definition reachableFrom (getCommit : sha1 -> outcome Commit) (starts : list Commit)
    (c : Commit) : Prop :=
  exists r, r ∈ starts /\ reachable getCommit r c.

(** A commit that the callback takes in some state of its closure. *)
Definition takenBy {St : Type} (callback : CommitWalkCallback St) (c : Commit) : Prop :=
  exists (st st' : St) (action : Z),
    callback st c = (st', (action, None)) /\ Z.testbit action 1 = true.

(** ** The counter (makeCounter) *)

(** The state of the closure of a callback after a sequence of visits. *)
Fixpoint closureAfter {St : Type} (cb : CommitWalkCallback St) (st : St)
    (cs : list Commit) : St :=
  match cs with
  | [] => st
  | c :: cs' => closureAfter cb (cb st c).1 cs'
  end.

Module Counter.

(** The variables a counter closes over: those of the callback it wraps,
    and its own [count], a Go [int]. *)
Record vars (St : Type) : Type := {
  inner : St;
  count : Z
}.
Arguments inner {St} v.
Arguments count {St} v.

Section Counter.

Context {St : Type}.

Definition callback (cb : CommitWalkCallback St) : CommitWalkCallback (vars St) :=
  fun v commit =>
    let '(st, (action, err)) := cb (inner v) commit in
    match err with
    | Some e => ({| inner := st; count := count v |}, (action, Some e))
    | None =>
        if Z.land action HWTakeCommit >? 0 then
          ({| inner := st; count := toInt64 (count v + 1) |},
           (Z.ldiff action HWTakeCommit, None))
        else ({| inner := st; count := count v |}, (action, None))
    end.

(** [makeCounter]: the callback, the variables it closes over as they are
    when it is made, and the getter, which reads [count]. *)
Definition makeCounter (cb : option (CommitWalkCallback St)) (st : St)
  : CommitWalkCallback (vars St) * vars St * (vars St -> Z) :=
  let cb := match cb with Some cb => cb | None => nopCallback end in
  (callback cb, {| inner := st; count := 0 |}, count).

End Counter.

End Counter.

(** ** The length of a pack object, in closed form *)

(** The part of the length that the bytes after the first one hold: 7 bits
    each, the first of them from bit [sh] on. *)
Fixpoint packLengthTail (bs : list Z) (sh : Z) : Z :=
  match bs with
  | [] => 0
  | b :: bs' => Z.land b 0x7F * 2 ^ sh + packLengthTail bs' (sh + 7)
  end.

(** The length that the header bytes [b0 :: rest] hold: the low 4 bits of
    [b0], then 7 bits of every byte of [rest]. *)
Definition packLength (b0 : Z) (rest : list Z) : Z :=
  Z.land b0 0x0F + packLengthTail rest 4.

(** ** Pieces of a file *)

(** The first [n] pieces of [w] bytes of a list of bytes. *)
Fixpoint chunks (w n : nat) (bs : list Z) : list (list Z) :=
  match n with
  | O => []
  | S n' => take w bs :: chunks w n' (drop w bs)
  end.

(** ** Signatures (author and committer lines) *)

(** [bytes.IndexByte]: the index of the first [c] in [b], or -1. *)
Fixpoint indexByteFrom (b : list Z) (c : Z) (i : Z) : Z :=
  match b with
  | [] => -1
  | x :: b' => if x =? c then i else indexByteFrom b' c (i + 1)
  end.

Definition bytes_IndexByte (b : list Z) (c : Z) : Z := indexByteFrom b c 0.

(** [b[lo:hi]] with Go [int] bounds.  Go checks [hi] against the capacity
    of [b]; in [newSignatureFromCommitline] every upper bound that is not
    below its lower bound is at most the length, so the length stands for
    the capacity here. *)
Definition sliceBytes (b : list Z) (lo hi : Z) : outcome (list Z) :=
  if (lo <? 0) || (hi <? lo) || (Z.of_nat (List.length b) <? hi)
  then Panic "slice bounds out of range"
  else Ret (take (Z.to_nat (hi - lo)) (drop (Z.to_nat lo) b)).

Module Signatures.

(** [Signature]: strings are their bytes, and [When] is the instant in
    seconds that [time.Unix(seconds, 0)] makes. *)
Record Signature : Type := {
  Email : list Z;
  Name : list Z;
  When : Z
}.

(** [Signature.String]: ["Name <Email>"]. *)
Definition String (s : Signature) : list Z :=
  Name s ++ [32; 60] ++ Email s ++ [62].

Section Parse.

(** [strconv.ParseInt(s, 10, 64)] of the standard library. *)
Variable strconv_ParseInt : list Z -> outcome Z.

Definition newSignatureFromCommitline (line : list Z) : outcome Signature :=
  let emailstart := bytes_IndexByte line 60 in
  name ← sliceBytes line 0 (emailstart - 1);
  let emailstop := bytes_IndexByte line 62 in
  email ← sliceBytes line (emailstart + 1) emailstop;
  rest ← sliceBytes line (emailstop + 2) (Z.of_nat (List.length line));
  let timestop := bytes_IndexByte rest 32 in
  timestring ← sliceBytes line (emailstop + 2) (emailstop + 2 + timestop);
  seconds ← strconv_ParseInt timestring;
  Ret {| Email := email; Name := name; When := seconds |}.

End Parse.

End Signatures.

(** ** Further samples *)

Module SimplifySamples.

(** A commit that leaves the tree of its only parent as it is. *)
Definition base : Commit := WalkSamples.commit 20 60 100 [].
Definition same : Commit := WalkSamples.commit 21 60 200 [20].
Definition sameRepository : sha1 -> outcome Commit := WalkSamples.repository [base; same].

End SimplifySamples.

Module AcceptedSamples.

(** A stand-in for the digest: the sum of the bytes modulo 256, 20 times. *)
Definition byteSum (bs : list Z) : list Z := replicate 20 (fold_left Z.add bs 0 mod 256).

(** A whole index of one object at offset 12 of its pack: the head, the
    offset, the 20 bytes of the digest of the pack and the digest of all
    that. *)
Definition idxBody : list Z := IdxSamples.idxHead ++ [0; 0; 0; 12] ++ replicate 20 0xCD.
Definition idx : list Z := idxBody ++ byteSum idxBody.
Definition fs : filesystem :=
  {[ "objects/pack/p.idx" := idx; "objects/pack/p.pack" := Samples.packHeader ]}.
Definition accepted : idxFile :=
  {| indexpath := "objects/pack/p.idx"; packpath := "objects/pack/p.pack";
     packversion := 2; offsetValues := {[ replicate 20 0x01 := 12 ]} |}.

End AcceptedSamples.

Module PackSamples.

(** A commit of 165 bytes at offset 12: type 1 and the low 4 bits of the
    size in the first byte, the rest of the size in the second. *)
Definition commitPack : list Z := Samples.packHeader ++ [0x95; 0x0A; 120; 156; 1; 2; 3].
Definition commitFs : filesystem := {[ "objects/pack/p.pack" := commitPack ]}.

(** An OffsetDelta object at offset 12 whose distance to its base is 0. *)
Definition selfDeltaPack : list Z := Samples.packHeader ++ [0x60; 0x00].
Definition selfDeltaFs : filesystem := {[ "objects/pack/p.pack" := selfDeltaPack ]}.

(** An object at offset 12 with the type tag 0. *)
Definition untaggedPack : list Z := Samples.packHeader ++ [0x05].
Definition untaggedFs : filesystem := {[ "objects/pack/p.pack" := untaggedPack ]}.

End PackSamples.

Module SignatureSamples.

(** A stand-in for [strconv.ParseInt] on strings of decimal digits. *)
Definition decimal (s : list Z) : outcome Z :=
  Ret (fold_left (fun acc d => acc * 10 + (d - 48)) s 0).

(** "A B <a@b>", and the timestamp "12" with the time zone "+0000". *)
Definition author : Signatures.Signature :=
  {| Signatures.Email := [97; 64; 98]; Signatures.Name := [65; 32; 66];
     Signatures.When := 0 |}.
Definition timestamp : list Z := [49; 50].
Definition zone : list Z := [43; 48; 48; 48; 48].

End SignatureSamples.

(** ** The commits taken at their visit *)

(** Of a sequence of visits, the commits that the callback takes when it
    is called on them in turn, the state of its closure going from one
    visit to the next. *)
Fixpoint takenAmong {St : Type} (cb : CommitWalkCallback St) (st : St)
    (cs : list Commit) : list Commit :=
  match cs with
  | [] => []
  | c :: cs' =>
      let '(st', r) := cb st c in
      (if takes r then [c] else []) ++ takenAmong cb st' cs'
  end.

(** * Properties *)

(** ** Bits and machine integers *)

Lemma land_bit7 (b : Z) : (Z.land b 0x80 >? 0) = Z.testbit b 7.
Proof.
  assert (H : Z.land b 0x80 = if Z.testbit b 7 then 0x80 else 0).
  { apply Z.bits_inj'. intros n Hn. rewrite Z.land_spec.
    change 0x80 with (2 ^ 7). rewrite Z.pow2_bits_eqb by lia.
    destruct (Z.eqb_spec 7 n) as [<- | Hne].
    - destruct (Z.testbit b 7) eqn:E; reflexivity.
    - rewrite andb_false_r. destruct (Z.testbit b 7) eqn:E.
      + now rewrite Z.pow2_bits_false by lia.
      + now rewrite Z.bits_0. }
  rewrite H. now destruct (Z.testbit b 7).
Qed.

Lemma toInt64_small (z : Z) : - 2 ^ 63 <= z < 2 ^ 63 -> toInt64 z = z.
Proof. intros H. unfold toInt64. rewrite Z.mod_small; lia. Qed.

Lemma toUint64_small (z : Z) : 0 <= z < 2 ^ 64 -> toUint64 z = z.
Proof. intros H. unfold toUint64. apply Z.mod_small. lia. Qed.

Lemma index_Ret {A : Type} (buf : list A) (i : nat) (x : A) :
  index buf i = Ret x <-> buf !! i = Some x.
Proof. unfold index. destruct (buf !! i); split; intros H; congruence. Qed.

Lemma index_cases {A : Type} (buf : list A) (i : nat) :
  (exists x, buf !! i = Some x /\ index buf i = Ret x)
  \/ (buf !! i = None /\ index buf i = Panic "index out of range").
Proof. unfold index. destruct (buf !! i); eauto. Qed.

Arguments index : simpl never.

(** Case analysis on the first [index] of the goal. *)
Ltac case_index buf i x H :=
  destruct (index_cases buf i) as [(x & H & ->) | (H & ->)];
  cbn [mbind outcome_bind].

(** ** The length of an object in a pack *)

Lemma shift_lookup (i : nat) : (i < 10)%nat -> is_Some (shift !! i).
Proof. intros H. apply lookup_lt_is_Some. simpl. lia. Qed.

Lemma shift_lookup_ge (i : nat) : (10 <= i)%nat -> shift !! i = None.
Proof. intros H. apply lookup_ge_None. simpl. lia. Qed.

(** The loop returns or panics: the fuel [10 - advance] is enough. *)
Lemma readLenLoop_ends (fuel : nat) (buf : list Z) (length : Z) (advance : nat) :
  (advance < 10)%nat -> (10 <= fuel + advance)%nat ->
  (exists r, readLenLoop fuel buf length advance = Ret r)
  \/ readLenLoop fuel buf length advance = Panic "index out of range".
Proof.
  revert length advance. induction fuel as [|fuel IH]; intros length advance Ha Hf; [lia|].
  cbn [readLenLoop]. case_index buf advance b Hb; [|by right].
  destruct (Z.land b 128 >? 0); [|by eauto].
  case_index buf (S advance) b' Hb'; [|by right].
  case_index shift (S advance) s Hs; [|by right].
  apply IH; [|lia].
  destruct (decide (S advance < 10)%nat) as [|Hge]; [done|].
  rewrite shift_lookup_ge in Hs by lia. done.
Qed.

(** The loop returns exactly when a byte with bit 7 clear is found before
    the table ends. *)
Lemma readLenLoop_Ret_iff (fuel : nat) (buf : list Z) (length : Z) (advance : nat) :
  (advance < 10)%nat -> (10 <= fuel + advance)%nat ->
  (exists r, readLenLoop fuel buf length advance = Ret r)
  <-> exists (k : nat) (b : Z),
        (advance <= k < 10)%nat /\ buf !! k = Some b /\ Z.testbit b 7 = false.
Proof.
  revert length advance. induction fuel as [|fuel IH]; intros length advance Ha Hf; [lia|].
  cbn [readLenLoop]. case_index buf advance b Hb.
  - rewrite land_bit7. destruct (Z.testbit b 7) eqn:Hbit.
    + case_index buf (S advance) b' Hb'.
      * case_index shift (S advance) s Hs.
        -- assert (S advance < 10)%nat as Hlt.
           { destruct (decide (S advance < 10)%nat) as [|Hge]; [done|].
             rewrite shift_lookup_ge in Hs by lia. done. }
           rewrite IH by lia. split.
           ++ intros (k & c & Hk & Hc & Hc7). exists k, c. split; [lia|done].
           ++ intros (k & c & Hk & Hc & Hc7). exists k, c. split; [|done].
              destruct (decide (k = advance)) as [->|]; [congruence|lia].
        -- split; [intros [r Hr]; done|].
           intros (k & c & Hk & Hc & Hc7).
           destruct (decide (k = advance)) as [->|]; [congruence|].
           destruct (shift_lookup (S advance)) as [s Hs']; [lia|congruence].
      * split; [intros [r Hr]; done|].
        intros (k & c & Hk & Hc & Hc7).
        destruct (decide (k = advance)) as [->|]; [congruence|].
        assert (S advance < List.length buf)%nat.
        { apply lookup_lt_Some in Hc. lia. }
        apply lookup_ge_None in Hb'. lia.
    + split; [|by eauto]. intros _. exists advance, b. split; [lia|done].
  - split; [intros [r Hr]; done|].
    intros (k & c & Hk & Hc & Hc7).
    apply lookup_lt_Some in Hc. apply lookup_ge_None in Hb. lia.
Qed.

Lemma readLenInPackFile_ends (buf : list Z) :
  (exists r, readLenInPackFile buf = Ret r)
  \/ readLenInPackFile buf = Panic "index out of range".
Proof.
  unfold readLenInPackFile. case_index buf 0%nat b0 Hb0; [|by right].
  apply readLenLoop_ends; simpl; lia.
Qed.

Lemma readLenInPackFile_Ret_iff (buf : list Z) :
  (exists r, readLenInPackFile buf = Ret r)
  <-> exists (k : nat) (b : Z),
        (k < 10)%nat /\ buf !! k = Some b /\ Z.testbit b 7 = false.
Proof.
  unfold readLenInPackFile. case_index buf 0%nat b0 Hb0.
  - rewrite readLenLoop_Ret_iff by (simpl; lia). split.
    + intros (k & b & Hk & Hb & Hb7). exists k, b. split; [lia|done].
    + intros (k & b & Hk & Hb & Hb7). exists k, b. split; [lia|done].
  - split; [intros [r Hr]; done|].
    intros (k & b & Hk & Hb & Hb7).
    apply lookup_lt_Some in Hb. apply lookup_ge_None in Hb0. lia.
Qed.

(** ** Reading the head of an object from a pack *)

(** What a [Read] puts in the buffer: the bytes of the file from the
    position on. *)
Lemma file_Read_lookup (content : list Z) (pos : Z) (size : nat) (b0 : Z) :
  (0 < size)%nat ->
  content !! Z.to_nat pos = Some b0 ->
  exists (buf : list Z) (n : nat),
    file_Read content pos size = Ret (buf, n) /\ n <> 0%nat
    /\ List.length buf = size
    /\ forall (k : nat) (b : Z),
         (k < size)%nat -> content !! (Z.to_nat pos + k)%nat = Some b ->
         buf !! k = Some b.
Proof.
  intros Hsize Hb0. unfold file_Read.
  set (data := take size (drop (Z.to_nat pos) content)).
  assert (Hdata : forall (k : nat) (b : Z),
    (k < size)%nat -> content !! (Z.to_nat pos + k)%nat = Some b -> data !! k = Some b).
  { intros k b Hk Hb. unfold data. rewrite lookup_take_lt by done.
    by rewrite lookup_drop. }
  assert (Hlen : (List.length data <= size)%nat).
  { unfold data. rewrite length_take. lia. }
  assert (H0 : data !! 0%nat = Some b0).
  { apply Hdata; [done|]. by rewrite Nat.add_0_r. }
  destruct data as [|d data'] eqn:Hd; [done|].
  eexists _, _. split; [done|]. split; [done|]. split.
  - rewrite length_app, length_replicate. lia.
  - intros k b Hk Hb. pose proof (Hdata k b Hk Hb) as Hkb.
    rewrite lookup_app_l; [done|]. by apply lookup_lt_Some in Hkb.
Qed.

(** C10. [readLenInPackFile] ends, either with a result or in a panic for
    an index out of range (of the buffer or of the table of 10 shifts); it
    ends with a result exactly when one of the first 10 bytes of the buffer,
    within its length, has bit 7 clear.  [readObjectBytes] does not check
    this before the call: a pack whose 10 bytes at the offset all have bit 7
    set makes it panic. *)
Theorem readLenInPackFile_in_range_iff :
  (forall buf : list Z,
     ((exists r, readLenInPackFile buf = Ret r)
      \/ readLenInPackFile buf = Panic "index out of range")
     /\ ((exists r, readLenInPackFile buf = Ret r)
         <-> exists (k : nat) (b : Z),
               (k < 10)%nat /\ buf !! k = Some b /\ Z.testbit b 7 = false))
  /\ (forall readerDecompressed readerLittleEndianBase128Number readerApplyDelta
        (fs : filesystem) (fuel : nat) (path : string)
        (indexfiles : gmap string idxFile) (offset : Z) (sizeonly : bool)
        (content : list Z),
        fs !! path = Some content ->
        0 <= offset < 2 ^ 63 ->
        (forall k : nat, (k < 10)%nat ->
           exists b, content !! (Z.to_nat offset + k)%nat = Some b
                     /\ Z.testbit b 7 = true) ->
        readObjectBytes readerDecompressed readerLittleEndianBase128Number
          readerApplyDelta fs (S fuel) path indexfiles offset sizeonly
        = Panic "index out of range").
Proof.
  split.
  - intros buf. split; [apply readLenInPackFile_ends | apply readLenInPackFile_Ret_iff].
  - intros rd rn ra fs fuel path indexfiles offset sizeonly content Hfs Hoff Hbits.
    cbn [readObjectBytes]. unfold os_Open. rewrite Hfs. cbn [mbind outcome_bind].
    rewrite toInt64_small by lia. unfold file_Seek.
    destruct (Z.ltb_spec offset 0) as [|_]; [lia|]. cbn [mbind outcome_bind].
    destruct (Hbits 0%nat) as (b0 & Hb0 & Hb07); [lia|]. rewrite Nat.add_0_r in Hb0.
    destruct (file_Read_lookup content offset 1024 b0) as (buf & n & -> & Hn & Hlen & Hbuf);
      [lia|done|].
    cbn [mbind outcome_bind]. destruct (Nat.eqb_spec n 0) as [|_]; [done|].
    case_index buf 0%nat c0 Hc0.
    + destruct (readLenInPackFile_ends buf) as [[r Hr] | ->]; [|done].
      exfalso. assert (Hex : exists r, readLenInPackFile buf = Ret r) by eauto.
      apply readLenInPackFile_Ret_iff in Hex as (k & b & Hk & Hb & Hb7).
      destruct (Hbits k Hk) as (c & Hc & Hc7).
      apply Hbuf in Hc; [|lia]. congruence.
    + done.
Qed.

(** ** The base of an OffsetDelta object *)

Lemma offsetDeltaLoop_run (buf rest : list Z) :
  forall (first num : Z) (pos fuel : nat),
    buf !! pos = Some first ->
    (forall (i : nat) (b : Z), rest !! i = Some b -> buf !! (S pos + i)%nat = Some b) ->
    continued first rest = true ->
    (List.length rest <= fuel)%nat ->
    offsetDeltaLoop fuel buf num pos
    = Ret (fold_left offsetDeltaStep rest num, (pos + List.length rest)%nat).
Proof.
  induction rest as [|b rest IH]; intros first num pos fuel Hfirst Hrest Hcont Hfuel.
  - cbn [continued] in Hcont. apply negb_true_iff in Hcont.
    destruct fuel; cbn [offsetDeltaLoop]; rewrite (proj2 (index_Ret _ _ _) Hfirst);
      cbn [mbind outcome_bind]; rewrite land_bit7, Hcont; cbn [fold_left List.length];
      by rewrite Nat.add_0_r.
  - cbn [continued] in Hcont. apply andb_true_iff in Hcont as [Hbit Hcont].
    destruct fuel as [|fuel]; [simpl in Hfuel; lia|].
    cbn [offsetDeltaLoop]. rewrite (proj2 (index_Ret _ _ _) Hfirst).
    cbn [mbind outcome_bind]. rewrite land_bit7, Hbit.
    assert (Hb : buf !! S pos = Some b).
    { specialize (Hrest 0%nat b eq_refl). by rewrite Nat.add_0_r in Hrest. }
    rewrite (proj2 (index_Ret _ _ _) Hb). cbn [mbind outcome_bind].
    rewrite (IH b _ (S pos) fuel Hb); [| |done|simpl in Hfuel; lia].
    + cbn [fold_left List.length]. do 2 f_equal. lia.
    + intros i c Hc. specialize (Hrest (S i) c Hc).
      by replace (S (S pos) + i)%nat with (S pos + S i)%nat by lia.
Qed.

Lemma file_Seek_nonneg (offset : Z) : 0 <= offset -> file_Seek offset = Ret offset.
Proof. intros H. unfold file_Seek. by destruct (Z.ltb_spec offset 0); [lia|]. Qed.

Lemma file_Read_nonzero (content : list Z) (pos : Z) (size : nat)
    (buf : list Z) (n : nat) :
  file_Read content pos size = Ret (buf, n) -> n <> 0%nat.
Proof.
  unfold file_Read. destruct (take size (drop (Z.to_nat pos) content)); [done|].
  intros [= <- <-]. done.
Qed.

Lemma deltaBase_offset (indexfiles : gmap string idxFile) (path : string)
    (buf : list Z) (offsetInt : Z) (pos : nat) (first : Z) (rest : list Z) :
  buf !! pos = Some first ->
  (forall (i : nat) (b : Z), rest !! i = Some b -> buf !! (S pos + i)%nat = Some b) ->
  continued first rest = true ->
  deltaBase indexfiles path buf 0x60 offsetInt pos
  = Ret (toUint64 (offsetInt - offsetDeltaNum first rest),
         S (pos + List.length rest)).
Proof.
  intros Hfirst Hrest Hcont. unfold deltaBase.
  change (96 =? 96) with true. cbn match.
  rewrite (proj2 (index_Ret _ _ _) Hfirst). cbn [mbind outcome_bind].
  rewrite (offsetDeltaLoop_run buf rest first _ pos _ Hfirst Hrest Hcont).
  - done.
  - destruct rest as [|b rest'] using rev_ind; [simpl; lia|].
    rewrite length_app. simpl.
    assert (Hlast : (rest' ++ [b]) !! List.length rest' = Some b).
    { rewrite lookup_app_r by lia. by rewrite Nat.sub_diag. }
    apply Hrest, lookup_lt_Some in Hlast. lia.
Qed.

(** ** A RefDelta object whose base the index does not know *)

Lemma readLenLoop_advance (fuel : nat) (buf : list Z) :
  forall (length : Z) (advance : nat) (l : Z) (p : nat),
    (advance < 10)%nat ->
    readLenLoop fuel buf length advance = Ret (l, p) -> (p <= 10)%nat.
Proof.
  induction fuel as [|fuel IH]; intros length advance l p Ha;
    cbn [readLenLoop]; case_index buf advance b Hb; try done.
  - destruct (Z.land b 128 >? 0); [done|]. intros [= <- <-]. lia.
  - destruct (Z.land b 128 >? 0); [|intros [= <- <-]; lia].
    case_index buf (S advance) b' Hb'; [|done].
    case_index shift (S advance) s Hs; [|done].
    apply IH. destruct (decide (S advance < 10)%nat) as [|Hge]; [done|].
    rewrite shift_lookup_ge in Hs by lia. done.
Qed.

Lemma readLenInPackFile_advance (buf : list Z) (l : Z) (p : nat) :
  readLenInPackFile buf = Ret (l, p) -> (p <= 10)%nat.
Proof.
  unfold readLenInPackFile. case_index buf 0%nat b0 Hb0; [|done].
  apply readLenLoop_advance. lia.
Qed.

Lemma file_Read_length (content : list Z) (pos : Z) (size : nat)
    (buf : list Z) (n : nat) :
  file_Read content pos size = Ret (buf, n) -> List.length buf = size.
Proof.
  unfold file_Read.
  pose proof (length_take (drop (Z.to_nat pos) content) size) as Hlen.
  destruct (take size (drop (Z.to_nat pos) content)) as [|d data]; [done|].
  intros [= <- <-]. cbn [List.length app] in *.
  rewrite length_app, length_replicate. lia.
Qed.

(** Reaching a RefDelta object whose base id the index of the pack does
    not hold ends the process. *)
Lemma readObjectBytes_ref_delta_missing
    readerDecompressed readerLittleEndianBase128Number readerApplyDelta
    (fs : filesystem) (fuel : nat) (path idxpath : string)
    (indexfiles : gmap string idxFile) (offset : Z) (sizeonly : bool)
    (file buf : list Z) (n : nat) (b0 l : Z) (p : nat) (f : idxFile) :
  fs !! path = Some file ->
  0 <= offset < 2 ^ 63 ->
  file_Read file offset 1024 = Ret (buf, n) ->
  buf !! 0%nat = Some b0 ->
  Z.land b0 0x70 = 0x70 ->
  readLenInPackFile buf = Ret (l, p) ->
  replaceSuffix path 4 "idx" = Ret idxpath ->
  indexfiles !! idxpath = Some f ->
  offsetValues f !! take 20 (drop p buf) = None ->
  readObjectBytes readerDecompressed readerLittleEndianBase128Number
    readerApplyDelta fs (S fuel) path indexfiles offset sizeonly
  = Fatal "not implemented yet".
Proof.
  intros Hfs Hoff Hread Hb0 Hot Hlen Hidx Hf Hid.
  pose proof (readLenInPackFile_advance _ _ _ Hlen) as Hp.
  pose proof (file_Read_length _ _ _ _ _ Hread) as Hbuf.
  cbn [readObjectBytes]. unfold os_Open. rewrite Hfs. cbn [mbind outcome_bind].
  rewrite toInt64_small by lia. rewrite (file_Seek_nonneg offset) by lia.
  cbn [mbind outcome_bind]. rewrite Hread. cbn [mbind outcome_bind].
  destruct (Nat.eqb_spec n 0) as [Hn|_]; [by apply file_Read_nonzero in Hread|].
  rewrite (proj2 (index_Ret _ _ _) Hb0). cbn [mbind outcome_bind].
  rewrite Hlen. cbn [mbind outcome_bind]. rewrite Hot.
  change (isPlainObject 112) with false. cbn match.
  unfold deltaBase. change (112 =? 96) with false. change (112 =? 112) with true.
  cbn match. unfold slice.
  destruct (Nat.ltb_spec (List.length buf) (p + 20)) as [|_]; [lia|].
  cbn [mbind outcome_bind]. replace (p + 20 - p)%nat with 20%nat by lia.
  unfold NewId. rewrite length_take, length_drop.
  destruct (Nat.eqb_spec (20 `min` (List.length buf - p)) 20) as [_|]; [|lia].
  cbn [mbind outcome_bind]. rewrite Hidx. cbn [mbind outcome_bind].
  rewrite Hf. cbv beta iota. rewrite Hid. done.
Qed.

(** C3. Reading the RefDelta object of the sample pack, whose base id the
    index of the pack does not hold, does not return a lookup error: the
    code ends the process with [log.Fatal] before the statements that set
    and return the error. *)
Theorem readObjectBytes_ref_delta_missing_base_is_fatal :
  forall readerDecompressed readerLittleEndianBase128Number readerApplyDelta
    (sizeonly : bool),
    Samples.refDeltaIndex !! "objects/pack/p.idx" ≫= (fun f => offsetValues f !! Samples.missingBase)
    = None
    /\ readObjectBytes readerDecompressed readerLittleEndianBase128Number
         readerApplyDelta Samples.refDeltaFs 1 "objects/pack/p.pack"
         Samples.refDeltaIndex 12 sizeonly
       = Fatal "not implemented yet".
Proof.
  intros rd rn ra sizeonly. split; [by vm_compute|].
  eapply readObjectBytes_ref_delta_missing with (b0 := 0x75).
  - by vm_compute.
  - lia.
  - by vm_compute.
  - by vm_compute.
  - by vm_compute.
  - by vm_compute.
  - by vm_compute.
  - by vm_compute.
  - by vm_compute.
Qed.

(** ** A short read in the offset tables of an index *)

(** C4. On an index file that ends inside the table of 32-bit offsets, and
    on one that ends inside the table of 64-bit offsets, [readIdxFile]
    returns a nil index with a nil error: [if err != binary.Read(...)]
    compares the error of the read with the nil [err] and returns [err]. *)
Theorem readIdxFile_short_offsets_nil_error :
  forall sha1sum : list Z -> list Z,
    readIdxFile sha1sum IdxSamples.cutInOffsets "objects/pack/p.idx" = Ret None
    /\ readIdxFile sha1sum IdxSamples.cutInLargeOffsets "objects/pack/p.idx" = Ret None.
Proof. intros sha1sum. split; by vm_compute. Qed.

(** On an index file that ends inside the object ids, the error is
    returned, as in every step before the offset tables. *)
Lemma readIdxFile_short_ids_error (sha1sum : list Z -> list Z) :
  readIdxFile sha1sum {[ "objects/pack/p.idx" := take 1040 IdxSamples.idxHead ]}
    "objects/pack/p.idx"
  = Err (errors_New "Too short for sha1").
Proof. by vm_compute. Qed.

(** ** The path comparator *)

(** C9. The comparator of [makePathComparator] returns true exactly when
    both lookups succeed with equal entry ids or both fail with
    [ErrNotExist]; when a lookup fails with another error it returns false.
    Its result is a boolean: the error of a lookup does not reach the
    walker. *)
Theorem makePathComparator_true_iff
    (GetTreeEntryByPath : Commit -> string -> TreeEntry + error)
    (path : string) (c q : Commit) :
  (makePathComparator GetTreeEntryByPath path c q = true
   <-> (exists centry pentry : TreeEntry,
          GetTreeEntryByPath c path = inl centry
          /\ GetTreeEntryByPath q path = inl pentry
          /\ entryId centry = entryId pentry)
       \/ (GetTreeEntryByPath c path = inr ErrNotExist
           /\ GetTreeEntryByPath q path = inr ErrNotExist))
  /\ (forall e : error,
        e <> ErrNotExist ->
        GetTreeEntryByPath c path = inr e \/ GetTreeEntryByPath q path = inr e ->
        makePathComparator GetTreeEntryByPath path c q = false).
Proof.
  unfold makePathComparator.
  destruct (GetTreeEntryByPath c path) as [centry|cerr] eqn:Hc;
    destruct (GetTreeEntryByPath q path) as [pentry|perr] eqn:Hq; simpl.
  - split.
    + rewrite bool_decide_eq_true. split.
      * intros Heq. left. by exists centry, pentry.
      * intros [(ce & pe & Hce & Hpe & Heq) | [Hce _]]; congruence.
    + intros e He [[=] | [=]].
  - split; [|done]. split; [done|].
    intros [(ce & pe & _ & Hpe & _) | [Hce _]]; congruence.
  - rewrite andb_false_r. split; [|done]. split; [done|].
    intros [(ce & pe & Hce & _) | [_ Hpe]]; congruence.
  - split.
    + rewrite andb_true_iff, !bool_decide_eq_true. split.
      * intros [Hce Hpe]. right. split; congruence.
      * intros [(ce & pe & Hce & _) | [Hce Hpe]]; [congruence|]. split; congruence.
    + intros e He [[= ->] | [= ->]].
      * rewrite (bool_decide_eq_false_2 (Some e = Some ErrNotExist)); [done|congruence].
      * rewrite (bool_decide_eq_false_2 (Some e = Some ErrNotExist)), andb_false_r;
          [done|congruence].
Qed.

(** ** The walker: what is seen, and the results *)

Lemma bind_Ret_inv {A B : Type} (m : outcome A) (k : A -> outcome B) (b : B) :
  m ≫= k = Ret b -> exists a, m = Ret a /\ k a = Ret b.
Proof. destruct m; try done. intros H. eauto. Qed.

Section WalkerFacts.

Variable getCommit : sha1 -> outcome Commit.

Lemma skipEqualCommits_seen (eq : CommitComparator) (fuel : nat) :
  forall (commit : Commit) (seen seen' : gset sha1) (r : option Commit),
    skipEqualCommits getCommit fuel commit eq seen = Ret (r, seen') ->
    seen ⊆ seen' /\ forall c, r = Some c -> Id c ∉ seen.
Proof.
  induction fuel as [|fuel IH]; intros commit seen seen' r; [done|].
  cbn [skipEqualCommits]. destruct (decide (Id commit ∈ seen)) as [Hin|Hnotin].
  { intros [= <- <-]. split; [done|]. intros c [=]. }
  destruct (List.length (parents commit) =? 0)%nat.
  { intros [= <- <-]. split; [done|]. by intros c [= <-]. }
  intros (found & Hfound & Hrest)%bind_Ret_inv.
  destruct found as [parent|].
  - apply IH in Hrest as [Hsub Hr]. split; [set_solver|].
    intros c Hc. specialize (Hr c Hc). set_solver.
  - injection Hrest as <- <-. split; [done|]. by intros c [= <-].
Qed.

Lemma simplifyLoop_seen (eq : CommitComparator) (fuel : nat) (roots : list Commit) :
  forall (seen seen' : gset sha1) (newRoots rs : list Commit),
    simplifyLoop getCommit fuel roots eq seen newRoots = Ret (rs, seen') ->
    seen ⊆ seen' /\ forall c, c ∈ rs -> c ∈ newRoots \/ Id c ∉ seen.
Proof.
  induction roots as [|commit roots IH]; intros seen seen' newRoots rs.
  { cbn [simplifyLoop]. intros [= <- <-]. split; [done|]. by left. }
  cbn [simplifyLoop]. intros ([r s1] & Hskip & Hrest)%bind_Ret_inv.
  apply skipEqualCommits_seen in Hskip as [Hsub Hr].
  destruct r as [c'|]; apply IH in Hrest as [Hsub' Hrs].
  - split; [set_solver|]. intros c Hc.
    destruct (Hrs c Hc) as [[Hin | ->%list_elem_of_singleton]%elem_of_app | Hnotin].
    + by left.
    + right. by apply Hr.
    + right. set_solver.
  - split; [set_solver|]. intros c Hc.
    destruct (Hrs c Hc) as [Hin | Hnotin]; [by left|]. right. set_solver.
Qed.

Lemma simplifyRoots_unseen (eq : CommitComparator) (fuel : nat)
    (roots rs : list Commit) (seen seen' : gset sha1) :
  simplifyRoots getCommit fuel roots eq seen = Ret (rs, seen') ->
  seen ⊆ seen' /\ forall c, c ∈ rs -> Id c ∉ seen.
Proof.
  intros [Hsub Hrs]%simplifyLoop_seen. split; [done|].
  intros c Hc. destruct (Hrs c Hc) as [Hin | Hnotin]; [|done].
  by apply elem_of_nil in Hin.
Qed.

End WalkerFacts.

Lemma newestLoop_elem (rest : list Commit) :
  forall (idx : nat) (target : Commit) (targetIdx : nat),
    (newestLoop rest idx target targetIdx).1 = target
    \/ (newestLoop rest idx target targetIdx).1 ∈ rest.
Proof.
  induction rest as [|current rest IH]; intros idx target targetIdx; [by left|].
  cbn [newestLoop]. destruct (When current >? When target).
  - right. destruct (IH (S idx) current idx) as [-> | Hin]; [left | by right].
  - destruct (IH (S idx) target targetIdx) as [-> | Hin]; [by left | right; by right].
Qed.

Lemma extractNewestCommit_elem (roots rest : list Commit) (next : Commit) :
  extractNewestCommit roots = Ret (next, rest) -> next ∈ roots.
Proof.
  destruct roots as [|c [|c' tl]]; [done| |].
  - intros [= <- <-]. left.
  - unfold extractNewestCommit.
    pose proof (newestLoop_elem (c' :: tl) 0 c 0) as Helem.
    destruct (newestLoop (c' :: tl) 0 c 0) as [target targetIdx].
    cbn [fst] in Helem. intros [= <- <-]. destruct Helem as [-> | Hin]; [left | by right].
Qed.

Lemma mergeLoop_seen (eq : CommitComparator) (base merging : list Commit) :
  forall (seen : gset sha1) (newRoots : list Commit),
    seen ⊆ (mergeLoop base merging eq seen newRoots).2.
Proof.
  induction merging as [|needle merging IH]; intros seen newRoots; [done|].
  cbn [mergeLoop]. destruct (foundIn eq needle base).
  - etrans; [|apply IH]. set_solver.
  - apply IH.
Qed.

(** ** The walker yields a commit at most once *)

Section WalkerUnique.

Variable getCommit : sha1 -> outcome Commit.
Context {St : Type}.
Variable callback : CommitWalkCallback St.
Variable eq : CommitComparator.

Lemma resultsSeen_take (results : list Commit) (seen seen' : gset sha1) (next : Commit) :
  resultsSeen results seen -> seen ⊆ seen' -> Id next ∉ seen ->
  resultsSeen (results ++ [next]) ({[Id next]} ∪ seen').
Proof.
  intros [Hnodup Hseen] Hsub Hnext. split.
  - rewrite fmap_app. apply NoDup_app. split; [done|]. split.
    + intros i Hi [->|[]%elem_of_nil]%elem_of_cons.
      apply list_elem_of_fmap in Hi as (c & Hc & Hin). apply Hnext.
      rewrite Hc. by apply Hseen.
    + apply NoDup_singleton.
  - intros c [Hin | ->%list_elem_of_singleton]%elem_of_app; [|set_solver].
    apply Hseen in Hin. set_solver.
Qed.

Lemma resultsSeen_mono (results : list Commit) (seen seen' : gset sha1) :
  resultsSeen results seen -> seen ⊆ seen' -> resultsSeen results seen'.
Proof. intros [Hnodup Hseen] Hsub. split; [done|]. intros c Hc. set_solver. Qed.

Lemma applyAction_resultsSeen (results0 : list Commit) (seen0 s1 : gset sha1)
    (rest : list Commit) (next : Commit) (st : St) (action : Z) :
  resultsSeen results0 seen0 -> seen0 ⊆ s1 -> Id next ∉ seen0 ->
  forall r, applyAction getCommit eq results0 s1 rest next st action = Ret r ->
    match r with
    | inl w' => resultsSeen (results w') (seen w')
    | inr (R, _) => NoDup (Id <$> R)
    end.
Proof.
  intros Hinv Hsub Hnext r. unfold applyAction.
  set (taken := if Z.land action HWTakeCommit >? 0
                then (results0 ++ [next], {[Id next]} ∪ s1)
                else (results0, s1)).
  assert (Htaken : resultsSeen taken.1 taken.2).
  { unfold taken. destruct (Z.land action HWTakeCommit >? 0); cbn [fst snd].
    - by apply (resultsSeen_take _ seen0).
    - by apply (resultsSeen_mono _ seen0). }
  destruct taken as [results1 s2]. cbn [fst snd] in Htaken.
  intros ([roots2 s3] & Hmerged & Hrest)%bind_Ret_inv.
  assert (Hs3 : s2 ⊆ s3).
  { destruct (Z.land action HWFollowParents >? 0).
    - apply bind_Ret_inv in Hmerged as (pars & _ & [= Hm]).
      pose proof (mergeLoop_seen eq pars rest s2 pars) as Hsub'.
      unfold mergeRoots in Hm. by rewrite Hm in Hsub'.
    - by injection Hmerged as _ <-. }
  destruct (Z.land action HWStop >? 0); injection Hrest as <-.
  - apply Htaken.
  - cbn [results seen]. by apply (resultsSeen_mono _ s2).
Qed.

Lemma walkIteration_resultsSeen (fuel : nat) (w : walker St) :
  resultsSeen (results w) (seen w) ->
  forall r, walkIteration getCommit callback eq fuel w = Ret r ->
    match r with
    | inl w' => resultsSeen (results w') (seen w')
    | inr (R, _) => NoDup (Id <$> R)
    end.
Proof.
  intros Hinv r. unfold walkIteration.
  destruct (roots w) as [|c0 tl] eqn:Hroots.
  { intros [= <-]. apply Hinv. }
  rewrite <- Hroots. clear c0 tl Hroots.
  intros ([rs s1] & Hsimplify & Hrest)%bind_Ret_inv.
  apply simplifyRoots_unseen in Hsimplify as [Hsub Hunseen].
  apply bind_Ret_inv in Hrest as ([next rest] & Hextract & Hrest).
  apply extractNewestCommit_elem, Hunseen in Hextract.
  destruct (callback (closure w) next) as [st [action [e|]]]; [done|].
  by apply (applyAction_resultsSeen _ (seen w)) in Hrest.
Qed.

Lemma walkLoop_unique (fuel : nat) :
  forall (w : walker St) (R : list Commit) (st : St),
    resultsSeen (results w) (seen w) ->
    walkLoop getCommit callback eq fuel w = Ret (R, st) ->
    NoDup (Id <$> R).
Proof.
  induction fuel as [|fuel IH]; intros w R st Hinv; [done|].
  cbn [walkLoop]. intros (r & Hiter & Hrest)%bind_Ret_inv.
  apply (walkIteration_resultsSeen _ _ Hinv) in Hiter.
  destruct r as [w' | [R' st']].
  - by apply (IH w' R st).
  - by injection Hrest as <- <-.
Qed.

End WalkerUnique.

(** C5. Whatever the start commits, the callback and the comparator, the
    results that [walkHistoryLoop] returns hold no commit id twice: there
    are as many results as there are distinct ids among them. *)
Theorem walkHistoryLoop_results_unique
    (getCommit : sha1 -> outcome Commit) {St : Type}
    (callback : CommitWalkCallback St) (eq : CommitComparator)
    (fuel : nat) (roots : list Commit) (st st' : St) (R : list Commit) :
  walkHistoryLoop getCommit callback eq fuel roots st = Ret (R, st') ->
  NoDup (Id <$> R)
  /\ List.length R = size (list_to_set (Id <$> R) : gset sha1).
Proof.
  intros Hwalk.
  assert (Hnodup : NoDup (Id <$> R)).
  { eapply walkLoop_unique; [|exact Hwalk]. split; [apply NoDup_nil_2|].
    intros c []%elem_of_nil. }
  split; [done|]. by rewrite size_list_to_set, length_fmap.
Qed.

(** ** The newest commit of the frontier *)

(** What the loop of [extractNewestCommit] finds: the first newest commit
    among the target it starts from and the rest, and for [targetIdx] the
    index of that commit in [roots[1:]]. *)
Lemma newestLoop_spec (rest : list Commit) :
  forall (idx : nat) (target : Commit) (targetIdx : nat) (t : Commit) (ti : nat),
    newestLoop rest idx target targetIdx = (t, ti) ->
    (forall c, c ∈ rest -> When c <= When t)
    /\ When target <= When t
    /\ (t = target /\ ti = targetIdx
        \/ exists j : nat,
             rest !! j = Some t /\ ti = (idx + j)%nat /\ When target < When t
             /\ forall (i : nat) (c : Commit),
                  (i < j)%nat -> rest !! i = Some c -> When c < When t).
Proof.
  induction rest as [|current rest IH]; intros idx target targetIdx t ti.
  { intros [= <- <-]. split; [by intros c ?%elem_of_nil|]. split; [lia|by left]. }
  cbn [newestLoop]. destruct (Z.gtb_spec (When current) (When target)) as [Hgt|Hle];
    intros (Hall & Hcur & Hcase)%IH.
  - split; [|split; [lia|right]].
    + intros c [-> | Hc]%elem_of_cons; [done|by apply Hall].
    + destruct Hcase as [[-> ->] | (j & Hj & -> & Hlt & Hbefore)].
      * exists 0%nat. split; [done|]. split; [lia|]. split; [lia|]. intros i c Hi. lia.
      * exists (S j). split; [done|]. split; [lia|]. split; [lia|].
        intros [|i] c Hi; [intros [= <-]; lia|]. apply Hbefore. lia.
  - split; [|split; [lia|]].
    + intros c [-> | Hc]%elem_of_cons; [lia|by apply Hall].
    + destruct Hcase as [[-> ->] | (j & Hj & -> & Hlt & Hbefore)]; [by left | right].
      exists (S j). split; [done|]. split; [lia|]. split; [lia|].
      intros [|i] c Hi; [intros [= <-]; lia|]. apply Hbefore. lia.
Qed.

(** [extractNewestCommit] returns the first newest commit of the frontier,
    at index [k]; from a frontier of two commits or more it removes the
    element at index [k - 1], which is the target only when [k] is 0. *)
Lemma extractNewestCommit_spec (roots rest : list Commit) (next : Commit) :
  extractNewestCommit roots = Ret (next, rest) ->
  exists k : nat,
    roots !! k = Some next
    /\ (forall c, c ∈ roots -> When c <= When next)
    /\ (forall (i : nat) (c : Commit),
          (i < k)%nat -> roots !! i = Some c -> When c < When next)
    /\ rest = if (List.length roots =? 1)%nat then []
              else take (Nat.pred k) roots ++ drop (S (Nat.pred k)) roots.
Proof.
  destruct roots as [|c [|c' tl]]; [done| |].
  - intros [= <- <-]. exists 0%nat. split; [done|]. split.
    + by intros d ->%list_elem_of_singleton.
    + split; [intros i d Hi; lia | done].
  - unfold extractNewestCommit.
    destruct (newestLoop (c' :: tl) 0 c 0) as [t ti] eqn:Hloop.
    apply newestLoop_spec in Hloop as (Hall & Hc & Hcase). intros [= <- <-].
    destruct Hcase as [[-> ->] | (j & Hj & -> & Hlt & Hbefore)].
    + exists 0%nat. split; [done|]. split.
      * intros d [-> | Hd]%elem_of_cons; [done|by apply Hall].
      * split; [intros i d Hi; lia | done].
    + exists (S j). split; [done|]. split.
      * intros d [-> | Hd]%elem_of_cons; [lia|by apply Hall].
      * split; [|done]. intros [|i] d Hi; [intros [= <-]; lia|]. apply Hbefore. lia.
Qed.

(** C1. [extractNewestCommit] hands out the first newest commit, yet removes
    another element: on a frontier of an older and a newer commit it returns
    the newer one and a frontier that still holds it and has lost the older
    one; with three elements, the last being the newest, it removes the
    middle one.  The loop counts [idx] from 0 in [roots[1:]], so [targetIdx]
    is one less than the index of the target.  A walk from a merge of the
    two roots therefore visits the newer one, keeps it, drops it as seen at
    the next iteration and panics on the empty frontier, without a visit of
    the older one. *)
Theorem extractNewestCommit_removes_neighbour :
  extractNewestCommit [WalkSamples.older; WalkSamples.newer]
  = Ret (WalkSamples.newer, [WalkSamples.newer])
  /\ extractNewestCommit [WalkSamples.oldest; WalkSamples.older; WalkSamples.newer]
     = Ret (WalkSamples.newer, [WalkSamples.oldest; WalkSamples.newer])
  /\ forall fuel : nat,
       walkFilteredHistory WalkSamples.mergeRepository (3 + fuel) WalkSamples.merge
         (@nopCallback unit) nopComparator tt
       = Panic "index out of range".
Proof. split; [|split]; [by vm_compute ..|]. intros fuel. by vm_compute. Qed.

(** ** The frontier between two iterations *)

(** C6. After the first iteration of a walk from a merge of two commits
    that have the same tree, with the default comparator, the frontier holds
    both parents, which are equivalent: [mergeRoots] is called with the
    parents as [base], and does not compare them with each other. *)
Theorem walkIteration_frontier_equivalent_parents :
  pairwiseNonEquivalent commitRootComparator [WalkSamples.twins]
  /\ exists w : walker unit,
       walkIteration WalkSamples.twinsRepository nopCallback commitRootComparator 1
         {| roots := [WalkSamples.twins]; seen := ∅; results := []; closure := tt |}
       = Ret (inl w)
       /\ roots w = [WalkSamples.left; WalkSamples.right]
       /\ Id WalkSamples.left <> Id WalkSamples.right
       /\ commitRootComparator WalkSamples.left WalkSamples.right = true
       /\ ~ pairwiseNonEquivalent commitRootComparator (roots w).
Proof.
  split.
  { intros [|i] [|j] a b Hij Ha Hb; done. }
  eexists. split; [by vm_compute|]. cbn [roots].
  split; [done|]. split; [done|]. split; [done|].
  intros Hpair. by specialize (Hpair 0%nat 1%nat _ _ ltac:(done) eq_refl eq_refl).
Qed.

(** ** A walk with the unconditional callback and no simplification *)


Lemma reachable_trans (getCommit : sha1 -> outcome Commit) (a b c : Commit) :
  reachable getCommit a b -> reachable getCommit b c -> reachable getCommit a c.
Proof.
  intros Hab Hbc. induction Hbc as [|d p pid _ IH Hpid Hp]; [done|].
  by apply (reachable_parent _ _ d p pid).
Qed.

Section LinearHistory.

Variable getCommit : sha1 -> outcome Commit.
Variable start : Commit.
Variable rank : sha1 -> nat.

(** Every commit reachable from [start] has at most one parent; the
    repository holds it under its id, and it is not newer than its child;
    the rank of a parent is below the rank of its child, which makes the
    history finite and free of cycles. *)
Hypothesis linear :
  forall c, reachable getCommit start c -> (List.length (parents c) <= 1)%nat.
Hypothesis stored :
  forall c pid, reachable getCommit start c -> pid ∈ parents c ->
    exists p, getCommit pid = Ret p /\ Id p = pid /\ When p <= When c.
Hypothesis acyclic :
  forall c pid, reachable getCommit start c -> pid ∈ parents c ->
    (rank pid < rank (Id c))%nat.


Lemma reachable_rank (c d : Commit) :
  reachable getCommit start c -> reachable getCommit c d ->
  d = c \/ (rank (Id d) < rank (Id c))%nat.
Proof.
  intros Hc Hd. induction Hd as [|e p pid He IH Hpid Hp]; [by left|]. right.
  assert (Hse : reachable getCommit start e) by (by eapply reachable_trans).
  destruct (stored e pid Hse Hpid) as (p' & Hp' & Hid & _).
  assert (p' = p) as -> by congruence.
  pose proof (acyclic e pid Hse Hpid) as Hrank. rewrite Hid.
  destruct IH as [-> | Hlt]; lia.
Qed.







End LinearHistory.

(** ** The pager *)

Lemma land_pow2 (a k : Z) :
  0 <= k -> Z.land a (2 ^ k) = if Z.testbit a k then 2 ^ k else 0.
Proof.
  intros Hk. apply Z.bits_inj'. intros n Hn. rewrite Z.land_spec.
  rewrite Z.pow2_bits_eqb by lia.
  destruct (Z.eqb_spec k n) as [<- | Hne].
  - destruct (Z.testbit a k) eqn:E; [|by rewrite Z.bits_0].
    by rewrite Z.pow2_bits_true.
  - rewrite andb_false_r. destruct (Z.testbit a k) eqn:E; [|by rewrite Z.bits_0].
    by rewrite Z.pow2_bits_false.
Qed.

Lemma land_flag_pos (a k : Z) :
  0 <= k -> (Z.land a (2 ^ k) >? 0) = Z.testbit a k.
Proof.
  intros Hk. rewrite land_pow2 by done.
  destruct (Z.testbit a k); [|done]. apply Z.gtb_lt. by apply Z.pow_pos_nonneg.
Qed.

Lemma land_flag_zero (a k : Z) :
  0 <= k -> (Z.land a (2 ^ k) =? 0) = negb (Z.testbit a k).
Proof.
  intros Hk. rewrite land_pow2 by done.
  destruct (Z.testbit a k); [|done]. apply Z.eqb_neq.
  pose proof (Z.pow_pos_nonneg 2 k). lia.
Qed.

Lemma take_flag (a : Z) : (Z.land a HWTakeCommit >? 0) = Z.testbit a 1.
Proof. by apply (land_flag_pos a 1). Qed.

Lemma take_flag_zero (a : Z) : (Z.land a HWTakeCommit =? 0) = negb (Z.testbit a 1).
Proof. by apply (land_flag_zero a 1). Qed.

Lemma follow_flag (a : Z) : (Z.land a HWFollowParents >? 0) = Z.testbit a 2.
Proof. by apply (land_flag_pos a 2). Qed.

Lemma stop_flag (a : Z) : (Z.land a HWStop >? 0) = Z.testbit a 3.
Proof. by apply (land_flag_pos a 3). Qed.

Lemma lor_stop_bits (a : Z) :
  Z.testbit (Z.lor a HWStop) 1 = Z.testbit a 1
  /\ Z.testbit (Z.lor a HWStop) 2 = Z.testbit a 2
  /\ Z.testbit (Z.lor a HWStop) 3 = true.
Proof.
  rewrite !Z.lor_spec. change HWStop with 8.
  change (Z.testbit 8 1) with false. change (Z.testbit 8 2) with false.
  change (Z.testbit 8 3) with true.
  by rewrite !orb_false_r, orb_true_r.
Qed.

Lemma ldiff_take_bits (a : Z) :
  Z.testbit (Z.ldiff a HWTakeCommit) 1 = false
  /\ Z.testbit (Z.ldiff a HWTakeCommit) 2 = Z.testbit a 2
  /\ Z.testbit (Z.ldiff a HWTakeCommit) 3 = Z.testbit a 3.
Proof.
  rewrite !Z.ldiff_spec. change HWTakeCommit with 2.
  change (Z.testbit 2 1) with true. change (Z.testbit 2 2) with false.
  change (Z.testbit 2 3) with false.
  by rewrite andb_false_r, !andb_true_r.
Qed.

Section PagerAnswers.

Context {St : Type}.
Variable cb : CommitWalkCallback St.

Ltac case_compare :=
  repeat match goal with
    | |- context [Z.ltb ?a ?b] => destruct (Z.ltb_spec a b)
    | |- context [Z.eqb ?a ?b] => destruct (Z.eqb_spec a b)
    end.

(** One call of the pager: the answer after no commit taken, and what is
    left to skip and to let through. *)
Lemma pagerCallback_step (p : pager St) (c : Commit) (st1 : St) (r : Z * option error) :
  cb (inner p) c = (st1, r) ->
  0 <= skip p < 2 ^ 63 -> 0 <= count p < 2 ^ 63 ->
  pagerCallback cb p c
  = ({| inner := st1; skip := (pagerLeft (skip p) (count p) r).1;
        count := (pagerLeft (skip p) (count p) r).2 |},
     pagerAnswer (skip p) (count p) 0 r).
Proof.
  intros Hcb Hskip Hcount. unfold pagerCallback. rewrite Hcb.
  destruct r as [a [e|]]; [done|].
  unfold pagerAnswer, pagerLeft, takes. cbn [fst snd].
  destruct (Z.land a HWTakeCommit =? 0); [done|]. cbn [negb].
  change (Z.of_nat 0) with 0.
  destruct (Z.eqb_spec (skip p) 0) as [Hs|Hs]; cbn [negb].
  - rewrite Hs. cbn [Z.ltb Z.compare]. rewrite Z.add_0_l.
    destruct (Z.eqb_spec (count p) 0) as [Hc|Hc]; cbn [negb].
    + rewrite Hc. by cbn.
    + rewrite toInt64_small by lia.
      destruct (Z.ltb_spec 0 (count p)) as [_|]; [|lia]. cbn [fst snd].
      by rewrite (Z.eqb_sym 0).
  - rewrite toInt64_small by lia.
    destruct (Z.ltb_spec 0 (skip p)) as [_|]; [|lia]. done.
Qed.

Lemma pagerLeft_range (k n : Z) (r : Z * option error) :
  0 <= k < 2 ^ 63 -> 0 <= n < 2 ^ 63 ->
  0 <= (pagerLeft k n r).1 < 2 ^ 63 /\ 0 <= (pagerLeft k n r).2 < 2 ^ 63.
Proof.
  intros Hk Hn. unfold pagerLeft. destruct (takes r); [|done].
  case_compare; cbn [fst snd]; lia.
Qed.

Lemma pagerAnswer_left (k n : Z) (t : nat) (r0 r : Z * option error) :
  0 <= k -> 0 <= n ->
  pagerAnswer (pagerLeft k n r0).1 (pagerLeft k n r0).2 t r
  = pagerAnswer k n ((if takes r0 then 1 else 0) + t) r.
Proof.
  intros Hk Hn. unfold pagerAnswer, pagerLeft.
  destruct (takes r); [|done]. destruct (takes r0); [|done].
  rewrite Nat2Z.inj_add. change (Z.of_nat 1) with 1.
  destruct (Z.ltb_spec 0 k); cbn [fst snd].
  - case_compare; try lia; done.
  - destruct (Z.ltb_spec 0 n); cbn [fst snd]; case_compare; try lia; done.
Qed.

Lemma taken_cons (r0 : Z * option error) (rs : list (Z * option error)) :
  taken (r0 :: rs) = ((if takes r0 then 1 else 0) + taken rs)%nat.
Proof. unfold taken. cbn [List.filter]. by destruct (takes r0). Qed.

(** The answers of the pager, visit by visit. *)
Lemma answers_pager (cs : list Commit) :
  forall (st : St) (k n : Z) (i : nat) (r : Z * option error),
    0 <= k < 2 ^ 63 -> 0 <= n < 2 ^ 63 ->
    answers cb st cs !! i = Some r ->
    answers (pagerCallback cb) {| inner := st; skip := k; count := n |} cs !! i
    = Some (pagerAnswer k n (taken (take i (answers cb st cs))) r).
Proof.
  induction cs as [|c cs IH]; intros st k n i r Hk Hn; [done|].
  cbn [answers]. destruct (cb st c) as [st1 r0] eqn:Hcb.
  rewrite (pagerCallback_step {| inner := st; skip := k; count := n |} c st1 r0 Hcb Hk Hn).
  cbn [skip count]. destruct i as [|i].
  - intros [= <-]. done.
  - cbn [lookup list_lookup take]. intros Hr.
    destruct (pagerLeft_range k n r0 Hk Hn) as [Hk1 Hn1].
    rewrite taken_cons, <- pagerAnswer_left by lia. by apply IH.
Qed.

End PagerAnswers.

Section PagerWalk.

Variable getCommit : sha1 -> outcome Commit.
Context {St : Type}.
Variable eq : CommitComparator.

Lemma applyAction_yielded (res : list Commit) (s : gset sha1) (rts : list Commit)
    (next : Commit) (st : St) (a : Z) (r : walker St + list Commit * St) :
  applyAction getCommit eq res s rts next st a = Ret r ->
  yielded r = (if Z.testbit a 1 then res ++ [next] else res)
  /\ match r with inl w => closure w = st | inr _ => True end.
Proof.
  unfold applyAction. rewrite take_flag, stop_flag.
  destruct (Z.testbit a 1); intros ([roots2 s3] & _ & Hrest)%bind_Ret_inv;
    destruct (Z.testbit a 3); by injection Hrest as <-.
Qed.

Lemma applyAction_withClosure {St' : Type} (p : St') (res : list Commit)
    (s : gset sha1) (rts : list Commit) (next : Commit) (st : St) (a : Z)
    (r : walker St + list Commit * St) :
  applyAction getCommit eq res s rts next st a = Ret r ->
  applyAction getCommit eq res s rts next p a = Ret (withClosure p r).
Proof.
  unfold applyAction.
  destruct (Z.land a HWTakeCommit >? 0);
    intros ([roots2 s3] & -> & Hrest)%bind_Ret_inv; cbn [mbind outcome_bind];
    destruct (Z.land a HWStop >? 0); by injection Hrest as <-.
Qed.

Lemma applyAction_lor_stop {St' : Type} (p : St') (res : list Commit)
    (s : gset sha1) (rts : list Commit) (next : Commit) (st : St) (a : Z)
    (r : walker St + list Commit * St) :
  applyAction getCommit eq res s rts next st a = Ret r ->
  applyAction getCommit eq res s rts next p (Z.lor a HWStop)
  = Ret (inr (yielded r, p)).
Proof.
  unfold applyAction. rewrite !take_flag, !follow_flag, !stop_flag.
  destruct (lor_stop_bits a) as (-> & -> & ->).
  destruct (Z.testbit a 1);
    intros ([roots2 s3] & -> & Hrest)%bind_Ret_inv; cbn [mbind outcome_bind];
    destruct (Z.testbit a 3); by injection Hrest as <-.
Qed.

Lemma applyAction_HWStop {St' : Type} (p : St') (res : list Commit)
    (s : gset sha1) (rts : list Commit) (next : Commit) :
  applyAction getCommit eq res s rts next p HWStop = Ret (inr (res, p)).
Proof. done. Qed.

Variable cb : CommitWalkCallback St.

Lemma walkIteration_yielded (fuel : nat) (w : walker St)
    (r : walker St + list Commit * St) :
  walkIteration getCommit cb eq fuel w = Ret r ->
  exists X, yielded r = results w ++ X.
Proof.
  unfold walkIteration. destruct (roots w) as [|c0 tl].
  { intros [= <-]. exists []. by rewrite app_nil_r. }
  intros ([rs s1] & _ & Hrest)%bind_Ret_inv.
  apply bind_Ret_inv in Hrest as ([next rest] & _ & Hrest).
  destruct (cb (closure w) next) as [st [a [e|]]]; [done|].
  apply applyAction_yielded in Hrest as [-> _].
  destruct (Z.testbit a 1); [by exists [next] | exists []; by rewrite app_nil_r].
Qed.

Lemma walkLoop_prefix (fuel : nat) :
  forall (w : walker St) (R : list Commit) (st : St),
    walkLoop getCommit cb eq fuel w = Ret (R, st) ->
    exists X, R = results w ++ X.
Proof.
  induction fuel as [|fuel IH]; intros w R st; [done|].
  cbn [walkLoop]. intros (r & Hiter & Hrest)%bind_Ret_inv.
  apply walkIteration_yielded in Hiter as [X HX].
  destruct r as [w' | [R' st']].
  - apply IH in Hrest as [X' ->]. cbn [yielded] in HX. rewrite HX.
    exists (X ++ X'). by rewrite app_assoc.
  - injection Hrest as <- <-. by exists X.
Qed.

End PagerWalk.

Section PagerLaw.

Variable getCommit : sha1 -> outcome Commit.
Context {St : Type}.
Variable eq : CommitComparator.
Variable cb : CommitWalkCallback St.

(** Where the walk with [cb] returns [R], the walk with its pager, with
    nothing to skip and [m] commits left to let through, returns the
    results so far and the next [m] commits of [R]. *)
Lemma walkLoop_pager (fuel : nat) :
  forall (w : walker St) (R : list Commit) (st' : St) (m : Z),
    0 <= m < 2 ^ 63 ->
    walkLoop getCommit cb eq fuel w = Ret (R, st') ->
    exists p' : pager St,
      walkLoop getCommit (pagerCallback cb) eq fuel (pagerWalker w m)
      = Ret (results w ++ take (Z.to_nat m) (drop (List.length (results w)) R), p').
Proof.
  induction fuel as [|fuel IH]; intros w R st' m Hm; [done|].
  cbn [walkLoop]. intros (r & Hiter & Hrest)%bind_Ret_inv.
  assert (Hprefix : exists X, R = yielded r ++ X).
  { destruct r as [w' | [R' st'']].
    - by apply walkLoop_prefix in Hrest.
    - injection Hrest as <- <-. exists []. by rewrite app_nil_r. }
  destruct Hprefix as [X HR].
  (* the rest of the walk with the pager, from the state after [r] *)
  assert (Hnext : forall m', 0 <= m' < 2 ^ 63 ->
    exists p', (next ← Ret (withClosure {| inner := match r with
                                                      | inl w' => closure w'
                                                      | inr (_, st) => st
                                                      end;
                                           skip := 0; count := m' |} r);
                match next with
                | inl w' => walkLoop getCommit (pagerCallback cb) eq fuel w'
                | inr r' => Ret r'
                end)
               = Ret (yielded r ++ take (Z.to_nat m') X, p')).
  { intros m' Hm'. cbn [mbind outcome_bind]. destruct r as [w' | [R' st'']].
    - cbn [withClosure yielded] in *.
      destruct (IH w' R st' m' Hm' Hrest) as [p' Hp']. exists p'.
      unfold pagerWalker in Hp'. by rewrite Hp', HR, drop_app_length.
    - cbn [withClosure yielded] in *. injection Hrest as <- <-.
      assert (X = []) as ->.
      { apply (app_inv_head R'). by rewrite app_nil_r. }
      eexists. by rewrite take_nil, app_nil_r. }
  revert Hiter. unfold walkIteration. cbn [pagerWalker roots seen results closure].
  destruct (roots w) as [|c0 tl].
  { intros [= <-]. injection Hrest as <- <-. cbn [mbind outcome_bind].
    eexists. by rewrite drop_all, take_nil, app_nil_r. }
  intros ([rs s1] & -> & Hiter)%bind_Ret_inv. cbn [mbind outcome_bind].
  apply bind_Ret_inv in Hiter as ([next rest] & -> & Hiter). cbn [mbind outcome_bind].
  set (continue := walkLoop getCommit (pagerCallback cb) eq fuel) in *.
  unfold pagerCallback. cbn [inner skip count].
  destruct (cb (closure w) next) as [st1 [a [e|]]]; [done|].
  destruct (applyAction_yielded _ _ _ _ _ _ _ _ _ Hiter) as [Hyield Hclosure].
  assert (Hinner : match r with inl w' => closure w' | inr (_, st) => st end = st1
                   \/ exists R' st'', r = inr (R', st'')).
  { destruct r as [w' | [R' st'']]; [by left | right; eauto]. }
  assert (Hdrop : drop (List.length (results w)) R
                  = (if Z.testbit a 1 then [next] else []) ++ X).
  { rewrite HR, Hyield. destruct (Z.testbit a 1).
    - by rewrite <- app_assoc, drop_app_length.
    - by rewrite drop_app_length. }
  rewrite Hdrop, take_flag_zero.
  assert (Hsame : forall m', 0 <= m' < 2 ^ 63 ->
    exists p', (next ← applyAction getCommit eq (results w) s1 rest next
                         {| inner := st1; skip := 0; count := m' |} a;
                match next with
                | inl w' => continue w'
                | inr r' => Ret r'
                end)
               = Ret (yielded r ++ take (Z.to_nat m') X, p')).
  { intros m' Hm'.
    rewrite (applyAction_withClosure _ _ _ _ _ _ _ _ _ _ Hiter).
    destruct (Hnext m' Hm') as [p' Hp']. revert Hp'. subst continue.
    destruct Hinner as [-> | (R' & st'' & ->)]; [intros Hp'; by exists p'|].
    cbn [withClosure mbind outcome_bind yielded]. intros [= HR' _].
    rewrite <- HR'. by eexists. }
  clear Hnext. destruct (Z.testbit a 1) eqn:Htake; cbn [negb app].
  - (* the callback takes the commit *)
    change (0 =? 0) with true. cbn [negb].
    destruct (Z.eqb_spec m 0) as [-> | Hm0]; cbn [negb].
    { rewrite applyAction_HWStop. cbn [mbind outcome_bind].
      eexists. by rewrite take_0, app_nil_r. }
    rewrite toInt64_small by lia.
    replace (Z.to_nat m) with (S (Z.to_nat (m - 1))) by lia. cbn [take].
    destruct (Z.eqb_spec (m - 1) 0) as [Hm1 | Hm1].
    { rewrite (applyAction_lor_stop _ _ _ _ _ _ _ _ _ _ Hiter). cbn [mbind outcome_bind].
      rewrite Hyield, Hm1, take_0. by eexists. }
    destruct (Hsame (m - 1) ltac:(lia)) as [p' Hp']. exists p'.
    by rewrite Hp', Hyield, <- app_assoc.
  - (* the callback does not take the commit *)
    destruct (Hsame m Hm) as [p' Hp']. exists p'. by rewrite Hp', Hyield.
Qed.

End PagerLaw.

(** C8, as stated, fails in its last part.  The pager made with skip 0 and
    count 0 over the path checker does not stop at the first commit of the
    walk from [earlyChild], which the checker does not take: its answer is
    [HWFollowParents], without [HWStop], and the loop goes on with the
    parent.  And the pager made with skip 1 and count 0 leaves
    [HWTakeCommit] out of its answers for the first two commits that its
    callback takes, not for the first one alone. *)
Lemma makePager_zero_goes_on :
  (let '(pagerCallback, p) := makePager (Some PagerSamples.checker) tt 0 0 in
   (pagerCallback p WalkSamples.earlyChild).2 = (HWFollowParents, None)
   /\ Z.land HWFollowParents HWStop = 0
   /\ exists w,
        walkIteration WalkSamples.skewedRepository pagerCallback nopComparator 1
          {| roots := [WalkSamples.earlyChild]; seen := ∅; results := []; closure := p |}
        = Ret (inl w)
        /\ roots w = [WalkSamples.lateParent])
  /\ (let '(pagerCallback, p) := makePager (Some (@nopCallback unit)) tt 1 0 in
      answers pagerCallback p [WalkSamples.earlyChild; WalkSamples.lateParent]
      = [(HWFollowParents, None); (HWStop, None)]).
Proof.
  split; [|by vm_compute]. cbn [makePager]. split; [by vm_compute|]. split; [done|].
  eexists. split; [by vm_compute|]. done.
Qed.

(** C8, amended.  For a pager made with [0 <= skip] and [0 <= count], both
    Go [int]s, and for every sequence of visits: where its callback answers
    [r] after it has taken [t] commits, the pager answers
    [pagerAnswer skip count t r].  That is: an error, or an answer that does
    not take the commit, is passed on; [TakeCommit] is stripped from the
    first [skip] commits that the callback takes; the next [count] are let
    through, with [Stop] set on the last of them; a later commit that the
    callback takes is answered with [Stop] alone.  So the pager with skip 0
    and count 0 yields nothing and stops at the first commit that its
    callback takes.  And where the walk with the callback returns [R], the
    walk with its pager made with skip 0 and count [n] returns the first
    [min n (length R)] commits of [R]. *)
Theorem makePager_law {St : Type} (cb : option (CommitWalkCallback St)) (st : St)
    (k n : Z) :
  0 <= k < 2 ^ 63 -> 0 <= n < 2 ^ 63 ->
  let cb' := match cb with Some cb => cb | None => nopCallback end in
  (forall (cs : list Commit) (i : nat) (r : Z * option error),
     answers cb' st cs !! i = Some r ->
     answers (makePager cb st k n).1 (makePager cb st k n).2 cs !! i
     = Some (pagerAnswer k n (taken (take i (answers cb' st cs))) r))
  /\ (forall (t : nat) (r : Z * option error),
        pagerAnswer 0 0 t r = if takes r then (HWStop, None) else r)
  /\ (forall r : Z * option error,
        takes r = true -> 1 <= n ->
        pagerAnswer 0 n (Z.to_nat (n - 1)) r = (Z.lor r.1 HWStop, None))
  /\ (forall (getCommit : sha1 -> outcome Commit) (eq : CommitComparator)
        (fuel : nat) (roots : list Commit) (R : list Commit) (st' : St),
        walkHistoryLoop getCommit cb' eq fuel roots st = Ret (R, st') ->
        exists p' : pager St,
          walkHistoryLoop getCommit (makePager cb st 0 n).1 eq fuel roots
            (makePager cb st 0 n).2
          = Ret (take (Z.to_nat n) R, p')
          /\ List.length (take (Z.to_nat n) R) = Nat.min (Z.to_nat n) (List.length R)).
Proof.
  intros Hk Hn cb'. unfold makePager. cbn [fst snd]. fold cb'.
  split; [|split; [|split]].
  - intros cs i r Hr. by apply answers_pager.
  - intros t r. unfold pagerAnswer. destruct (takes r); [|done].
    destruct (Z.ltb_spec (Z.of_nat t) 0) as [|_]; [lia|].
    rewrite Z.add_0_l. by destruct (Z.ltb_spec (Z.of_nat t) 0) as [|_]; [lia|].
  - intros r Hr Hn1. unfold pagerAnswer. rewrite Hr, Z2Nat.id, Z.add_0_l by lia.
    destruct (Z.ltb_spec (n - 1) 0) as [|_]; [lia|].
    destruct (Z.ltb_spec (n - 1) n) as [_|]; [|lia].
    by rewrite Z.eqb_refl.
  - intros getCommit eq fuel roots0 R st' Hwalk.
    destruct (walkLoop_pager getCommit eq cb' fuel _ R st' n Hn Hwalk) as [p' Hp'].
    exists p'. split; [|apply length_take].
    unfold walkHistoryLoop. unfold pagerWalker in Hp'.
    cbn [results roots seen closure List.length drop app] in Hp'.
    by rewrite drop_0 in Hp'.
Qed.

(** ** The properties at sample inputs *)

Lemma readLenInPackFile_in_range_iff_witness :
  readObjectBytes DeltaSamples.noInflate DeltaSamples.noNumber DeltaSamples.noDelta
    DeltaSamples.runawayFs 1 "objects/pack/p.pack" ∅ 0 true
  = Panic "index out of range".
Proof.
  apply (proj2 readLenInPackFile_in_range_iff) with (content := replicate 12 0xFF).
  - reflexivity.
  - lia.
  - intros k Hk. exists 0xFF. split; [|reflexivity].
    do 10 (destruct k as [|k]; [reflexivity|]). lia.
Defined.

Lemma walkHistoryLoop_results_unique_witness :
  NoDup (Id <$> [WalkSamples.twins; WalkSamples.left; WalkSamples.right])
  /\ List.length [WalkSamples.twins; WalkSamples.left; WalkSamples.right]
     = size (list_to_set (Id <$> [WalkSamples.twins; WalkSamples.left; WalkSamples.right])
             : gset sha1).
Proof.
  apply (walkHistoryLoop_results_unique WalkSamples.twinsRepository nopCallback
           commitRootComparator 4 [WalkSamples.twins] tt tt).
  reflexivity.
Defined.



Lemma makePager_law_witness :
  0 <= 1 < 2 ^ 63 /\ 0 <= 2 < 2 ^ 63
  /\ answers (makePager (Some (@nopCallback unit)) tt 1 2).1
       (makePager (Some (@nopCallback unit)) tt 1 2).2
       [ChainSamples.tip; ChainSamples.mid; ChainSamples.root] !! 2%nat
     = Some (Z.lor HWTakeAndFollow HWStop, None)
  /\ exists p' : pager unit,
       walkHistoryLoop ChainSamples.chainRepository
         (makePager (Some (@nopCallback unit)) tt 0 2).1 nopComparator 4
         [ChainSamples.tip] (makePager (Some (@nopCallback unit)) tt 0 2).2
       = Ret ([ChainSamples.tip; ChainSamples.mid], p').
Proof.
  split; [lia|]. split; [lia|]. split.
  - apply (proj1 (makePager_law (Some (@nopCallback unit)) tt 1 2 ltac:(lia) ltac:(lia))
             [ChainSamples.tip; ChainSamples.mid; ChainSamples.root] 2%nat
             (HWTakeAndFollow, None)).
    reflexivity.
  - destruct (proj2 (proj2 (proj2
        (makePager_law (Some (@nopCallback unit)) tt 0 2 ltac:(lia) ltac:(lia))))
        ChainSamples.chainRepository nopComparator 4%nat [ChainSamples.tip]
        [ChainSamples.tip; ChainSamples.mid; ChainSamples.root] tt eq_refl)
      as (p' & Hp' & _).
    exists p'. exact Hp'.
Defined.

Lemma makePathComparator_true_iff_witness :
  makePathComparator ComparatorSamples.brokenInEarlyChild "src/x.txt"
    WalkSamples.earlyChild WalkSamples.lateParent = false.
Proof.
  apply (proj2 (makePathComparator_true_iff ComparatorSamples.brokenInEarlyChild
                  "src/x.txt" WalkSamples.earlyChild WalkSamples.lateParent))
    with (e := errors_New "corrupt tree").
  - discriminate.
  - left. reflexivity.
Defined.

(** * Further properties of the code *)

(** ** Merging the parents into the frontier *)

Lemma mergeLoop_spec (eq : CommitComparator) (base merging : list Commit) :
  forall (seen0 : gset sha1) (newRoots : list Commit),
    mergeLoop base merging eq seen0 newRoots
    = (newRoots ++ List.filter (fun n => negb (foundIn eq n base)) merging,
       list_to_set (Id <$> List.filter (fun n => foundIn eq n base) merging) ∪ seen0).
Proof.
  induction merging as [|needle merging IH]; intros seen0 newRoots.
  - cbn [mergeLoop List.filter fmap list_fmap list_to_set]. rewrite app_nil_r.
    f_equal. set_solver.
  - cbn [mergeLoop List.filter]. destruct (foundIn eq needle base); cbn [negb].
    + rewrite IH. f_equal. cbn [fmap list_fmap list_to_set]. set_solver.
    + rewrite IH. by rewrite <- app_assoc.
Qed.

(** X1. [mergeRoots base merging] returns the commits of [base], all of
    them, followed by the commits of [merging] that are equal to no commit
    of [base], in their order; the ids of the other commits of [merging] are
    added to [seen].  No commit it keeps from [merging] is equal to a commit
    of [base]. *)
Theorem mergeRoots_spec (eq : CommitComparator) (base merging : list Commit)
    (seen0 : gset sha1) :
  mergeRoots base merging eq seen0
  = (base ++ List.filter (fun n => negb (foundIn eq n base)) merging,
     list_to_set (Id <$> List.filter (fun n => foundIn eq n base) merging) ∪ seen0)
  /\ forall n b : Commit,
       In n (List.filter (fun n => negb (foundIn eq n base)) merging) ->
       b ∈ base -> eq n b = false.
Proof.
  split; [apply mergeLoop_spec|].
  intros n b [_ Hn]%filter_In Hb. apply negb_true_iff in Hn.
  unfold foundIn in Hn. destruct (eq n b) eqn:Heq; [|done].
  assert (existsb (fun item => eq n item) base = true); [|congruence].
  apply existsb_exists. exists b. split; [by apply list_elem_of_In|done].
Qed.

(** ** What simplification returns *)

Section SimplifyFacts.

Variable getCommit : sha1 -> outcome Commit.
Variable eq : CommitComparator.

Lemma equalParent_spec (c : Commit) (n : nat) :
  forall (idx : nat) (r : option Commit),
    equalParent getCommit c eq idx n = Ret r ->
    match r with
    | Some p => exists j : nat, Parent getCommit c j = Ret p /\ eq c p = true
    | None =>
        forall j : nat, (idx <= j < idx + n)%nat ->
          exists p, Parent getCommit c j = Ret p /\ eq c p = false
    end.
Proof.
  induction n as [|n IH]; intros idx r.
  { intros [= <-]. intros j Hj. lia. }
  cbn [equalParent]. intros (parent & Hparent & Hrest)%bind_Ret_inv.
  destruct (eq c parent) eqn:Heq.
  - injection Hrest as <-. by exists idx.
  - apply IH in Hrest. destruct r as [p|]; [done|].
    intros j Hj. destruct (decide (j = idx)) as [-> | Hne]; [by exists parent|].
    apply Hrest. lia.
Qed.

(** The commit that [skipEqualCommits] returns is at the end of a chain of
    equal parents. *)
Lemma skipEqualCommits_chain (fuel : nat) :
  forall (c : Commit) (seen0 seen' : gset sha1) (c' : Commit),
    skipEqualCommits getCommit fuel c eq seen0 = Ret (Some c', seen') ->
    equalChain getCommit eq c c'.
Proof.
  induction fuel as [|fuel IH]; intros c seen0 seen' c'; [done|].
  cbn [skipEqualCommits]. destruct (decide (Id c ∈ seen0)); [done|].
  destruct (List.length (parents c) =? 0)%nat.
  { intros [= <- <-]. constructor. }
  intros (found & Hfound & Hrest)%bind_Ret_inv.
  apply equalParent_spec in Hfound. destruct found as [parent|].
  - destruct Hfound as (j & Hparent & Heq). apply IH in Hrest.
    by apply (equalChain_step _ _ c parent c' j).
  - injection Hrest as <- <-. constructor.
Qed.

Lemma Parent_reachable (c p : Commit) (idx : nat) :
  Parent getCommit c idx = Ret p -> reachable getCommit c p.
Proof.
  unfold Parent. intros (pid & Hpid%index_Ret & Hp)%bind_Ret_inv.
  apply (reachable_parent _ _ c p pid); [constructor| |done].
  by apply list_elem_of_lookup_2 in Hpid.
Qed.

Lemma equalChain_reachable (c d : Commit) :
  equalChain getCommit eq c d -> reachable getCommit c d.
Proof.
  induction 1 as [c | c p d idx Hp _ _ IH]; [constructor|].
  apply (reachable_trans _ c p d); [|done]. by apply (Parent_reachable c p idx).
Qed.

End SimplifyFacts.

(** X2. When [skipEqualCommits] returns a commit, that commit is reached
    from the given one through parents equal to their child, it is not in
    [seen], and none of its parents is equal to it; when it returns nil, it
    has reached a commit that is in [seen].  It only adds to [seen]. *)
Theorem skipEqualCommits_returns (getCommit : sha1 -> outcome Commit)
    (eq : CommitComparator) (fuel : nat) (c : Commit) (seen0 seen' : gset sha1)
    (r : option Commit) :
  skipEqualCommits getCommit fuel c eq seen0 = Ret (r, seen') ->
  seen0 ⊆ seen'
  /\ match r with
     | Some c' =>
         equalChain getCommit eq c c'
         /\ (Id c' ∉ seen')
         /\ forall j : nat, (j < ParentCount c')%nat ->
              exists p, Parent getCommit c' j = Ret p /\ eq c' p = false
     | None => exists d, equalChain getCommit eq c d /\ Id d ∈ seen'
     end.
Proof.
  revert c seen0 seen' r.
  induction fuel as [|fuel IH]; intros c seen0 seen' r; [done|].
  cbn [skipEqualCommits]. destruct (decide (Id c ∈ seen0)) as [Hin|Hnotin].
  { intros [= <- <-]. split; [done|]. exists c. split; [constructor|done]. }
  destruct (Nat.eqb_spec (List.length (parents c)) 0) as [Hlen|Hlen].
  { intros [= <- <-]. split; [done|]. split; [constructor|]. split; [done|].
    intros j Hj. unfold ParentCount in Hj. lia. }
  intros (found & Hfound & Hrest)%bind_Ret_inv.
  apply equalParent_spec in Hfound. destruct found as [parent|].
  - destruct Hfound as (j & Hparent & Heq).
    apply IH in Hrest as [Hsub Hr]. split; [set_solver|].
    destruct r as [c'|].
    + destruct Hr as (Hchain & Hr). split; [|done].
      by apply (equalChain_step _ _ c parent c' j).
    + destruct Hr as (d & Hchain & Hd). exists d. split; [|done].
      by apply (equalChain_step _ _ c parent d j).
  - injection Hrest as <- <-. split; [done|]. split; [constructor|]. split; [done|].
    intros j Hj. apply Hfound. lia.
Qed.

(** ** The results of a walk *)

Section WalkResults.

Variable getCommit : sha1 -> outcome Commit.
Context {St : Type}.
Variable callback : CommitWalkCallback St.
Variable eq : CommitComparator.

(** The steps of an iteration that returns. *)
Lemma walkIteration_steps (fuel : nat) (w : walker St)
    (r : walker St + list Commit * St) :
  walkIteration getCommit callback eq fuel w = Ret r ->
  roots w = [] /\ r = inr (results w, closure w)
  \/ exists (rs : list Commit) (s1 : gset sha1) (next : Commit) (rest : list Commit)
       (st : St) (action : Z),
       simplifyRoots getCommit fuel (roots w) eq (seen w) = Ret (rs, s1)
       /\ extractNewestCommit rs = Ret (next, rest)
       /\ callback (closure w) next = (st, (action, None))
       /\ applyAction getCommit eq (results w) s1 rest next st action = Ret r.
Proof.
  unfold walkIteration. destruct (roots w) as [|c0 tl] eqn:Hroots.
  { intros [= <-]. by left. }
  intros ([rs s1] & Hsimplify & Hrest)%bind_Ret_inv.
  apply bind_Ret_inv in Hrest as ([next rest] & Hextract & Hrest).
  destruct (callback (closure w) next) as [st [action [e|]]] eqn:Hcb; [done|].
  right. by exists rs, s1, next, rest, st, action.
Qed.

Lemma simplifyLoop_chain (fuel : nat) (roots0 : list Commit) :
  forall (seen0 seen' : gset sha1) (newRoots rs : list Commit),
    simplifyLoop getCommit fuel roots0 eq seen0 newRoots = Ret (rs, seen') ->
    forall c, c ∈ rs ->
      c ∈ newRoots \/ exists r, r ∈ roots0 /\ equalChain getCommit eq r c.
Proof.
  induction roots0 as [|commit roots0 IH]; intros seen0 seen' newRoots rs.
  { cbn [simplifyLoop]. intros [= <- <-] c Hc. by left. }
  cbn [simplifyLoop]. intros ([r s1] & Hskip & Hrest)%bind_Ret_inv c Hc.
  destruct r as [c'|]; destruct (IH _ _ _ _ Hrest c Hc) as [Hin | (r & Hr' & Hchain)].
  - apply elem_of_app in Hin as [Hin | ->%list_elem_of_singleton]; [by left|].
    right. exists commit. split; [left|].
    by apply (skipEqualCommits_chain getCommit eq fuel commit seen0 s1).
  - right. exists r. split; [by right|done].
  - by left.
  - right. exists r. split; [by right|done].
Qed.

Lemma extractNewestCommit_rest (roots0 rest : list Commit) (next : Commit) :
  extractNewestCommit roots0 = Ret (next, rest) -> forall c, c ∈ rest -> c ∈ roots0.
Proof.
  destruct roots0 as [|c0 [|c1 tl]]; [done| |].
  - intros [= <- <-] c Hc. by apply elem_of_nil in Hc.
  - unfold extractNewestCommit.
    destruct (newestLoop (c1 :: tl) 0 c0 0) as [t ti]. intros [= <- <-] c.
    intros [Hc | Hc]%elem_of_app.
    + by apply (subseteq_take ti).
    + by apply (subseteq_drop (S ti)).
Qed.

Lemma parentsLoop_spec (c : Commit) (n : nat) :
  forall (idx : nat) (ps : list Commit),
    parentsLoop getCommit c idx n = Ret ps ->
    forall p, p ∈ ps -> exists j, Parent getCommit c j = Ret p.
Proof.
  induction n as [|n IH]; intros idx ps.
  { intros [= <-] p Hp. by apply elem_of_nil in Hp. }
  cbn [parentsLoop]. intros (p0 & Hp0 & Hrest)%bind_Ret_inv.
  apply bind_Ret_inv in Hrest as (ps' & Hps' & [= <-]).
  intros p [-> | Hp]%elem_of_cons; [by exists idx|]. by apply (IH _ _ Hps').
Qed.

Lemma applyAction_roots (res : list Commit) (s : gset sha1) (rest : list Commit)
    (next : Commit) (st : St) (action : Z) (w' : walker St) :
  applyAction getCommit eq res s rest next st action = Ret (inl w') ->
  forall c, c ∈ roots w' -> c ∈ rest \/ exists j, Parent getCommit next j = Ret c.
Proof.
  unfold applyAction.
  set (taken := if Z.land action HWTakeCommit >? 0
                then (res ++ [next], {[Id next]} ∪ s) else (res, s)).
  destruct taken as [res1 s2].
  intros ([roots2 s3] & Hmerged & Hrest)%bind_Ret_inv.
  destruct (Z.land action HWStop >? 0); [done|]. injection Hrest as <-.
  cbn [roots]. intros c Hc. destruct (Z.land action HWFollowParents >? 0).
  - apply bind_Ret_inv in Hmerged as (pars & Hpars & [= Hm]).
    unfold mergeRoots in Hm. rewrite mergeLoop_spec in Hm. injection Hm as <- _.
    apply elem_of_app in Hc as [Hc | Hc].
    + right. by apply (parentsLoop_spec next _ _ _ Hpars).
    + left. apply list_elem_of_In, filter_In in Hc as [Hc _]. by apply list_elem_of_In.
  - injection Hmerged as <- _. by left.
Qed.

(** The commits of the frontier and of the results come from the starts. *)
Lemma walkLoop_reachable (starts : list Commit) (fuel : nat) :
  forall (w : walker St) (R : list Commit) (st' : St),
    (forall c, c ∈ roots w -> reachableFrom getCommit starts c) ->
    (forall c, c ∈ results w -> reachableFrom getCommit starts c) ->
    walkLoop getCommit callback eq fuel w = Ret (R, st') ->
    forall c, c ∈ R -> reachableFrom getCommit starts c.
Proof.
  induction fuel as [|fuel IH]; intros w R st' Hroots Hres; [done|].
  cbn [walkLoop]. intros (r & Hiter & Hrest)%bind_Ret_inv.
  destruct (walkIteration_steps _ _ _ Hiter)
    as [[_ ->] | (rs & s1 & next & rest & st & action & Hs & He & Hcb & Ha)].
  { injection Hrest as <- <-. done. }
  assert (Hrs : forall c, c ∈ rs -> reachableFrom getCommit starts c).
  { intros c Hc. destruct (simplifyLoop_chain _ _ _ _ _ _ Hs c Hc)
      as [[]%elem_of_nil | (r0 & Hr0 & Hchain)].
    destruct (Hroots r0 Hr0) as (s0 & Hs0 & Hreach). exists s0. split; [done|].
    apply (reachable_trans _ s0 r0 c); [done|]. by apply (equalChain_reachable _ eq). }
  assert (Hnext : reachableFrom getCommit starts next).
  { apply Hrs. by apply (extractNewestCommit_elem rs rest). }
  destruct (applyAction_yielded _ _ _ _ _ _ _ _ _ Ha) as [Hyield _].
  assert (Hyielded : forall c, c ∈ yielded r -> reachableFrom getCommit starts c).
  { intros c. rewrite Hyield. destruct (Z.testbit action 1); [|by apply Hres].
    intros [Hc | ->%list_elem_of_singleton]%elem_of_app; [by apply Hres|done]. }
  destruct r as [w' | [R' st'']].
  - apply (IH w' R st'); [|done|done].
    intros c Hc. destruct (applyAction_roots _ _ _ _ _ _ _ Ha c Hc) as [Hin | [j Hj]].
    + apply Hrs. by apply (extractNewestCommit_rest rs rest next).
    + destruct Hnext as (s0 & Hs0 & Hreach). exists s0. split; [done|].
      apply (reachable_trans _ s0 next c); [done|]. by apply (Parent_reachable _ next c j).
  - injection Hrest as <- <-. done.
Qed.

(** The commits of the results were taken by the callback. *)
Lemma walkLoop_taken (fuel : nat) :
  forall (w : walker St) (R : list Commit) (st' : St),
    (forall c, c ∈ results w -> takenBy callback c) ->
    walkLoop getCommit callback eq fuel w = Ret (R, st') ->
    forall c, c ∈ R -> takenBy callback c.
Proof.
  induction fuel as [|fuel IH]; intros w R st' Hres; [done|].
  cbn [walkLoop]. intros (r & Hiter & Hrest)%bind_Ret_inv.
  destruct (walkIteration_steps _ _ _ Hiter)
    as [[_ ->] | (rs & s1 & next & rest & st & action & Hs & He & Hcb & Ha)].
  { injection Hrest as <- <-. done. }
  destruct (applyAction_yielded _ _ _ _ _ _ _ _ _ Ha) as [Hyield _].
  assert (Hyielded : forall c, c ∈ yielded r -> takenBy callback c).
  { intros c. rewrite Hyield. destruct (Z.testbit action 1) eqn:Htake; [|by apply Hres].
    intros [Hc | ->%list_elem_of_singleton]%elem_of_app; [by apply Hres|].
    by exists (closure w), st, action. }
  destruct r as [w' | [R' st'']].
  - by apply (IH w' R st').
  - injection Hrest as <- <-. done.
Qed.

End WalkResults.

(** X3. Every commit in the results of [walkHistoryLoop] is reachable from
    one of the start commits along parent links that the repository
    resolves, whatever the callback and the comparator. *)
Theorem walkHistoryLoop_results_reachable
    (getCommit : sha1 -> outcome Commit) {St : Type}
    (callback : CommitWalkCallback St) (eq : CommitComparator)
    (fuel : nat) (starts : list Commit) (st st' : St) (R : list Commit) :
  walkHistoryLoop getCommit callback eq fuel starts st = Ret (R, st') ->
  forall c, c ∈ R -> reachableFrom getCommit starts c.
Proof.
  apply walkLoop_reachable.
  - intros c Hc. exists c. split; [done|constructor].
  - intros c []%elem_of_nil.
Qed.

Section WalkVisits.

Variable getCommit : sha1 -> outcome Commit.
Context {St : Type}.
Variable callback : CommitWalkCallback St.
Variable eq : CommitComparator.

Lemma applyAction_closure (res : list Commit) (s : gset sha1) (rts : list Commit)
    (next : Commit) (st : St) (a : Z) (R : list Commit) (st' : St) :
  applyAction getCommit eq res s rts next st a = Ret (inr (R, st')) -> st' = st.
Proof.
  unfold applyAction.
  destruct (Z.land a HWTakeCommit >? 0); intros ([roots2 s3] & _ & Hrest)%bind_Ret_inv;
    (destruct (Z.land a HWStop >? 0); [|done]); by injection Hrest as _ <-.
Qed.

(** The results of the loop are those it starts with, then the commits
    taken among the visits of the loop; the closure ends in the state that
    these visits leave. *)
Lemma walkLoop_visits (fuel : nat) :
  forall (w : walker St) (R : list Commit) (st' : St),
    walkLoop getCommit callback eq fuel w = Ret (R, st') ->
    exists visited : list Commit,
      R = results w ++ takenAmong callback (closure w) visited
      /\ st' = closureAfter callback (closure w) visited
      /\ Forall (fun r => r.2 = None) (answers callback (closure w) visited).
Proof.
  induction fuel as [|fuel IH]; intros w R st'; [done|].
  cbn [walkLoop]. intros (r & Hiter & Hrest)%bind_Ret_inv.
  destruct (walkIteration_steps _ _ _ _ _ _ Hiter)
    as [[_ ->] | (rs & s1 & next & rest & st & action & Hs & He & Hcb & Ha)].
  { injection Hrest as <- <-. exists []. cbn [takenAmong closureAfter answers].
    by rewrite app_nil_r. }
  destruct (applyAction_yielded _ _ _ _ _ _ _ _ _ Ha) as [Hyield Hclosure].
  assert (Htakes : takes (action, @None error) = Z.testbit action 1).
  { unfold takes. cbn [fst snd]. by rewrite take_flag_zero, negb_involutive. }
  destruct r as [w' | [R' st'']].
  - apply IH in Hrest as (visited & -> & -> & Hans). cbn [yielded] in Hyield.
    exists (next :: visited). cbn [takenAmong closureAfter answers].
    rewrite Hcb, Htakes, Hyield, Hclosure. cbn [fst]. split; [|split; [done|]].
    + destruct (Z.testbit action 1); [by rewrite <- app_assoc|done].
    + rewrite <- Hclosure. by constructor.
  - injection Hrest as <- <-. cbn [yielded] in Hyield.
    apply applyAction_closure in Ha as ->.
    exists [next]. cbn [takenAmong closureAfter answers].
    rewrite Hcb, Htakes, Hyield. cbn [fst]. split; [|split; [done|]].
    + rewrite app_nil_r. by destruct (Z.testbit action 1); [|rewrite app_nil_r].
    + by repeat constructor.
Qed.

End WalkVisits.

(** X4. Every commit in the results of [walkHistoryLoop] was answered by
    the callback without an error and with [HWTakeCommit] set at its visit:
    the results are, in their order, the commits that the callback took
    among the commits the walk visited, called on them in turn with the
    state its closure had by then; no visit was answered with an error, and
    the closure is left in the state after the last visit. *)
Theorem walkHistoryLoop_results_taken
    (getCommit : sha1 -> outcome Commit) {St : Type}
    (callback : CommitWalkCallback St) (eq : CommitComparator)
    (fuel : nat) (starts : list Commit) (st st' : St) (R : list Commit) :
  walkHistoryLoop getCommit callback eq fuel starts st = Ret (R, st') ->
  exists visited : list Commit,
    R = takenAmong callback st visited
    /\ st' = closureAfter callback st visited
    /\ Forall (fun r => r.2 = None) (answers callback st visited)
    /\ forall (i : nat) (c : Commit),
         R !! i = Some c ->
         exists (j : nat) (action : Z),
           visited !! j = Some c
           /\ answers callback st visited !! j = Some (action, None)
           /\ (Z.land action HWTakeCommit >? 0) = true.
Proof.
  intros (visited & HR & Hst & Hans)%walkLoop_visits. cbn [results closure] in *.
  rewrite app_nil_l in HR. exists visited. do 3 (split; [done|]).
  subst R. clear Hst Hans. setoid_rewrite take_flag. revert st.
  induction visited as [|v visited IH]; intros st i c; [done|].
  cbn [takenAmong answers]. destruct (callback st v) as [st1 [a e]] eqn:Hcb.
  unfold takes at 1. cbn [fst snd]. destruct e as [e|].
  - cbn [app]. intros (j & action & Hj & Ha & Hbit)%IH. by exists (S j), action.
  - rewrite take_flag_zero, negb_involutive. destruct (Z.testbit a 1) eqn:Hbit.
    + destruct i as [|i].
      * intros [= <-]. by exists 0%nat, a.
      * cbn [app lookup]. intros (j & action & Hj & Ha & Hbit')%IH.
        by exists (S j), action.
    + cbn [app]. intros (j & action & Hj & Ha & Hbit')%IH. by exists (S j), action.
Qed.

(** ** A frontier of commits that are all seen *)

Lemma simplifyLoop_all_seen (getCommit : sha1 -> outcome Commit)
    (eq : CommitComparator) (fuel : nat) (seen0 : gset sha1) (roots0 : list Commit) :
  forall newRoots : list Commit,
    (forall c, c ∈ roots0 -> Id c ∈ seen0) ->
    simplifyLoop getCommit (S fuel) roots0 eq seen0 newRoots = Ret (newRoots, seen0).
Proof.
  induction roots0 as [|c roots0 IH]; intros newRoots Hseen; [done|].
  cbn [simplifyLoop skipEqualCommits].
  destruct (decide (Id c ∈ seen0)) as [_|Hnotin].
  - cbn [mbind outcome_bind]. apply IH. intros d Hd. apply Hseen. by right.
  - exfalso. apply Hnotin, Hseen. left.
Qed.

(** X5. When the frontier is not empty and all its commits are in [seen],
    the loop of [walkHistoryLoop] does not return the results: simplification
    leaves no commit, and [extractNewestCommit] panics on [roots[0]]. *)
Theorem walkLoop_all_seen_panics (getCommit : sha1 -> outcome Commit) {St : Type}
    (callback : CommitWalkCallback St) (eq : CommitComparator)
    (fuel : nat) (w : walker St) :
  roots w <> [] ->
  (forall c, c ∈ roots w -> Id c ∈ seen w) ->
  walkLoop getCommit callback eq (S fuel) w = Panic "index out of range".
Proof.
  intros Hroots Hseen. cbn [walkLoop]. unfold walkIteration.
  destruct (roots w) as [|c0 tl] eqn:Hw; [done|].
  unfold simplifyRoots. by rewrite simplifyLoop_all_seen.
Qed.

(** ** The callbacks in a walk *)

(** X6. A walk with the path checker returns only commits in whose tree the
    path is found. *)
Theorem walkHistoryLoop_makePathChecker
    (getCommit : sha1 -> outcome Commit)
    (GetTreeEntryByPath : Commit -> string -> TreeEntry + error) {St : Type}
    (path : string) (eq : CommitComparator)
    (fuel : nat) (starts : list Commit) (st st' : St) (R : list Commit) :
  walkHistoryLoop getCommit (makePathChecker GetTreeEntryByPath path) eq fuel starts st
  = Ret (R, st') ->
  forall c, c ∈ R -> exists entry, GetTreeEntryByPath c path = inl entry.
Proof.
  intros Hwalk c Hc.
  assert (Htaken : takenBy (@makePathChecker GetTreeEntryByPath St path) c).
  { revert c Hc. eapply walkLoop_taken; [|exact Hwalk]. intros c []%elem_of_nil. }
  destruct Htaken as (s & s' & action & Hcb & Hbit). revert Hcb.
  unfold makePathChecker. destruct (GetTreeEntryByPath c path) as [entry|err]; [by eauto|].
  destruct (bool_decide (err = ErrNotExist)); [|done].
  intros [= _ <-]. done.
Qed.

Section CounterLaw.

Context {St : Type}.
Variable cb : CommitWalkCallback St.

Lemma toInt64_add_l (a b : Z) : toInt64 (toInt64 a + b) = toInt64 (a + b).
Proof.
  unfold toInt64. f_equal.
  replace ((a + 2 ^ 63) mod 2 ^ 64 - 2 ^ 63 + b + 2 ^ 63)
    with ((a + 2 ^ 63) mod 2 ^ 64 + b) by lia.
  rewrite Zplus_mod_idemp_l. f_equal. lia.
Qed.

(** One call of the counter. *)
Lemma counter_step (v : Counter.vars St) (c : Commit) :
  Counter.callback cb v c
  = ({| Counter.inner := (cb (Counter.inner v) c).1;
        Counter.count := if takes (cb (Counter.inner v) c).2
                         then toInt64 (Counter.count v + 1) else Counter.count v |},
     if takes (cb (Counter.inner v) c).2
     then (Z.ldiff (cb (Counter.inner v) c).2.1 HWTakeCommit, None)
     else (cb (Counter.inner v) c).2).
Proof.
  unfold Counter.callback, takes.
  destruct (cb (Counter.inner v) c) as [st1 [a [e|]]]; cbn [fst snd]; [done|].
  rewrite take_flag, take_flag_zero. by destruct (Z.testbit a 1).
Qed.

Lemma counter_visits (cs : list Commit) :
  forall v : Counter.vars St,
    Counter.inner (closureAfter (Counter.callback cb) v cs)
    = closureAfter cb (Counter.inner v) cs
    /\ toInt64 (Counter.count (closureAfter (Counter.callback cb) v cs))
       = toInt64 (Counter.count v
                  + Z.of_nat (taken (answers cb (Counter.inner v) cs)))
    /\ answers (Counter.callback cb) v cs
       = (fun r => if takes r then (Z.ldiff r.1 HWTakeCommit, None) else r)
           <$> answers cb (Counter.inner v) cs.
Proof.
  induction cs as [|c cs IH]; intros v.
  { cbn. by rewrite Z.add_0_r. }
  cbn [closureAfter answers]. rewrite counter_step. cbn [fst snd].
  destruct (cb (Counter.inner v) c) as [st1 r] eqn:Hcb. cbn [fst snd].
  match goal with |- context [closureAfter _ ?v' cs] =>
    destruct (IH v') as (Hin & Hcount & Hans) end.
  cbn [Counter.inner Counter.count] in *.
  rewrite Hin, Hcount, Hans, taken_cons. split; [done|]. split; [|done].
  destruct (takes r); [|done]. rewrite toInt64_add_l. f_equal. lia.
Qed.

End CounterLaw.

Lemma toInt64_range (z : Z) : - 2 ^ 63 <= toInt64 z < 2 ^ 63.
Proof. unfold toInt64. pose proof (Z.mod_pos_bound (z + 2 ^ 63) (2 ^ 64)). lia. Qed.

Lemma counter_range {St : Type} (cb : CommitWalkCallback St) (cs : list Commit) :
  forall v : Counter.vars St,
    - 2 ^ 63 <= Counter.count v < 2 ^ 63 ->
    - 2 ^ 63 <= Counter.count (closureAfter (Counter.callback cb) v cs) < 2 ^ 63.
Proof.
  induction cs as [|c cs IH]; intros v Hv; [done|].
  cbn [closureAfter]. apply IH. rewrite counter_step. cbn [fst Counter.count].
  destruct (takes (cb (Counter.inner v) c).2); [apply toInt64_range | done].
Qed.

Lemma counter_never_takes {St : Type} (cb : CommitWalkCallback St)
    (v : Counter.vars St) (c : Commit) :
  takes (Counter.callback cb v c).2 = false.
Proof.
  rewrite counter_step. cbn [snd].
  destruct (takes (cb (Counter.inner v) c).2) eqn:Htakes; [|done].
  unfold takes. cbn [fst snd]. rewrite take_flag_zero.
  by destruct (ldiff_take_bits (cb (Counter.inner v) c).2.1) as (-> & _).
Qed.

(** X7. After any sequence of visits, the getter of a counter returns the
    number of commits that the wrapped callback has taken, as a Go [int];
    the counter never answers with [HWTakeCommit]: it strips it from the
    answers that have it and passes the others on; so a walk with a counter
    returns no results. *)
Theorem makeCounter_law {St : Type} (cb : option (CommitWalkCallback St)) (st : St) :
  let cb' := match cb with Some cb => cb | None => nopCallback end in
  let callback := (Counter.makeCounter cb st).1.1 in
  let v := (Counter.makeCounter cb st).1.2 in
  let getter := (Counter.makeCounter cb st).2 in
  (forall cs : list Commit,
     getter (closureAfter callback v cs)
     = toInt64 (Z.of_nat (taken (answers cb' st cs)))
     /\ answers callback v cs
        = (fun r => if takes r then (Z.ldiff r.1 HWTakeCommit, None) else r)
            <$> answers cb' st cs)
  /\ (forall (v' : Counter.vars St) (c : Commit), takes (callback v' c).2 = false)
  /\ (forall (getCommit : sha1 -> outcome Commit) (eq : CommitComparator)
        (fuel : nat) (starts R : list Commit) (v' : Counter.vars St),
        walkHistoryLoop getCommit callback eq fuel starts v = Ret (R, v') -> R = []).
Proof.
  intros cb' callback v getter. unfold callback, v, getter, Counter.makeCounter.
  cbn [fst snd]. fold cb'. split; [|split].
  - intros cs.
    destruct (counter_visits cb' cs {| Counter.inner := st; Counter.count := 0 |})
      as (_ & Hcount & Hans).
    split; [|done]. cbn [Counter.inner Counter.count] in Hcount.
    rewrite Z.add_0_l in Hcount. rewrite <- Hcount. symmetry.
    apply toInt64_small. by apply counter_range.
  - apply counter_never_takes.
  - intros getCommit eq fuel starts R v' Hwalk.
    assert (Hnone : forall c, c ∈ R -> False).
    { intros c Hc.
      assert (Htaken : takenBy (Counter.callback cb') c).
      { revert c Hc. eapply walkLoop_taken; [|exact Hwalk]. intros c []%elem_of_nil. }
      destruct Htaken as (s & s' & action & Hcb & Hbit).
      pose proof (counter_never_takes cb' s c) as Hnever. rewrite Hcb in Hnever.
      unfold takes in Hnever. cbn [fst snd] in Hnever.
      rewrite take_flag_zero, Hbit in Hnever. done. }
    destruct R as [|c R]; [done|]. exfalso. apply (Hnone c). left.
Qed.

(** ** The path comparator as a relation *)

(** X8. The comparator of [makePathComparator] is symmetric and
    transitive; a commit is equal to itself exactly when its lookup
    succeeds or fails with [ErrNotExist]. *)
Theorem makePathComparator_relation
    (GetTreeEntryByPath : Commit -> string -> TreeEntry + error) (path : string) :
  let eq := makePathComparator GetTreeEntryByPath path in
  (forall a b : Commit, eq a b = eq b a)
  /\ (forall a b c : Commit, eq a b = true -> eq b c = true -> eq a c = true)
  /\ (forall a : Commit,
        eq a a = true
        <-> errOf (GetTreeEntryByPath a path) = None
            \/ errOf (GetTreeEntryByPath a path) = Some ErrNotExist).
Proof.
  intros eq. unfold eq, makePathComparator. split; [|split].
  - intros a b.
    destruct (GetTreeEntryByPath a path) as [ea|ea], (GetTreeEntryByPath b path) as [eb|eb];
      cbn [errOf].
    + apply bool_decide_ext. split; congruence.
    + by rewrite andb_comm.
    + by rewrite andb_comm.
    + by rewrite andb_comm.
  - intros a b c.
    destruct (GetTreeEntryByPath a path) as [ea|ea], (GetTreeEntryByPath b path) as [eb|eb],
      (GetTreeEntryByPath c path) as [ec|ec]; cbn [errOf];
      rewrite ?andb_true_iff, ?bool_decide_eq_true; try done;
      try (intros [? ?]; done); try (intros ? [? ?]; done).
    + congruence.
    + intros [Ha _] [_ Hc]. done.
  - intros a. destruct (GetTreeEntryByPath a path) as [ea|ea]; cbn [errOf].
    + rewrite bool_decide_eq_true. split; [by left|done].
    + rewrite andb_true_iff, bool_decide_eq_true. split; [intros [? _]; by right|].
      intros [? | ?]; done.
Qed.

(** ** The value that readLenInPackFile decodes *)

Lemma land_127 (b : Z) : 0 <= Z.land b 0x7F < 128.
Proof.
  change 0x7F with (Z.ones 7). rewrite Z.land_ones by lia.
  apply Z.mod_pos_bound. lia.
Qed.

Lemma land_15 (b : Z) : 0 <= Z.land b 0x0F < 16.
Proof.
  change 0x0F with (Z.ones 4). rewrite Z.land_ones by lia.
  apply Z.mod_pos_bound. lia.
Qed.

Lemma shift_lookup_value (i : nat) :
  (1 <= i <= 9)%nat -> shift !! i = Some (4 + 7 * (Z.of_nat i - 1)).
Proof.
  intros Hi. do 10 (destruct i as [|i]; [try lia; reflexivity|]). lia.
Qed.

Lemma packLengthTail_bound (bs : list Z) :
  forall sh length : Z, 0 <= sh -> 0 <= length < 2 ^ sh ->
    0 <= length + packLengthTail bs sh < 2 ^ (sh + 7 * Z.of_nat (List.length bs)).
Proof.
  induction bs as [|b bs IH]; intros sh length Hsh Hlen.
  { cbn [packLengthTail List.length]. by rewrite !Z.add_0_r. }
  cbn [packLengthTail List.length]. pose proof (land_127 b) as Hb.
  assert (Hpow : 2 ^ (sh + 7) = 128 * 2 ^ sh) by (rewrite Z.pow_add_r by lia; lia).
  replace (sh + 7 * Z.of_nat (S (List.length bs)))
    with (sh + 7 + 7 * Z.of_nat (List.length bs)) by lia.
  rewrite Z.add_assoc. apply IH; [lia|nia].
Qed.

Lemma readLenLoop_value (buf rest : list Z) :
  forall (b : Z) (length : Z) (advance fuel : nat),
    buf !! advance = Some b ->
    (forall (i : nat) (c : Z), rest !! i = Some c -> buf !! (S advance + i)%nat = Some c) ->
    continued b rest = true ->
    (advance + List.length rest <= 8)%nat ->
    (List.length rest <= fuel)%nat ->
    0 <= length < 2 ^ (4 + 7 * Z.of_nat advance) ->
    readLenLoop fuel buf length advance
    = Ret (length + packLengthTail rest (4 + 7 * Z.of_nat advance),
           S (advance + List.length rest)).
Proof.
  induction rest as [|c rest IH]; intros b length advance fuel Hb Hrest Hcont Hn Hfuel Hlen.
  - cbn [continued] in Hcont. apply negb_true_iff in Hcont.
    destruct fuel; cbn [readLenLoop]; rewrite (proj2 (index_Ret _ _ _) Hb);
      cbn [mbind outcome_bind]; rewrite land_bit7, Hcont;
      cbn [packLengthTail List.length]; by rewrite Z.add_0_r, Nat.add_0_r.
  - cbn [continued] in Hcont. apply andb_true_iff in Hcont as [Hbit Hcont].
    cbn [List.length] in Hn, Hfuel. destruct fuel as [|fuel]; [lia|].
    cbn [readLenLoop]. rewrite (proj2 (index_Ret _ _ _) Hb).
    cbn [mbind outcome_bind]. rewrite land_bit7, Hbit.
    assert (Hc : buf !! S advance = Some c).
    { specialize (Hrest 0%nat c eq_refl). by rewrite Nat.add_0_r in Hrest. }
    rewrite (proj2 (index_Ret _ _ _) Hc). cbn [mbind outcome_bind].
    rewrite (proj2 (index_Ret _ _ _) (shift_lookup_value (S advance) ltac:(lia))).
    cbn [mbind outcome_bind].
    replace (4 + 7 * (Z.of_nat (S advance) - 1)) with (4 + 7 * Z.of_nat advance) by lia.
    rewrite Z.shiftl_mul_pow2 by lia.
    pose proof (land_127 c) as Hc127.
    assert (Hpow : 2 ^ (4 + 7 * Z.of_nat (S advance))
                   = 128 * 2 ^ (4 + 7 * Z.of_nat advance)).
    { replace (4 + 7 * Z.of_nat (S advance)) with (4 + 7 * Z.of_nat advance + 7) by lia.
      rewrite Z.pow_add_r by lia. lia. }
    assert (Hmax : 2 ^ (4 + 7 * Z.of_nat (S advance)) <= 2 ^ 60).
    { apply Z.pow_le_mono_r; lia. }
    assert (Hnew : 0 <= length + Z.land c 127 * 2 ^ (4 + 7 * Z.of_nat advance)
                   < 2 ^ (4 + 7 * Z.of_nat (S advance))) by nia.
    rewrite toInt64_small by lia.
    rewrite (IH c _ (S advance) fuel Hc); [| |done|lia|lia|done].
    + cbn [packLengthTail List.length]. do 2 f_equal; [|lia].
      replace (4 + 7 * Z.of_nat (S advance)) with (4 + 7 * Z.of_nat advance + 7) by lia.
      lia.
    + intros i d Hd. specialize (Hrest (S i) d Hd).
      by replace (S (S advance) + i)%nat with (S advance + S i)%nat by lia.
Qed.

(** X9. On a buffer that starts with a header of at most 9 bytes, every
    byte but the last with bit 7 set, [readLenInPackFile] returns the low 4
    bits of the first byte plus the low 7 bits of each later byte at the shifts
    4, 11, 18, ..., and the number of header bytes; no wrap-around occurs
    and the length is below [2 ^ (4 + 7 n)] for [n] later bytes. *)
Theorem readLenInPackFile_value (buf : list Z) (b0 : Z) (rest : list Z) :
  buf !! 0%nat = Some b0 ->
  (forall (i : nat) (c : Z), rest !! i = Some c -> buf !! S i = Some c) ->
  continued b0 rest = true ->
  (List.length rest <= 8)%nat ->
  readLenInPackFile buf = Ret (packLength b0 rest, S (List.length rest))
  /\ 0 <= packLength b0 rest < 2 ^ (4 + 7 * Z.of_nat (List.length rest)).
Proof.
  intros Hb0 Hrest Hcont Hn. pose proof (land_15 b0) as H15. split.
  - unfold readLenInPackFile. rewrite (proj2 (index_Ret _ _ _) Hb0).
    cbn [mbind outcome_bind].
    rewrite (readLenLoop_value buf rest b0 _ 0 _ Hb0 Hrest Hcont); [done|lia| |].
    + cbn [List.length shift]. lia.
    + change (2 ^ (4 + 7 * Z.of_nat 0)) with 16. lia.
  - unfold packLength. apply packLengthTail_bound; [lia|]. change (2 ^ 4) with 16. lia.
Qed.

(** ** The flag and the value of a 32-bit index offset *)

(** X10. For a 32-bit value, [isIdxOffsetValue64] returns whether it is at
    least [2 ^ 31], and what is left below [2 ^ 31]: the value is the sum of
    the flag's bit and the rest. *)
Theorem isIdxOffsetValue64_spec (v : Z) :
  0 <= v < 2 ^ 32 ->
  isIdxOffsetValue64 v = (2 ^ 31 <=? v, v mod 2 ^ 31)
  /\ v = (if 2 ^ 31 <=? v then 2 ^ 31 else 0) + v mod 2 ^ 31.
Proof.
  intros Hv.
  assert (Hbit : Z.testbit v 31 = (2 ^ 31 <=? v)).
  { rewrite Z.testbit_odd, Z.shiftr_div_pow2 by lia.
    assert (Hq : 0 <= v / 2 ^ 31 < 2).
    { split; [apply Z.div_pos; lia|]. apply Z.div_lt_upper_bound; lia. }
    destruct (Z.leb_spec (2 ^ 31) v) as [Hle|Hlt].
    - assert (v / 2 ^ 31 = 1) as ->; [|done].
      assert (1 <= v / 2 ^ 31) by (apply Z.div_le_lower_bound; lia). lia.
    - by rewrite Z.div_small by lia. }
  assert (Hmod : v mod 2 ^ 31 = v - (if 2 ^ 31 <=? v then 2 ^ 31 else 0)).
  { destruct (Z.leb_spec (2 ^ 31) v) as [Hle|Hlt].
    - symmetry. apply (Z.mod_unique_pos v (2 ^ 31) 1); lia.
    - rewrite Z.mod_small; lia. }
  split; [|lia]. unfold isIdxOffsetValue64. change (Z.shiftl 1 31) with (2 ^ 31).
  f_equal.
  - by rewrite land_flag_pos by lia.
  - apply Z.bits_inj'. intros n Hn. rewrite Z.ldiff_spec, Z.pow2_bits_eqb by lia.
    destruct (Z.ltb_spec n 31) as [Hlt|Hge].
    + rewrite Z.mod_pow2_bits_low by lia.
      destruct (Z.eqb_spec 31 n); [lia|]. by rewrite andb_true_r.
    + rewrite Z.mod_pow2_bits_high by lia.
      destruct (Z.eqb_spec 31 n) as [<-|Hne]; [by rewrite andb_false_r|].
      destruct (decide (v = 0)) as [->|Hv0]; [by rewrite Z.bits_0|].
      rewrite Z.bits_above_log2; [done|lia|].
      apply Z.log2_lt_pow2; [lia|]. 
      assert (2 ^ 32 <= 2 ^ n) by (apply Z.pow_le_mono_r; lia). lia.
Qed.

(** ** Reading the parts of an index file *)

Lemma io_ReadFull_inv (r : list Z) (k : nat) (bs r' : list Z) :
  io_ReadFull r k = Ret (bs, r') ->
  (k <= List.length r)%nat /\ bs = take k r /\ r' = drop k r.
Proof.
  unfold io_ReadFull. destruct (Nat.ltb_spec (List.length r) k); [done|].
  by intros [= <- <-].
Qed.

Lemma io_CopyN_Discard_inv (r : list Z) (k : nat) (r' : list Z) :
  io_CopyN_Discard r k = Ret r' -> (k <= List.length r)%nat /\ r' = drop k r.
Proof.
  unfold io_CopyN_Discard. destruct (Nat.ltb_spec (List.length r) k); [done|].
  by intros [= <-].
Qed.

Lemma binary_Read_inv (r : list Z) (w n : nat) (vals r' : list Z) :
  binary_Read r w n = Ret (vals, r') ->
  (w * n <= List.length r)%nat /\ vals = bigEndians w n (take (w * n) r)
  /\ r' = drop (w * n) r.
Proof.
  unfold binary_Read. intros ([bs r1] & (Hlen & -> & ->)%io_ReadFull_inv & [= <- <-])%bind_Ret_inv.
  done.
Qed.

Lemma bigEndians_lookup (w : nat) (n : nat) :
  forall (bs : list Z) (i : nat),
    (i < n)%nat ->
    bigEndians w n bs !! i = Some (bigEndian (take w (drop (w * i) bs))).
Proof.
  induction n as [|n IH]; intros bs i Hi; [lia|].
  cbn [bigEndians]. destruct i as [|i].
  - by rewrite Nat.mul_0_r.
  - cbn [lookup list_lookup]. change (bigEndians w n (drop w bs) !! i = 
      Some (bigEndian (take w (drop (w * S i) bs)))).
    rewrite IH by lia. rewrite drop_drop.
    by replace (w * S i)%nat with (w + w * i)%nat by (rewrite Nat.mul_succ_r; lia).
Qed.

Lemma checkIdxVersion_inv (r magic r' : list Z) (version : Z) :
  checkIdxVersion r magic version = Ret r' ->
  (8 <= List.length r)%nat /\ r' = drop 8 r /\ take 4 r = magic
  /\ bigEndian (take 4 (drop 4 r)) = version.
Proof.
  unfold checkIdxVersion.
  intros ([buf r1] & (Hlen & -> & ->)%io_ReadFull_inv & Hrest)%bind_Ret_inv.
  destruct (bool_decide_reflect (magic = take 4 (take 8 r))) as [Hmagic|]; [|done].
  destruct (Z.eqb_spec (bigEndian (drop 4 (take 8 r))) version) as [Hversion|]; [|done].
  injection Hrest as <-. split; [done|]. split; [done|]. split.
  - rewrite Hmagic, take_take. done.
  - by rewrite (take_drop_commute r 4 4).
Qed.

Lemma readIds_inv (n : nat) :
  forall (r : list Z) (ids : list (list Z)) (r' : list Z),
    readIds n r = Ret (ids, r') ->
    (20 * n <= List.length r)%nat /\ ids = chunks 20 n r /\ r' = drop (20 * n) r.
Proof.
  induction n as [|n IH]; intros r ids r'.
  { intros [= <- <-]. split; [simpl; lia|done]. }
  cbn [readIds]. destruct (Nat.ltb_spec (List.length r) 20) as [|Hlen]; [done|].
  intros ([ids' r1] & (Hlen' & -> & ->)%IH & [= <- <-])%bind_Ret_inv.
  rewrite length_drop in Hlen'. split; [lia|]. split; [done|].
  rewrite drop_drop. f_equal. lia.
Qed.

Lemma readOffsets_inv (ids : list (list Z)) :
  forall (r : list Z) (m : gmap (list Z) Z) (links : list (list Z * Z))
    (m' : gmap (list Z) Z) (links' : list (list Z * Z)) (r' : list Z),
    readOffsets ids r m links = Some (m', links', r') ->
    (4 * List.length ids <= List.length r)%nat
    /\ r' = drop (4 * List.length ids) r
    /\ dom m' ∪ list_to_set links'.*1 = dom m ∪ list_to_set links.*1 ∪ list_to_set ids.
Proof.
  induction ids as [|id ids IH]; intros r m links m' links' r'.
  { intros [= <- <- <-]. split; [simpl; lia|]. split; [done|]. set_solver. }
  cbn [readOffsets].
  destruct (binary_Read r 4 1) as [[vals r1]| | | |] eqn:Hread; try done.
  apply binary_Read_inv in Hread as (Hlen & -> & ->).
  cbn [bigEndians]. destruct (isIdxOffsetValue64 _) as [[|] ov].
  - intros (Hlen' & -> & Hdom)%IH. rewrite length_drop in Hlen'.
    cbn [List.length]. split; [lia|]. split; [rewrite drop_drop; f_equal; lia|].
    rewrite Hdom, fmap_app, list_to_set_app_L. cbn [fmap list_fmap fst list_to_set].
    set_solver.
  - intros (Hlen' & -> & Hdom)%IH. rewrite length_drop in Hlen'.
    cbn [List.length]. split; [lia|]. split; [rewrite drop_drop; f_equal; lia|].
    rewrite Hdom, dom_insert_L. cbn [list_to_set]. set_solver.
Qed.

Lemma lookupLargeOffsets_dom (links : list (list Z * Z)) (table : list Z) :
  forall m m' : gmap (list Z) Z,
    lookupLargeOffsets links table m = Ret m' ->
    dom m' = dom m ∪ list_to_set links.*1.
Proof.
  induction links as [|[id offset] links IH]; intros m m'.
  { intros [= <-]. set_solver. }
  cbn [lookupLargeOffsets]. destruct (table !! Z.to_nat offset) as [v|]; [|done].
  intros ->%IH. rewrite dom_insert_L. cbn [fmap list_fmap fst list_to_set]. set_solver.
Qed.

(** X11. [checkIdxVersion] returns without an error exactly when the
    reader starts with the 4 bytes of the magic and 4 bytes that are the
    version in big-endian order; it then leaves the reader after these 8
    bytes.  In every other case it returns an error. *)
Theorem checkIdxVersion_Ret_iff (r magic : list Z) (version : Z) :
  (forall r' : list Z,
     checkIdxVersion r magic version = Ret r'
     <-> exists ver : list Z,
           r = magic ++ ver ++ r' /\ List.length magic = 4%nat
           /\ List.length ver = 4%nat /\ bigEndian ver = version)
  /\ ((exists r', checkIdxVersion r magic version = Ret r')
      \/ exists e, checkIdxVersion r magic version = Err e).
Proof.
  split.
  - intros r'. split.
    + intros (Hlen & -> & <- & <-)%checkIdxVersion_inv.
      exists (take 4 (drop 4 r)). split; [|split; [|split; [|done]]].
      * transitivity (take 4 r ++ drop 4 r); [by rewrite take_drop|]. f_equal.
        rewrite <- (take_drop 4 (drop 4 r)) at 1. by rewrite drop_drop.
      * rewrite length_take. lia.
      * rewrite length_take, length_drop. lia.
    + intros (ver & -> & Hmagic & Hver & <-). unfold checkIdxVersion, io_ReadFull.
      rewrite !length_app.
      destruct (Nat.ltb_spec (List.length magic + (List.length ver + List.length r')) 8);
        [lia|].
      cbn [mbind outcome_bind].
      assert (Htake : take 8 (magic ++ ver ++ r') = magic ++ ver).
      { rewrite app_assoc. apply take_app_length'. rewrite length_app. lia. }
      assert (Hdrop : drop 8 (magic ++ ver ++ r') = r').
      { rewrite app_assoc. apply drop_app_length'. rewrite length_app. lia. }
      rewrite Htake, Hdrop.
      rewrite (take_app_length' magic ver 4) by done.
      rewrite (drop_app_length' magic ver 4) by done.
      rewrite bool_decide_eq_true_2 by done. by rewrite Z.eqb_refl.
  - unfold checkIdxVersion, io_ReadFull.
    destruct (List.length r <? 8)%nat; cbn [mbind outcome_bind]; [right; eauto|].
    destruct (bool_decide (magic = take 4 (take 8 r))); [|right; eauto].
    destruct (bigEndian (drop 4 (take 8 r)) =? version); [left|right]; eauto.
Qed.

(** X12. When [readIdxFile] returns an index, the index file starts with
    the magic and version 2, the keys of [offsetValues] are exactly the
    object ids listed in the file (as many as entry 255 of the fanout table
    says), the 20 bytes after the parsed part are the digest of the bytes
    before them, and the sibling pack, whose path replaces the last 3
    characters of the index path by "pack", starts with "PACK" and
    version 2. *)
Theorem readIdxFile_accepts (sha1sum : list Z -> list Z) (fs : filesystem)
    (path : string) (f : idxFile) :
  readIdxFile sha1sum fs path = Ret (Some f) ->
  indexpath f = path /\ packversion f = 2
  /\ replaceSuffix path 3 "pack" = Ret (packpath f)
  /\ exists idxf pack : list Z,
       fs !! path = Some idxf /\ fs !! packpath f = Some pack
       /\ take 4 idxf = [255; 116; 79; 99] /\ bigEndian (take 4 (drop 4 idxf)) = 2
       /\ take 4 pack = [80; 65; 67; 75] /\ bigEndian (take 4 (drop 4 pack)) = 2
       /\ dom (offsetValues f)
          = list_to_set (chunks 20 (Z.to_nat (bigEndian (take 4 (drop 1028 idxf))))
                           (drop 1032 idxf))
       /\ exists k : nat,
            (1052 + 28 * Z.to_nat (bigEndian (take 4 (drop 1028 idxf))) <= k)%nat
            /\ (k + 20 <= List.length idxf)%nat
            /\ take 20 (drop k idxf) = sha1sum (take k idxf).
Proof.
  unfold readIdxFile.
  intros (packpath0 & Hpackpath & Hrest)%bind_Ret_inv.
  apply bind_Ret_inv in Hrest as (idxf & Hopen & Hrest).
  apply bind_Ret_inv in Hrest as (r1 & (Hlen1 & -> & Hmagic & Hversion)%checkIdxVersion_inv & Hrest).
  apply bind_Ret_inv in Hrest as ([fanout r2] & (Hlen2 & -> & ->)%binary_Read_inv & Hrest).
  apply bind_Ret_inv in Hrest as (n & Hn%index_Ret & Hrest).
  rewrite bigEndians_lookup in Hn by lia. injection Hn as Hn.
  apply bind_Ret_inv in Hrest as ([ids r3] & (Hlen3 & -> & ->)%readIds_inv & Hrest).
  apply bind_Ret_inv in Hrest as (r4 & (Hlen4 & ->)%io_CopyN_Discard_inv & Hrest).
  destruct (readOffsets _ _ _ _) as [[[m1 links] r5]|] eqn:Hoffsets; [|done].
  apply readOffsets_inv in Hoffsets as (Hlen5 & -> & Hdom1).
  destruct (binary_Read _ _ _) as [[table r6]| | | |] eqn:Htable; try done.
  apply binary_Read_inv in Htable as (Hlen6 & -> & ->).
  apply bind_Ret_inv in Hrest as (m2 & Hdom2%lookupLargeOffsets_dom & Hrest).
  apply bind_Ret_inv in Hrest as (r7 & (Hlen7 & ->)%io_CopyN_Discard_inv & Hrest).
  apply bind_Ret_inv in Hrest as ([hashFile r8] & (Hlen8 & -> & ->)%io_ReadFull_inv & Hrest).
  match type of Hrest with
  | context [bool_decide (?a = ?b)] =>
      destruct (bool_decide_reflect (a = b)) as [Hsum|]; [|done]
  end.
  apply bind_Ret_inv in Hrest as (pack & Hpack & Hrest).
  apply bind_Ret_inv in Hrest as (r9 & (_ & _ & Hpmagic & Hpversion)%checkIdxVersion_inv & [= <-]).
  cbn [indexpath packversion packpath offsetValues].
  split; [done|]. split; [done|]. split; [done|].
  unfold os_Open in Hopen, Hpack.
  destruct (fs !! path) as [idxf'|] eqn:Hfs; [|done]. injection Hopen as ->.
  destruct (fs !! packpath0) as [pack'|] eqn:Hfsp; [|done]. injection Hpack as ->.
  exists idxf, pack. split; [done|]. split; [done|]. split; [done|]. split; [done|].
  split; [done|]. split; [done|].
  (* the entry 255 of the fanout table *)
  assert (Hnv : n = bigEndian (take 4 (drop 1028 idxf))).
  { rewrite <- Hn. f_equal. change (4 * 255)%nat with 1020%nat.
    change (4 * 256)%nat with 1024%nat.
    rewrite (take_drop_commute (take 1024 (drop 8 idxf)) 4 1020), take_take.
    replace ((1020 + 4) `min` 1024)%nat with (1020 + 4)%nat by lia.
    by rewrite <- take_drop_commute, drop_drop. }
  rewrite <- Hnv. rewrite !length_drop in *. rewrite !drop_drop in *.
  change (8 + 4 * 256)%nat with 1032%nat in *.
  set (N := Z.to_nat n) in *.
  split.
  - rewrite Hdom2. rewrite dom_empty_L in Hdom1.
    cbn [fmap list_fmap list_to_set] in Hdom1.
    assert (Hd : dom m1 ∪ list_to_set links.*1
                 = list_to_set (chunks 20 N (drop 1032 idxf))) by set_solver.
    exact Hd.
  - assert (Hids : List.length (chunks 20 N (drop 1032 idxf)) = N).
    { generalize (drop 1032 idxf). clear. induction N as [|N IH]; intros l; [done|].
      cbn [chunks List.length]. by rewrite IH. }
    rewrite Hids in *.
    exists (8 + (4 * 256 + (20 * N + (4 * N + (4 * N + (8 * List.length links + 20))))))%nat.
    split; [lia|]. split; [lia|]. rewrite Hsum. do 2 f_equal. lia.
Qed.

(** ** Objects that are their own base *)

Section PackRecursion.

Variable readerDecompressed : list Z -> outcome (list Z).
Variable readerLittleEndianBase128Number : list Z -> Z * nat.
Variable readerApplyDelta : list Z -> list Z -> Z -> outcome (list Z).
Variable fs : filesystem.

(** The call of [readObjectBytes] on an object that is not a commit, a
    tree, a blob or a tag: what it does with the read of the base. *)
Lemma readObjectBytes_delta_step (fuel : nat) (path : string)
    (indexfiles : gmap string idxFile) (offset : Z) (sizeonly : bool)
    (file buf : list Z) (n : nat) (b0 l : Z) (p : nat) (base : Z) (pos : nat) :
  fs !! path = Some file ->
  0 <= offset < 2 ^ 63 ->
  file_Read file offset 1024 = Ret (buf, n) ->
  buf !! 0%nat = Some b0 ->
  isPlainObject (Z.land b0 0x70) = false ->
  readLenInPackFile buf = Ret (l, p) ->
  deltaBase indexfiles path buf (Z.land b0 0x70) offset p = Ret (base, pos) ->
  readObjectBytes readerDecompressed readerLittleEndianBase128Number
    readerApplyDelta fs (S fuel) path indexfiles offset sizeonly
  = applyDeltaAt readerDecompressed readerLittleEndianBase128Number
      readerApplyDelta file offset pos l sizeonly
      (readObjectBytes readerDecompressed readerLittleEndianBase128Number
         readerApplyDelta fs fuel path indexfiles base false).
Proof.
  intros Hfs Hoff Hread Hb0 Hplain Hlen Hbase.
  cbn [readObjectBytes]. unfold os_Open. rewrite Hfs. cbn [mbind outcome_bind].
  rewrite toInt64_small by lia. rewrite (file_Seek_nonneg offset) by lia.
  cbn [mbind outcome_bind]. rewrite Hread. cbn [mbind outcome_bind].
  destruct (Nat.eqb_spec n 0) as [Hn|_]; [by apply file_Read_nonzero in Hread|].
  rewrite (proj2 (index_Ret _ _ _) Hb0). cbn [mbind outcome_bind].
  rewrite Hlen. cbn [mbind outcome_bind]. rewrite Hplain, Hbase. done.
Qed.

(** X13. An OffsetDelta object whose distance to its base decodes to 0 has
    itself as base: [readObjectBytes] calls itself on the same offset, and,
    as long as the pack can be opened, no depth of nested calls returns a
    result or an error. *)
Theorem readObjectBytes_offset_delta_zero (path : string)
    (indexfiles : gmap string idxFile) (offset : Z)
    (file buf : list Z) (n : nat) (b0 l : Z) (p : nat) (first : Z) :
  fs !! path = Some file ->
  0 <= offset < 2 ^ 63 ->
  file_Read file offset 1024 = Ret (buf, n) ->
  buf !! 0%nat = Some b0 ->
  Z.land b0 0x70 = 0x60 ->
  readLenInPackFile buf = Ret (l, p) ->
  buf !! p = Some first ->
  Z.testbit first 7 = false ->
  Z.land first 0x7f = 0 ->
  forall (fuel : nat) (sizeonly : bool),
    readObjectBytes readerDecompressed readerLittleEndianBase128Number
      readerApplyDelta fs fuel path indexfiles offset sizeonly
    = OutOfFuel.
Proof.
  intros Hfs Hoff Hread Hb0 Hot Hlen Hfirst Hbit Hzero fuel.
  assert (Hbase : deltaBase indexfiles path buf (Z.land b0 0x70) offset p
                  = Ret (offset, S p)).
  { rewrite Hot.
    rewrite (deltaBase_offset indexfiles path buf offset p first [] Hfirst).
    - unfold offsetDeltaNum. cbn [fold_left List.length]. rewrite Hzero, Z.sub_0_r.
      rewrite toUint64_small by lia. by rewrite Nat.add_0_r.
    - intros i b Hb. done.
    - cbn [continued]. by rewrite Hbit. }
  induction fuel as [|fuel IH]; intros sizeonly; [done|].
  rewrite (readObjectBytes_delta_step fuel path indexfiles offset sizeonly
             file buf n b0 l p offset (S p) Hfs Hoff Hread Hb0); [|by rewrite Hot|done|done].
  by rewrite IH.
Qed.

(** X14. An object whose type tag is neither a commit, a tree, a blob or a
    tag nor one of the two deltas (the tags 0 and 5) is read as a delta with
    its base at offset 0; in a pack that starts with "PACK", the object at
    offset 0 has the tag 5, so the read of such an object calls itself on
    offset 0 without end: as long as the pack can be opened, no depth of
    nested calls returns a result or an error. *)
Theorem readObjectBytes_unknown_tag (path : string)
    (indexfiles : gmap string idxFile) (offset : Z)
    (file buf : list Z) (n : nat) (b0 l : Z) (p : nat) :
  fs !! path = Some file ->
  file !! 0%nat = Some 0x50 ->
  0 <= offset < 2 ^ 63 ->
  file_Read file offset 1024 = Ret (buf, n) ->
  buf !! 0%nat = Some b0 ->
  Z.land b0 0x70 = 0 \/ Z.land b0 0x70 = 0x50 ->
  readLenInPackFile buf = Ret (l, p) ->
  forall (fuel : nat) (sizeonly : bool),
    readObjectBytes readerDecompressed readerLittleEndianBase128Number
      readerApplyDelta fs fuel path indexfiles offset sizeonly
    = OutOfFuel.
Proof.
  intros Hfs Hmagic Hoff Hread Hb0 Hot Hlen.
  (* the object at offset 0 *)
  destruct (file_Read_lookup file 0 1024 0x50) as (buf0 & n0 & Hread0 & _ & _ & Hbuf0);
    [lia|done|].
  assert (Hb00 : buf0 !! 0%nat = Some 0x50) by (apply Hbuf0; [lia|done]).
  assert (Hlen0 : readLenInPackFile buf0 = Ret (0, 1%nat)).
  { unfold readLenInPackFile. rewrite (proj2 (index_Ret _ _ _) Hb00).
    cbn [mbind outcome_bind List.length shift readLenLoop].
    by rewrite (proj2 (index_Ret _ _ _) Hb00). }
  assert (Hzero : forall (fuel : nat) (sizeonly : bool),
    readObjectBytes readerDecompressed readerLittleEndianBase128Number
      readerApplyDelta fs fuel path indexfiles 0 sizeonly = OutOfFuel).
  { induction fuel as [|fuel IH]; intros sizeonly; [done|].
    rewrite (readObjectBytes_delta_step fuel path indexfiles 0 sizeonly
               file buf0 n0 0x50 0 1 0 1 Hfs ltac:(lia) Hread0 Hb00); [|done..].
    by rewrite IH. }
  intros [|fuel] sizeonly; [done|].
  rewrite (readObjectBytes_delta_step fuel path indexfiles offset sizeonly
             file buf n b0 l p 0 p Hfs Hoff Hread Hb0 ltac:(by destruct Hot as [-> | ->]) Hlen).
  - by rewrite Hzero.
  - by destruct Hot as [-> | ->].
Qed.

End PackRecursion.

(** ** Parsing a signature *)

Lemma indexByteFrom_found (pre post : list Z) (c : Z) :
  forall i : Z,
    c ∉ pre ->
    indexByteFrom (pre ++ c :: post) c i = i + Z.of_nat (List.length pre).
Proof.
  induction pre as [|x pre IH]; intros i Hpre.
  - cbn [app indexByteFrom List.length]. rewrite Z.eqb_refl. lia.
  - cbn [app indexByteFrom List.length]. apply not_elem_of_cons in Hpre as [Hx Hpre].
    destruct (Z.eqb_spec x c) as [|_]; [congruence|]. rewrite IH by done. lia.
Qed.

Lemma indexByteFrom_absent (b : list Z) (c : Z) :
  forall i : Z, c ∉ b -> indexByteFrom b c i = -1.
Proof.
  induction b as [|x b IH]; intros i Hb; [done|].
  cbn [indexByteFrom]. apply not_elem_of_cons in Hb as [Hx Hb].
  destruct (Z.eqb_spec x c) as [|_]; [congruence|]. by apply IH.
Qed.

Lemma sliceBytes_middle (b pre mid post : list Z) (lo hi : Z) :
  b = pre ++ mid ++ post ->
  lo = Z.of_nat (List.length pre) ->
  hi = lo + Z.of_nat (List.length mid) ->
  sliceBytes b lo hi = Ret mid.
Proof.
  intros -> -> ->. unfold sliceBytes. rewrite !length_app.
  destruct (Z.ltb_spec (Z.of_nat (List.length pre)) 0); [lia|].
  destruct (Z.ltb_spec (Z.of_nat (List.length pre) + Z.of_nat (List.length mid))
              (Z.of_nat (List.length pre))); [lia|].
  destruct (Z.ltb_spec (Z.of_nat (List.length pre + (List.length mid + List.length post)))
              (Z.of_nat (List.length pre) + Z.of_nat (List.length mid))); [lia|].
  cbn [orb]. rewrite Nat2Z.id, drop_app_length.
  replace (Z.to_nat _) with (List.length mid) by lia.
  by rewrite take_app_length.
Qed.

Lemma sliceBytes_backwards (b : list Z) (lo hi : Z) :
  hi < lo -> sliceBytes b lo hi = Panic "slice bounds out of range".
Proof.
  intros H. unfold sliceBytes. destruct (Z.ltb_spec hi lo); [|lia].
  by rewrite orb_true_r.
Qed.

Lemma sliceBytes_cases (b : list Z) (lo hi : Z) :
  sliceBytes b lo hi = Panic "slice bounds out of range"
  \/ exists r : list Z, lo <= hi /\ sliceBytes b lo hi = Ret r.
Proof.
  unfold sliceBytes. destruct (Z.ltb_spec lo 0); [by left|].
  destruct (Z.ltb_spec hi lo); [by left|].
  destruct (Z.ltb_spec (Z.of_nat (List.length b)) hi); [by left|].
  right. eauto.
Qed.

#[local] Ltac list_lengths :=
  repeat (rewrite ?length_app; cbn [List.length]); lia.

(** X15. A line that is the string of a signature, a space, a timestamp, a
    space and a time zone is parsed back into the name and the email of the
    signature, with the instant that [strconv.ParseInt] reads from the
    timestamp, or the error of [strconv.ParseInt]; this holds when the name
    has no '<' and no '>', the email no '>' and the timestamp no space. *)
Theorem newSignatureFromCommitline_String
    (strconv_ParseInt : list Z -> outcome Z)
    (sig : Signatures.Signature) (ts tz : list Z) :
  60 ∉ Signatures.Name sig -> 62 ∉ Signatures.Name sig ->
  62 ∉ Signatures.Email sig -> 32 ∉ ts ->
  Signatures.newSignatureFromCommitline strconv_ParseInt
    (Signatures.String sig ++ [32] ++ ts ++ [32] ++ tz)
  = (seconds ← strconv_ParseInt ts;
     Ret {| Signatures.Email := Signatures.Email sig;
            Signatures.Name := Signatures.Name sig;
            Signatures.When := seconds |}).
Proof.
  destruct sig as [email name when]. cbn [Signatures.Name Signatures.Email].
  intros Hname60 Hname62 Hemail Hts.
  unfold Signatures.newSignatureFromCommitline, Signatures.String.
  cbn [Signatures.Name Signatures.Email].
  set (line := (name ++ [32; 60] ++ email ++ [62]) ++ [32] ++ ts ++ [32] ++ tz).
  set (ln := Z.of_nat (List.length name)). set (le := Z.of_nat (List.length email)).
  set (lt := Z.of_nat (List.length ts)).
  assert (Hlen : Z.of_nat (List.length line)
                 = ln + le + lt + Z.of_nat (List.length tz) + 5).
  { unfold line, ln, le, lt. list_lengths. }
  assert (Hstart : bytes_IndexByte line 60 = ln + 1).
  { unfold bytes_IndexByte, line.
    replace ((name ++ [32; 60] ++ email ++ [62]) ++ [32] ++ ts ++ [32] ++ tz)
      with ((name ++ [32]) ++ 60 :: (email ++ [62] ++ [32] ++ ts ++ [32] ++ tz))
      by (by rewrite <- !app_assoc).
    rewrite indexByteFrom_found.
    - unfold ln. list_lengths.
    - intros [H | H%list_elem_of_singleton]%elem_of_app; done. }
  assert (Hstop : bytes_IndexByte line 62 = ln + 2 + le).
  { unfold bytes_IndexByte, line.
    replace ((name ++ [32; 60] ++ email ++ [62]) ++ [32] ++ ts ++ [32] ++ tz)
      with ((name ++ [32; 60] ++ email) ++ 62 :: ([32] ++ ts ++ [32] ++ tz))
      by (by rewrite <- !app_assoc).
    rewrite indexByteFrom_found.
    - unfold ln, le. list_lengths.
    - intros [H | [H | H]%elem_of_app]%elem_of_app; [done| |done].
      apply elem_of_cons in H as [|H]; [done|].
      by apply list_elem_of_singleton in H. }
  rewrite Hstart, Hstop.
  (* the name *)
  rewrite (sliceBytes_middle line [] name
             ([32; 60] ++ email ++ [62] ++ [32] ++ ts ++ [32] ++ tz) 0 (ln + 1 - 1));
    [| by unfold line; rewrite <- !app_assoc | done | unfold ln; list_lengths].
  cbn [mbind outcome_bind].
  (* the email *)
  rewrite (sliceBytes_middle line (name ++ [32; 60]) email
             ([62] ++ [32] ++ ts ++ [32] ++ tz) (ln + 1 + 1) (ln + 2 + le));
    [| by unfold line; rewrite <- !app_assoc | unfold ln; list_lengths
     | unfold ln, le; list_lengths].
  cbn [mbind outcome_bind].
  (* the rest of the line, from the timestamp on *)
  rewrite (sliceBytes_middle line (name ++ [32; 60] ++ email ++ [62; 32])
             (ts ++ [32] ++ tz) [] (ln + 2 + le + 2) (Z.of_nat (List.length line)));
    [| by unfold line; rewrite <- !app_assoc, app_nil_r | unfold ln, le; list_lengths
     | rewrite Hlen; unfold ln, le, lt; list_lengths].
  cbn [mbind outcome_bind].
  assert (Htime : bytes_IndexByte (ts ++ [32] ++ tz) 32 = lt).
  { unfold bytes_IndexByte. cbn [app]. rewrite indexByteFrom_found by done. unfold lt. lia. }
  rewrite Htime.
  rewrite (sliceBytes_middle line (name ++ [32; 60] ++ email ++ [62; 32]) ts
             ([32] ++ tz) (ln + 2 + le + 2) (ln + 2 + le + 2 + lt));
    [| by unfold line; rewrite <- !app_assoc | unfold ln, le; list_lengths
     | unfold ln, le, lt; list_lengths].
  done.
Qed.


(** X16. A line without a '<' or without a '>' makes the parser panic on a
    slice bound, and so does the string of a signature followed by a space
    and a timestamp with no space after it. *)
Theorem newSignatureFromCommitline_panics
    (strconv_ParseInt : list Z -> outcome Z) (line : list Z) :
  (60 ∉ line) \/ (62 ∉ line)
  \/ (exists (sig : Signatures.Signature) (ts : list Z),
        line = Signatures.String sig ++ [32] ++ ts
        /\ (60 ∉ Signatures.Name sig) /\ (62 ∉ Signatures.Name sig)
        /\ (62 ∉ Signatures.Email sig) /\ (32 ∉ ts)) ->
  Signatures.newSignatureFromCommitline strconv_ParseInt line
  = Panic "slice bounds out of range".
Proof.
  intros [H60 | [H62 | (sig & ts & -> & Hname60 & Hname62 & Hemail & Hts)]].
  - unfold Signatures.newSignatureFromCommitline, bytes_IndexByte.
    rewrite (indexByteFrom_absent line 60 0 H60).
    by rewrite (sliceBytes_backwards line 0 (-1 - 1)) by lia.
  - assert (Hstop : bytes_IndexByte line 62 = -1) by by apply indexByteFrom_absent.
    unfold Signatures.newSignatureFromCommitline. cbv zeta. rewrite Hstop.
    set (emailstart := bytes_IndexByte line 60).
    destruct (sliceBytes_cases line 0 (emailstart - 1)) as [-> | (name & Hhi & ->)];
      [done|].
    cbn [mbind outcome_bind].
    by rewrite (sliceBytes_backwards line (emailstart + 1) (-1)) by lia.
  - destruct sig as [email name when]. cbn [Signatures.Name Signatures.Email] in *.
    unfold Signatures.newSignatureFromCommitline, Signatures.String.
    cbn [Signatures.Name Signatures.Email].
    set (line := (name ++ [32; 60] ++ email ++ [62]) ++ [32] ++ ts).
    set (ln := Z.of_nat (List.length name)). set (le := Z.of_nat (List.length email)).
    set (lt := Z.of_nat (List.length ts)).
    assert (Hlen : Z.of_nat (List.length line) = ln + le + lt + 4).
    { unfold line, ln, le, lt. list_lengths. }
    assert (Hstart : bytes_IndexByte line 60 = ln + 1).
    { unfold bytes_IndexByte, line.
      replace ((name ++ [32; 60] ++ email ++ [62]) ++ [32] ++ ts)
        with ((name ++ [32]) ++ 60 :: (email ++ [62] ++ [32] ++ ts))
        by (by rewrite <- !app_assoc).
      rewrite indexByteFrom_found.
      - unfold ln. list_lengths.
      - intros [H | H%list_elem_of_singleton]%elem_of_app; done. }
    assert (Hstop : bytes_IndexByte line 62 = ln + 2 + le).
    { unfold bytes_IndexByte, line.
      replace ((name ++ [32; 60] ++ email ++ [62]) ++ [32] ++ ts)
        with ((name ++ [32; 60] ++ email) ++ 62 :: ([32] ++ ts))
        by (by rewrite <- !app_assoc).
      rewrite indexByteFrom_found.
      - unfold ln, le. list_lengths.
      - intros [H | [H | H]%elem_of_app]%elem_of_app; [done| |done].
        apply elem_of_cons in H as [|H]; [done|].
        by apply list_elem_of_singleton in H. }
    rewrite Hstart, Hstop.
    rewrite (sliceBytes_middle line [] name
               ([32; 60] ++ email ++ [62] ++ [32] ++ ts) 0 (ln + 1 - 1));
      [| by unfold line; rewrite <- !app_assoc | done | unfold ln; list_lengths].
    cbn [mbind outcome_bind].
    rewrite (sliceBytes_middle line (name ++ [32; 60]) email
               ([62] ++ [32] ++ ts) (ln + 1 + 1) (ln + 2 + le));
      [| by unfold line; rewrite <- !app_assoc | unfold ln; list_lengths
       | unfold ln, le; list_lengths].
    cbn [mbind outcome_bind].
    rewrite (sliceBytes_middle line (name ++ [32; 60] ++ email ++ [62; 32])
               ts [] (ln + 2 + le + 2) (Z.of_nat (List.length line)));
      [| by unfold line; rewrite <- !app_assoc, app_nil_r | unfold ln, le; list_lengths
       | rewrite Hlen; unfold ln, le, lt; list_lengths].
    cbn [mbind outcome_bind].
    unfold bytes_IndexByte. rewrite (indexByteFrom_absent ts 32 0 Hts).
    by rewrite (sliceBytes_backwards line (ln + 2 + le + 2) (ln + 2 + le + 2 + -1)) by lia.
Qed.

(** ** Commits, trees, blobs and tags in a pack *)

Section PackObjects.

Variable readerDecompressed : list Z -> outcome (list Z).
Variable readerLittleEndianBase128Number : list Z -> Z * nat.
Variable readerApplyDelta : list Z -> list Z -> Z -> outcome (list Z).
Variable fs : filesystem.

(** X17. For a commit, a tree, a blob or a tag whose header of at most 9
    bytes lies in the pack at the offset, [readObjectBytes] calls itself
    never: it returns the type tag and the length of the header and, when
    the content is asked for, what the inflater gives for the bytes right
    after the header, cut down to that length, or the inflater's error. *)
Theorem readObjectBytes_plain_object (fuel : nat) (path : string)
    (indexfiles : gmap string idxFile) (offset : Z) (sizeonly : bool)
    (file : list Z) (b0 : Z) (rest : list Z) :
  fs !! path = Some file ->
  0 <= offset < 2 ^ 63 ->
  file !! Z.to_nat offset = Some b0 ->
  (forall (i : nat) (c : Z),
     rest !! i = Some c -> file !! (Z.to_nat offset + S i)%nat = Some c) ->
  continued b0 rest = true ->
  (List.length rest <= 8)%nat ->
  isPlainObject (Z.land b0 0x70) = true ->
  readObjectBytes readerDecompressed readerLittleEndianBase128Number
    readerApplyDelta fs (S fuel) path indexfiles offset sizeonly
  = if sizeonly then Ret (Z.land b0 0x70, packLength b0 rest, None)
    else
      dataRc ← readerDecompressed
                 (drop (Z.to_nat offset + S (List.length rest)) file);
      Ret (Z.land b0 0x70, packLength b0 rest,
           Some (take (Z.to_nat (packLength b0 rest)) dataRc)).
Proof.
  intros Hfs Hoff Hb0 Hrest Hcont Hn Hplain.
  destruct (file_Read_lookup file offset 1024 b0) as (buf & n & Hread & Hn0 & _ & Hbuf);
    [lia|done|].
  assert (Hbuf0 : buf !! 0%nat = Some b0).
  { apply Hbuf; [lia|]. by rewrite Nat.add_0_r. }
  assert (Hlen : readLenInPackFile buf = Ret (packLength b0 rest, S (List.length rest))).
  { pose proof (land_15 b0) as H15.
    unfold readLenInPackFile. rewrite (proj2 (index_Ret _ _ _) Hbuf0).
    cbn [mbind outcome_bind].
    rewrite (readLenLoop_value buf rest b0 _ 0 _ Hbuf0); [done| |done|lia| |].
    - intros i c Hc. apply Hbuf.
      + apply lookup_lt_Some in Hc. lia.
      + by apply Hrest.
    - cbn [List.length shift]. lia.
    - change (2 ^ (4 + 7 * Z.of_nat 0)) with 16. lia. }
  cbn [readObjectBytes]. unfold os_Open. rewrite Hfs. cbn [mbind outcome_bind].
  rewrite toInt64_small by lia. rewrite (file_Seek_nonneg offset) by lia.
  cbn [mbind outcome_bind]. rewrite Hread. cbn [mbind outcome_bind].
  destruct (Nat.eqb_spec n 0) as [|_]; [done|].
  rewrite (proj2 (index_Ret _ _ _) Hbuf0). cbn [mbind outcome_bind].
  rewrite Hlen. cbn [mbind outcome_bind]. rewrite Hplain.
  destruct sizeonly; [done|].
  rewrite file_Seek_nonneg by lia. cbn [mbind outcome_bind].
  replace (Z.to_nat (offset + Z.of_nat (S (List.length rest))))
    with (Z.to_nat offset + S (List.length rest))%nat by lia.
  done.
Qed.

(** X18. What [readObjectBytes] returns when there is nothing to read: the
    error of [os.Open] for a pack that does not exist; else the error of
    [Seek] for an offset of [2 ^ 63] or more, which is negative as an
    [int64]; else [io.EOF] for an offset at or after the end of the pack. *)
Theorem readObjectBytes_nothing_to_read (fuel : nat) (path : string)
    (indexfiles : gmap string idxFile) (offset : Z) (sizeonly : bool) :
  0 <= offset < 2 ^ 64 ->
  fs !! path = None \/ 2 ^ 63 <= offset
  \/ (exists file : list Z,
        fs !! path = Some file /\ Z.of_nat (List.length file) <= offset) ->
  readObjectBytes readerDecompressed readerLittleEndianBase128Number
    readerApplyDelta fs (S fuel) path indexfiles offset sizeonly
  = Err (match fs !! path with
         | None => os_PathError path
         | Some _ => if 2 ^ 63 <=? offset then os_PathError "seek" else io_EOF
         end).
Proof.
  intros Hoff Hcase. cbn [readObjectBytes]. unfold os_Open.
  destruct (fs !! path) as [file|] eqn:Hfs; [|done].
  cbn [mbind outcome_bind].
  destruct (Z.leb_spec (2 ^ 63) offset) as [Hbig|Hsmall].
  - assert (Hneg : toInt64 offset = offset - 2 ^ 64).
    { unfold toInt64.
      rewrite <- (Z.mod_unique_pos (offset + 2 ^ 63) (2 ^ 64) 1 (offset - 2 ^ 63)); lia. }
    rewrite Hneg. unfold file_Seek.
    destruct (Z.ltb_spec (offset - 2 ^ 64) 0); [done|lia].
  - destruct Hcase as [? | [? | (file' & [= <-] & Hend)]]; [done|lia|].
    rewrite toInt64_small by lia. rewrite (file_Seek_nonneg offset) by lia.
    cbn [mbind outcome_bind]. unfold file_Read.
    rewrite drop_ge by lia. done.
Qed.

End PackObjects.


(** ** The base of an OffsetDelta object, and what is read through it *)

Section OffsetDeltaBase.

Variable readerDecompressed : list Z -> outcome (list Z).
Variable readerLittleEndianBase128Number : list Z -> Z * nat.
Variable readerApplyDelta : list Z -> list Z -> Z -> outcome (list Z).
Variable fs : filesystem.

(** The call of [readObjectBytes] on a commit, a tree, a blob or a tag. *)
Lemma readObjectBytes_plain_step (fuel : nat) (path : string)
    (indexfiles : gmap string idxFile) (offset : Z) (sizeonly : bool)
    (file buf : list Z) (n : nat) (b0 l : Z) (p : nat) :
  fs !! path = Some file ->
  0 <= offset < 2 ^ 63 ->
  file_Read file offset 1024 = Ret (buf, n) ->
  buf !! 0%nat = Some b0 ->
  isPlainObject (Z.land b0 0x70) = true ->
  readLenInPackFile buf = Ret (l, p) ->
  readObjectBytes readerDecompressed readerLittleEndianBase128Number
    readerApplyDelta fs (S fuel) path indexfiles offset sizeonly
  = if sizeonly then Ret (Z.land b0 0x70, l, None)
    else
      dataRc ← readerDecompressed (drop (Z.to_nat (offset + Z.of_nat p)) file);
      Ret (Z.land b0 0x70, l, Some (take (Z.to_nat l) dataRc)).
Proof.
  intros Hfs Hoff Hread Hb0 Hplain Hlen.
  cbn [readObjectBytes]. unfold os_Open. rewrite Hfs. cbn [mbind outcome_bind].
  rewrite toInt64_small by lia. rewrite (file_Seek_nonneg offset) by lia.
  cbn [mbind outcome_bind]. rewrite Hread. cbn [mbind outcome_bind].
  destruct (Nat.eqb_spec n 0) as [Hn|_]; [by apply file_Read_nonzero in Hread|].
  rewrite (proj2 (index_Ret _ _ _) Hb0). cbn [mbind outcome_bind].
  rewrite Hlen. cbn [mbind outcome_bind]. rewrite Hplain.
  destruct sizeonly; [done|]. by rewrite file_Seek_nonneg by lia.
Qed.

(** C7. For an OffsetDelta object, the bytes after the header that have
    bit 7 set, up to and with the first byte that has it clear, are decoded
    as follows: [num] starts as the low 7 bits of the first byte, and every
    byte that follows a byte with bit 7 set turns [num] into
    [((num + 1) << 7) | (b & 0x7f)]; the loop of case 0x60 computes this
    number and gives [offset - num] as the offset of the base, which
    [readObjectBytes] reads from the same pack.  When the object at that
    offset is a commit, a tree, a blob or a tag, [readObjectBytes] returns
    the type of the base and the delta applied to the content of the base,
    or the size that the delta announces when only the size is asked
    for. *)
Theorem readObjectBytes_offset_delta_base (path : string)
    (indexfiles : gmap string idxFile) (offset : Z)
    (file buf : list Z) (n : nat) (b0 l : Z) (p : nat)
    (first : Z) (rest : list Z) :
  fs !! path = Some file ->
  0 <= offset < 2 ^ 63 ->
  file_Read file offset 1024 = Ret (buf, n) ->
  buf !! 0%nat = Some b0 ->
  Z.land b0 0x70 = 0x60 ->
  readLenInPackFile buf = Ret (l, p) ->
  buf !! p = Some first ->
  (forall (i : nat) (b : Z), rest !! i = Some b -> buf !! (S p + i)%nat = Some b) ->
  continued first rest = true ->
  let num := offsetDeltaNum first rest in
  num = fold_left
          (fun num b => toInt64 (Z.lor (Z.shiftl (num + 1) 7) (Z.land b 0x7f)))
          rest (Z.land first 0x7f)
  /\ deltaBase indexfiles path buf (Z.land b0 0x70) offset p
     = Ret (toUint64 (offset - num), S (p + List.length rest))
  /\ (forall (fuel : nat) (sizeonly : bool),
        readObjectBytes readerDecompressed readerLittleEndianBase128Number
          readerApplyDelta fs (S fuel) path indexfiles offset sizeonly
        = applyDeltaAt readerDecompressed readerLittleEndianBase128Number
            readerApplyDelta file offset (S (p + List.length rest)) l sizeonly
            (readObjectBytes readerDecompressed readerLittleEndianBase128Number
               readerApplyDelta fs fuel path indexfiles (toUint64 (offset - num)) false))
  /\ (forall (cbuf : list Z) (cn : nat) (c0 cl : Z) (cp : nat)
        (baseData deltaData : list Z),
        0 <= offset - num < 2 ^ 63 ->
        file_Read file (offset - num) 1024 = Ret (cbuf, cn) ->
        cbuf !! 0%nat = Some c0 ->
        isPlainObject (Z.land c0 0x70) = true ->
        readLenInPackFile cbuf = Ret (cl, cp) ->
        readerDecompressed (drop (Z.to_nat (offset - num + Z.of_nat cp)) file)
        = Ret baseData ->
        readerDecompressed
          (drop (Z.to_nat (offset + Z.of_nat (S (p + List.length rest)))) file)
        = Ret deltaData ->
        forall (fuel : nat) (sizeonly : bool),
          readObjectBytes readerDecompressed readerLittleEndianBase128Number
            readerApplyDelta fs (S (S fuel)) path indexfiles offset sizeonly
          = let '(_, bytesRead) := readerLittleEndianBase128Number deltaData in
            let rc := drop bytesRead deltaData in
            let '(resultObjectLength, bytesRead) := readerLittleEndianBase128Number rc in
            let rc := drop bytesRead rc in
            if sizeonly then Ret (Z.land c0 0x70, resultObjectLength, None)
            else
              data ← readerApplyDelta (take (Z.to_nat cl) baseData) rc resultObjectLength;
              Ret (Z.land c0 0x70, l, Some data)).
Proof.
  intros Hfs Hoff Hread Hb0 Hot Hlen Hfirst Hrest Hcont num.
  assert (Hdelta : deltaBase indexfiles path buf (Z.land b0 0x70) offset p
                   = Ret (toUint64 (offset - num), S (p + List.length rest))).
  { rewrite Hot. by apply deltaBase_offset. }
  assert (Hnotplain : isPlainObject (Z.land b0 0x70) = false) by by rewrite Hot.
  assert (Hstep : forall (fuel : nat) (sizeonly : bool),
    readObjectBytes readerDecompressed readerLittleEndianBase128Number
      readerApplyDelta fs (S fuel) path indexfiles offset sizeonly
    = applyDeltaAt readerDecompressed readerLittleEndianBase128Number
        readerApplyDelta file offset (S (p + List.length rest)) l sizeonly
        (readObjectBytes readerDecompressed readerLittleEndianBase128Number
           readerApplyDelta fs fuel path indexfiles (toUint64 (offset - num)) false)).
  { intros fuel sizeonly.
    by apply (readObjectBytes_delta_step readerDecompressed
                readerLittleEndianBase128Number readerApplyDelta fs fuel path indexfiles
                offset sizeonly file buf n b0 l p). }
  split; [done|]. split; [done|]. split; [done|].
  intros cbuf cn c0 cl cp baseData deltaData Hbase Hcread Hc0 Hcplain Hclen
    HbaseData HdeltaData fuel sizeonly.
  rewrite Hstep, toUint64_small by lia.
  rewrite (readObjectBytes_plain_step fuel path indexfiles (offset - num) false
             file cbuf cn c0 cl cp Hfs Hbase Hcread Hc0 Hcplain Hclen).
  rewrite HbaseData. unfold applyDeltaAt. cbn [mbind outcome_bind].
  rewrite file_Seek_nonneg by lia. cbn [mbind outcome_bind].
  rewrite HdeltaData. cbn [mbind outcome_bind].
  destruct (readerLittleEndianBase128Number deltaData) as [baseLength bytesRead].
  by destruct (readerLittleEndianBase128Number (drop bytesRead deltaData)).
Qed.

End OffsetDeltaBase.

Lemma readObjectBytes_offset_delta_base_witness :
  offsetDeltaNum 0x81 [0x20] = 288
  /\ deltaBase ∅ "objects/pack/p.pack" DeltaSamples.deltaBuf 0x60 300 1
     = Ret (12, 3%nat)
  /\ readObjectBytes DeltaSamples.noInflate DeltaSamples.noNumber DeltaSamples.noDelta
       DeltaSamples.deltaFs 2 "objects/pack/p.pack" ∅ 300 false
     = Ret (0x10, 6, Some [7; 8; 9])
  /\ readObjectBytes DeltaSamples.noInflate DeltaSamples.noNumber DeltaSamples.noDelta
       DeltaSamples.deltaFs 2 "objects/pack/p.pack" ∅ 300 true
     = Ret (0x10, 0, None).
Proof.
  destruct (readObjectBytes_offset_delta_base DeltaSamples.noInflate
              DeltaSamples.noNumber DeltaSamples.noDelta DeltaSamples.deltaFs
              "objects/pack/p.pack" ∅ 300 DeltaSamples.deltaPack DeltaSamples.deltaBuf
              5 0x66 6 1 0x81 [0x20])
    as (Hnum & Hbase & _ & Hread).
  - reflexivity.
  - lia.
  - vm_compute; reflexivity.
  - reflexivity.
  - reflexivity.
  - vm_compute; reflexivity.
  - reflexivity.
  - intros [|i] b; [|by destruct i]. intros [= <-]. reflexivity.
  - reflexivity.
  - split; [reflexivity|]. split; [exact Hbase|].
    assert (Hout := Hread DeltaSamples.baseBuf 293%nat 0x13 3 1%nat
                      (drop 13 DeltaSamples.deltaPack) [1; 2]).
    split.
    + rewrite (Hout ltac:(split; by vm_compute) ltac:(vm_compute; reflexivity)
                 eq_refl eq_refl ltac:(vm_compute; reflexivity) eq_refl eq_refl 0%nat false).
      reflexivity.
    + rewrite (Hout ltac:(split; by vm_compute) ltac:(vm_compute; reflexivity)
                 eq_refl eq_refl ltac:(vm_compute; reflexivity) eq_refl eq_refl 0%nat true).
      reflexivity.
Defined.

(** ** What extractNewestCommit returns *)

(** X19. On an empty frontier [extractNewestCommit] panics.  On any other
    it returns the first of the newest commits of the frontier, at index
    [k], and the frontier with one element less: the element at index
    [k - 1] is the one removed, so whenever the newest commit is not the
    first of the frontier it is still in the frontier that is returned. *)
Theorem extractNewestCommit_returns (roots0 : list Commit) :
  match roots0 with
  | [] => extractNewestCommit roots0 = Panic "index out of range"
  | _ :: _ =>
      exists (next : Commit) (rest : list Commit) (k : nat),
        extractNewestCommit roots0 = Ret (next, rest)
        /\ roots0 !! k = Some next
        /\ (forall c, c ∈ roots0 -> When c <= When next)
        /\ (forall (i : nat) (c : Commit),
              (i < k)%nat -> roots0 !! i = Some c -> When c < When next)
        /\ rest = (if (List.length roots0 =? 1)%nat then []
                   else take (Nat.pred k) roots0 ++ drop (S (Nat.pred k)) roots0)
        /\ S (List.length rest) = List.length roots0
        /\ ((1 <= k)%nat -> next ∈ rest)
  end.
Proof.
  destruct roots0 as [|c0 tl] eqn:Hroots; [done|]. rewrite <- Hroots.
  assert (Hret : exists next rest, extractNewestCommit roots0 = Ret (next, rest)).
  { rewrite Hroots. unfold extractNewestCommit. destruct tl as [|c1 tl']; [by eauto|].
    destruct (newestLoop (c1 :: tl') 0 c0 0) as [t ti]. by eauto. }
  destruct Hret as (next & rest & Hret).
  destruct (extractNewestCommit_spec roots0 rest next Hret) as (k & Hk & Hmax & Hfirst & Hrest).
  exists next, rest, k. do 5 (split; [done|]).
  pose proof (lookup_lt_Some _ _ _ Hk) as Hlt.
  destruct (Nat.eqb_spec (List.length roots0) 1) as [Hone|Hmore].
  - subst rest. split; [cbn [List.length]; lia|]. intros Hk1. lia.
  - subst rest. split.
    + rewrite length_app, length_take, length_drop. lia.
    + intros Hk1. apply elem_of_app. right.
      apply list_elem_of_lookup. exists 0%nat. rewrite lookup_drop.
      by replace (S (Nat.pred k) + 0)%nat with k by lia.
Qed.

(** ** The parents of a commit *)

Lemma parentsLoop_Forall2 (getCommit : sha1 -> outcome Commit) (c : Commit) (n : nat) :
  forall (idx : nat) (ps : list Commit),
    (idx + n = List.length (parents c))%nat ->
    parentsLoop getCommit c idx n = Ret ps
    <-> Forall2 (fun pid p => getCommit pid = Ret p) (drop idx (parents c)) ps.
Proof.
  induction n as [|n IH]; intros idx ps Hlen.
  - rewrite drop_ge by lia. cbn [parentsLoop]. split.
    + intros [= <-]. constructor.
    + by intros ->%Forall2_nil_inv_l.
  - destruct (lookup_lt_is_Some_2 (parents c) idx ltac:(lia)) as [pid Hpid].
    rewrite (drop_S _ pid idx Hpid). cbn [parentsLoop]. unfold Parent at 1.
    rewrite (proj2 (index_Ret _ _ _) Hpid). cbn [mbind outcome_bind]. split.
    + intros (p & Hp & Hrest)%bind_Ret_inv.
      apply bind_Ret_inv in Hrest as (ps' & Hps' & [= <-]).
      constructor; [done|]. apply IH; [lia|done].
    + intros (p & ps' & Hp & Hps' & ->)%Forall2_cons_inv_l.
      rewrite Hp. cbn [mbind outcome_bind].
      apply IH in Hps'; [|lia]. rewrite Hps'. done.
Qed.

(** X20. [parents] returns a list of commits exactly when the repository
    holds every parent id of the commit: the list then has one commit for
    each parent id, in their order, the one that the repository holds under
    that id. *)
Theorem parentsOf_Ret_iff (getCommit : sha1 -> outcome Commit) (c : Commit)
    (ps : list Commit) :
  parentsOf getCommit c = Ret ps
  <-> Forall2 (fun pid p => getCommit pid = Ret p) (parents c) ps.
Proof.
  unfold parentsOf, ParentCount.
  by rewrite (parentsLoop_Forall2 getCommit c _ 0 ps eq_refl).
Qed.

(** ** The further properties at the samples *)

Lemma skipEqualCommits_returns_witness :
  skipEqualCommits SimplifySamples.sameRepository 3 SimplifySamples.same
    commitRootComparator ∅
  = Ret (Some SimplifySamples.base, {[ Id SimplifySamples.same ]})
  /\ ((∅ : gset sha1) ⊆ {[ Id SimplifySamples.same ]}
      /\ equalChain SimplifySamples.sameRepository commitRootComparator
           SimplifySamples.same SimplifySamples.base
      /\ (Id SimplifySamples.base ∉ ({[ Id SimplifySamples.same ]} : gset sha1))
      /\ forall j : nat, (j < ParentCount SimplifySamples.base)%nat ->
           exists p, Parent SimplifySamples.sameRepository SimplifySamples.base j = Ret p
                     /\ commitRootComparator SimplifySamples.base p = false).
Proof.
  assert (H : skipEqualCommits SimplifySamples.sameRepository 3 SimplifySamples.same
                commitRootComparator ∅
              = Ret (Some SimplifySamples.base, {[ Id SimplifySamples.same ]}))
    by (vm_compute; reflexivity).
  split; [exact H|].
  exact (skipEqualCommits_returns SimplifySamples.sameRepository commitRootComparator
           3 SimplifySamples.same ∅ {[ Id SimplifySamples.same ]}
           (Some SimplifySamples.base) H).
Defined.

Lemma walkHistoryLoop_results_reachable_witness :
  walkHistoryLoop WalkSamples.twinsRepository nopCallback commitRootComparator 4
    [WalkSamples.twins] tt
  = Ret ([WalkSamples.twins; WalkSamples.left; WalkSamples.right], tt)
  /\ forall c, c ∈ [WalkSamples.twins; WalkSamples.left; WalkSamples.right] ->
       reachableFrom WalkSamples.twinsRepository [WalkSamples.twins] c.
Proof.
  assert (H : walkHistoryLoop WalkSamples.twinsRepository nopCallback
                commitRootComparator 4 [WalkSamples.twins] tt
              = Ret ([WalkSamples.twins; WalkSamples.left; WalkSamples.right], tt))
    by (vm_compute; reflexivity).
  split; [exact H|].
  exact (walkHistoryLoop_results_reachable WalkSamples.twinsRepository nopCallback
           commitRootComparator 4 [WalkSamples.twins] tt tt _ H).
Defined.

Lemma walkHistoryLoop_results_taken_witness :
  walkHistoryLoop ChainSamples.chainRepository
    (makePager (Some (@nopCallback unit)) tt 1 5).1 nopComparator 5
    [ChainSamples.tip] (makePager (Some (@nopCallback unit)) tt 1 5).2
  = Ret ([ChainSamples.mid; ChainSamples.root],
         {| inner := tt; skip := 0; count := 3 |})
  /\ exists visited : list Commit,
       [ChainSamples.mid; ChainSamples.root]
       = takenAmong (makePager (Some (@nopCallback unit)) tt 1 5).1
           (makePager (Some (@nopCallback unit)) tt 1 5).2 visited
       /\ {| inner := tt; skip := 0; count := 3 |}
          = closureAfter (makePager (Some (@nopCallback unit)) tt 1 5).1
              (makePager (Some (@nopCallback unit)) tt 1 5).2 visited.
Proof.
  assert (H : walkHistoryLoop ChainSamples.chainRepository
                (makePager (Some (@nopCallback unit)) tt 1 5).1 nopComparator 5
                [ChainSamples.tip] (makePager (Some (@nopCallback unit)) tt 1 5).2
              = Ret ([ChainSamples.mid; ChainSamples.root],
                     {| inner := tt; skip := 0; count := 3 |}))
    by (vm_compute; reflexivity).
  split; [exact H|].
  destruct (walkHistoryLoop_results_taken ChainSamples.chainRepository
              (makePager (Some (@nopCallback unit)) tt 1 5).1 nopComparator 5
              [ChainSamples.tip] (makePager (Some (@nopCallback unit)) tt 1 5).2
              {| inner := tt; skip := 0; count := 3 |}
              [ChainSamples.mid; ChainSamples.root] H)
    as (visited & HR & Hst & _).
  exists visited. split; [exact HR | exact Hst].
Defined.

Lemma walkLoop_all_seen_panics_witness :
  walkLoop WalkSamples.mergeRepository (@nopCallback unit) commitRootComparator 1
    {| roots := [WalkSamples.newer]; seen := {[ Id WalkSamples.newer ]};
       results := [WalkSamples.merge; WalkSamples.newer]; closure := tt |}
  = Panic "index out of range".
Proof.
  apply (walkLoop_all_seen_panics WalkSamples.mergeRepository nopCallback
           commitRootComparator 0
           {| roots := [WalkSamples.newer]; seen := {[ Id WalkSamples.newer ]};
              results := [WalkSamples.merge; WalkSamples.newer]; closure := tt |}).
  - discriminate.
  - intros c Hc. cbn [roots seen] in *. apply list_elem_of_singleton in Hc as ->.
    by apply elem_of_singleton.
Defined.

Lemma walkHistoryLoop_makePathChecker_witness :
  walkHistoryLoop WalkSamples.skewedRepository PagerSamples.checker nopComparator 5
    [WalkSamples.earlyChild] tt
  = Ret ([WalkSamples.lateParent], tt)
  /\ forall c, c ∈ [WalkSamples.lateParent] ->
       exists entry, PagerSamples.onlyInLateParent c "src/x.txt" = inl entry.
Proof.
  assert (H : walkHistoryLoop WalkSamples.skewedRepository PagerSamples.checker
                nopComparator 5 [WalkSamples.earlyChild] tt
              = Ret ([WalkSamples.lateParent], tt))
    by (vm_compute; reflexivity).
  split; [exact H|].
  exact (walkHistoryLoop_makePathChecker WalkSamples.skewedRepository
           PagerSamples.onlyInLateParent "src/x.txt" nopComparator 5
           [WalkSamples.earlyChild] tt tt _ H).
Defined.

Lemma readLenInPackFile_value_witness :
  readLenInPackFile [0x95; 0x0A; 120; 156] = Ret (packLength 0x95 [0x0A], 2%nat)
  /\ 0 <= packLength 0x95 [0x0A] < 2 ^ (4 + 7 * Z.of_nat 1).
Proof.
  apply (readLenInPackFile_value [0x95; 0x0A; 120; 156] 0x95 [0x0A]).
  - reflexivity.
  - intros [|i] c Hc; [exact Hc|]. destruct i; discriminate Hc.
  - reflexivity.
  - cbn [List.length]. lia.
Defined.

Lemma isIdxOffsetValue64_spec_witness :
  isIdxOffsetValue64 0x80000005 = (2 ^ 31 <=? 0x80000005, 0x80000005 mod 2 ^ 31)
  /\ 0x80000005 = (if 2 ^ 31 <=? 0x80000005 then 2 ^ 31 else 0) + 0x80000005 mod 2 ^ 31.
Proof.
  apply (isIdxOffsetValue64_spec 0x80000005). lia.
Defined.

Lemma readIdxFile_accepts_witness :
  readIdxFile AcceptedSamples.byteSum AcceptedSamples.fs "objects/pack/p.idx"
  = Ret (Some AcceptedSamples.accepted)
  /\ dom (offsetValues AcceptedSamples.accepted)
     = list_to_set
         (chunks 20 (Z.to_nat (bigEndian (take 4 (drop 1028 AcceptedSamples.idx))))
            (drop 1032 AcceptedSamples.idx)).
Proof.
  assert (H : readIdxFile AcceptedSamples.byteSum AcceptedSamples.fs "objects/pack/p.idx"
              = Ret (Some AcceptedSamples.accepted))
    by (vm_compute; reflexivity).
  split; [exact H|].
  destruct (readIdxFile_accepts AcceptedSamples.byteSum AcceptedSamples.fs
              "objects/pack/p.idx" AcceptedSamples.accepted H)
    as (_ & _ & _ & idxf & pack & Hidx & _ & _ & _ & _ & _ & Hdom & _).
  assert (idxf = AcceptedSamples.idx) as ->; [|exact Hdom].
  assert (Hfs : AcceptedSamples.fs !! "objects/pack/p.idx" = Some AcceptedSamples.idx)
    by reflexivity.
  rewrite Hfs in Hidx. by injection Hidx as <-.
Defined.

Lemma readObjectBytes_offset_delta_zero_witness :
  PackSamples.selfDeltaFs !! "objects/pack/p.pack" = Some PackSamples.selfDeltaPack
  /\ forall (fuel : nat) (sizeonly : bool),
       readObjectBytes DeltaSamples.noInflate DeltaSamples.noNumber DeltaSamples.noDelta
         PackSamples.selfDeltaFs fuel "objects/pack/p.pack" ∅ 12 sizeonly
       = OutOfFuel.
Proof.
  split; [reflexivity|].
  apply (readObjectBytes_offset_delta_zero DeltaSamples.noInflate DeltaSamples.noNumber
           DeltaSamples.noDelta PackSamples.selfDeltaFs "objects/pack/p.pack" ∅ 12
           PackSamples.selfDeltaPack ([0x60; 0x00] ++ replicate 1022 0) 2 0x60 0 1 0).
  - reflexivity.
  - lia.
  - vm_compute; reflexivity.
  - reflexivity.
  - reflexivity.
  - vm_compute; reflexivity.
  - reflexivity.
  - reflexivity.
  - reflexivity.
Defined.

Lemma readObjectBytes_unknown_tag_witness :
  PackSamples.untaggedFs !! "objects/pack/p.pack" = Some PackSamples.untaggedPack
  /\ forall (fuel : nat) (sizeonly : bool),
       readObjectBytes DeltaSamples.noInflate DeltaSamples.noNumber DeltaSamples.noDelta
         PackSamples.untaggedFs fuel "objects/pack/p.pack" ∅ 12 sizeonly
       = OutOfFuel.
Proof.
  split; [reflexivity|].
  apply (readObjectBytes_unknown_tag DeltaSamples.noInflate DeltaSamples.noNumber
           DeltaSamples.noDelta PackSamples.untaggedFs "objects/pack/p.pack" ∅ 12
           PackSamples.untaggedPack ([0x05] ++ replicate 1023 0) 1 0x05 5 1).
  - reflexivity.
  - reflexivity.
  - lia.
  - vm_compute; reflexivity.
  - reflexivity.
  - left. reflexivity.
  - vm_compute; reflexivity.
Defined.

Lemma newSignatureFromCommitline_String_witness :
  Signatures.newSignatureFromCommitline SignatureSamples.decimal
    (Signatures.String SignatureSamples.author ++ [32] ++ SignatureSamples.timestamp
       ++ [32] ++ SignatureSamples.zone)
  = (seconds ← SignatureSamples.decimal SignatureSamples.timestamp;
     Ret {| Signatures.Email := Signatures.Email SignatureSamples.author;
            Signatures.Name := Signatures.Name SignatureSamples.author;
            Signatures.When := seconds |}).
Proof.
  apply (newSignatureFromCommitline_String SignatureSamples.decimal
           SignatureSamples.author SignatureSamples.timestamp SignatureSamples.zone);
    compute_done.
Defined.

Lemma newSignatureFromCommitline_panics_witness :
  Signatures.newSignatureFromCommitline SignatureSamples.decimal
    (Signatures.String SignatureSamples.author ++ [32] ++ SignatureSamples.timestamp)
  = Panic "slice bounds out of range".
Proof.
  apply (newSignatureFromCommitline_panics SignatureSamples.decimal).
  right. right. exists SignatureSamples.author, SignatureSamples.timestamp.
  split; [reflexivity|]. repeat split; compute_done.
Defined.

Lemma readObjectBytes_plain_object_witness :
  readObjectBytes DeltaSamples.noInflate DeltaSamples.noNumber DeltaSamples.noDelta
    PackSamples.commitFs 1 "objects/pack/p.pack" ∅ 12 false
  = (dataRc ← DeltaSamples.noInflate (drop (Z.to_nat 12 + 2) PackSamples.commitPack);
     Ret (Z.land 0x95 0x70, packLength 0x95 [0x0A],
          Some (take (Z.to_nat (packLength 0x95 [0x0A])) dataRc))).
Proof.
  apply (readObjectBytes_plain_object DeltaSamples.noInflate DeltaSamples.noNumber
           DeltaSamples.noDelta PackSamples.commitFs 0 "objects/pack/p.pack" ∅ 12 false
           PackSamples.commitPack 0x95 [0x0A]).
  - reflexivity.
  - lia.
  - reflexivity.
  - intros [|i] c Hc; [exact Hc|]. destruct i; discriminate Hc.
  - reflexivity.
  - cbn [List.length]. lia.
  - reflexivity.
Defined.

Lemma readObjectBytes_nothing_to_read_witness :
  readObjectBytes DeltaSamples.noInflate DeltaSamples.noNumber DeltaSamples.noDelta
    PackSamples.commitFs 1 "objects/pack/p.pack" ∅ 19 true
  = Err io_EOF.
Proof.
  apply (readObjectBytes_nothing_to_read DeltaSamples.noInflate DeltaSamples.noNumber
           DeltaSamples.noDelta PackSamples.commitFs 0 "objects/pack/p.pack" ∅ 19 true).
  - lia.
  - right. right. exists PackSamples.commitPack. split; [reflexivity|].
    cbn [PackSamples.commitPack Samples.packHeader List.length app]. lia.
Defined.
